(** * Sequencium: board model and minimax search (sequencium.py)

    A shallow embedding of [GameBoard] and [SequenciumAI] from
    [sequencium.py], followed by the properties proved about them.

    Conventions of the embedding:
    - Python integers are [Z]; a list is a [list]; [list[i]] follows
      Python's indexing (negative indices count from the end, anything
      outside [-len, len) raises [IndexError]).
    - A Python [set] of coordinate tuples is a [gset (Z * Z)]; iterating
      over it enumerates [elements s] (CPython's order is an artefact of
      its hash table, and no theorem below depends on the order chosen).
    - The insertion-ordered [dict] of [get_valid_moves] is an association
      list that keeps the position of a key when its value is overwritten.
    - Exceptions are values of [result]; the search functions recurse on a
      fuel argument, the number of nested calls of [minimax] that fit
      under the interpreter's recursion limit: the theorems say how many
      are enough, and when they are used up ([RecursionError]). *)

From stdpp Require Import strings gmap list.

Local Open Scope Z_scope.

(** ** Exceptions *)

Inductive exn : Type := PyExc (cls : string).

Definition IndexError : exn := PyExc "IndexError".
Definition TypeError : exn := PyExc "TypeError".
Definition RecursionError : exn := PyExc "RecursionError".

Inductive result (T : Type) : Type :=
  | Ok (x : T)
  | Raise (e : exn).
Arguments Ok {T} x.
Arguments Raise {T} e.

#[global] Instance result_ret : MRet result := fun _ x => Ok x.
#[global] Instance result_bind : MBind result := fun _ _ f m =>
  match m with
  | Ok x => f x
  | Raise e => Raise e
  end.

(** A [for x in l: s = f(s, x)] loop whose body may raise. *)
Fixpoint for_each {T S : Type} (f : S -> T -> result S) (l : list T) (s : S)
  : result S :=
  match l with
  | [] => Ok s
  | x :: l' => s' ← f s x; for_each f l' s'
  end.

(** ** Python list indexing *)

Definition py_slot {T : Type} (l : list T) (i : Z) : result nat :=
  let n := Z.of_nat (length l) in
  let j := if bool_decide (i < 0) then i + n else i in
  if bool_decide (0 <= j < n) then Ok (Z.to_nat j) else Raise IndexError.

(** [l[i]] *)
Definition py_index {T : Type} (l : list T) (i : Z) : result T :=
  k ← py_slot l i;
  match l !! k with
  | Some x => Ok x
  | None => Raise IndexError
  end.

(** [l[i] = x] *)
Definition py_setitem {T : Type} (l : list T) (i : Z) (x : T)
  : result (list T) :=
  k ← py_slot l i; Ok (<[k := x]> l).

(** [range(n)] *)
Definition py_range (n : Z) : list Z := seqZ 0 n.

(** [len(s)] of a set *)
Definition set_len (s : gset (Z * Z)) : nat := base.size s.

(** ** Players and boards *)

Module Player.

Inductive t : Type := A | B.

#[global] Instance eq_dec : EqDecision t.
Proof. solve_decision. Defined.

(** [Player.B if player == Player.A else Player.A] *)
Definition other (p : t) : t :=
  match p with A => B | B => A end.

End Player.

Abbreviation cell := (option (Player.t * Z)).
Abbreviation move := (Z * Z * Z)%type.

Record GameBoard : Type := mkBoard {
  size : Z;
  board : list (list cell);
  positions_A : gset (Z * Z);
  positions_B : gset (Z * Z)
}.

(** [self.player_positions[player]] *)
Definition player_positions (g : GameBoard) (p : Player.t) : gset (Z * Z) :=
  match p with
  | Player.A => positions_A g
  | Player.B => positions_B g
  end.

(** [self.player_positions[player].add(pos)] *)
Definition positions_add (g : GameBoard) (p : Player.t) (pos : Z * Z)
  : GameBoard :=
  match p with
  | Player.A => mkBoard (size g) (board g) ({[pos]} ∪ positions_A g) (positions_B g)
  | Player.B => mkBoard (size g) (board g) (positions_A g) ({[pos]} ∪ positions_B g)
  end.

(** [self.board[row][col]] *)
Definition board_get (g : GameBoard) (row col : Z) : result cell :=
  r ← py_index (board g) row; py_index r col.

(** [self.board[row][col] = c]: the row object is fetched, then updated in
    place; the rows are distinct list objects. *)
Definition board_set (g : GameBoard) (row col : Z) (c : cell)
  : result GameBoard :=
  k ← py_slot (board g) row;
  r ← py_index (board g) row;
  r' ← py_setitem r col c;
  Ok (mkBoard (size g) (<[k := r']> (board g)) (positions_A g) (positions_B g)).

(** [GameBoard.__init__] *)
Definition GameBoard_init (sz : Z) : result GameBoard :=
  let n := Z.to_nat sz in
  let g0 := mkBoard sz (replicate n (replicate n None)) ∅ ∅ in
  g1 ← board_set g0 0 0 (Some (Player.A, 1));
  let g2 := positions_add g1 Player.A (0, 0) in
  g3 ← board_set g2 (sz - 1) (sz - 1) (Some (Player.B, 1));
  Ok (positions_add g3 Player.B (sz - 1, sz - 1)).

(** [GameBoard.get_cell] *)
Definition get_cell (g : GameBoard) (row col : Z) : result cell :=
  if bool_decide (0 <= row < size g) && bool_decide (0 <= col < size g)
  then board_get g row col
  else Ok None.

(** [GameBoard.set_cell] *)
Definition set_cell (g : GameBoard) (row col : Z) (p : Player.t) (value : Z)
  : result GameBoard :=
  g' ← board_set g row col (Some (p, value));
  Ok (positions_add g' p (row, col)).

(** [GameBoard.get_neighbors] *)
Definition get_neighbors (g : GameBoard) (row col : Z) : list (Z * Z) :=
  dr ← [-1; 0; 1];
  dc ← [-1; 0; 1];
  if bool_decide (dr = 0) && bool_decide (dc = 0) then []
  else
    let nr := row + dr in
    let nc := col + dc in
    if bool_decide (0 <= nr < size g) && bool_decide (0 <= nc < size g)
    then [(nr, nc)]
    else [].

(** [_, current_value = c]: unpacking [None] raises [TypeError]. *)
Definition unpack_cell (c : cell) : result (Player.t * Z) :=
  match c with
  | Some pv => Ok pv
  | None => Raise TypeError
  end.

(** The insertion-ordered dictionary [move_dict]. *)
Fixpoint dict_get (d : list ((Z * Z) * Z)) (k : Z * Z) : option Z :=
  match d with
  | [] => None
  | (k', v) :: d' => if decide (k = k') then Some v else dict_get d' k
  end.

Fixpoint dict_set (d : list ((Z * Z) * Z)) (k : Z * Z) (v : Z)
  : list ((Z * Z) * Z) :=
  match d with
  | [] => [(k, v)]
  | (k', v') :: d' =>
      if decide (k = k') then (k', v) :: d' else (k', v') :: dict_set d' k v
  end.

(** The first loop of [get_valid_moves]: every empty neighbour of every
    owned position, with the owner's value plus one. *)
Definition propose_from (g : GameBoard) (acc : list move) (pos : Z * Z)
  : result (list move) :=
  let '(pos_row, pos_col) := pos in
  c ← board_get g pos_row pos_col;
  '(_, current_value) ← unpack_cell c;
  let new_value := current_value + 1 in
  for_each (fun acc '(nr, nc) =>
              x ← board_get g nr nc;
              match x with
              | None => Ok (acc ++ [(nr, nc, new_value)])
              | Some _ => Ok acc
              end)
           (get_neighbors g pos_row pos_col) acc.

(** The second loop: keep, per target, the largest proposed value. *)
Definition dedup_step (d : list ((Z * Z) * Z)) (m : move) : list ((Z * Z) * Z) :=
  let '(row, col, value) := m in
  match dict_get d (row, col) with
  | None => dict_set d (row, col) value
  | Some old => if bool_decide (value > old) then dict_set d (row, col) value else d
  end.

(** [GameBoard.get_valid_moves] *)
Definition get_valid_moves (g : GameBoard) (p : Player.t) : result (list move) :=
  valid_moves ← for_each (propose_from g) (elements (player_positions g p)) [];
  let move_dict := foldl dedup_step [] valid_moves in
  Ok ((fun '(row, col, value) => (row, col, value)) <$> move_dict).

(** [GameBoard.make_move]: the returned board is the state of the object
    after the call; when the call raises, nothing has been mutated. *)
Definition make_move (g : GameBoard) (row col : Z) (p : Player.t) (value : Z)
  : result (bool * GameBoard) :=
  c ← board_get g row col;
  if bool_decide (c ≠ None) then Ok (false, g)
  else
    valid_moves ← get_valid_moves g p;
    if bool_decide ((row, col, value) ∉ valid_moves) then Ok (false, g)
    else
      g' ← set_cell g row col p value;
      Ok (true, g').

(** [GameBoard.get_max_value] *)
Definition get_max_value (g : GameBoard) (p : Player.t) : result Z :=
  for_each (fun max_val '(row, col) =>
              c ← board_get g row col;
              '(_, value) ← unpack_cell c;
              Ok (Z.max max_val value))
           (elements (player_positions g p)) 0.

(** [GameBoard.is_game_over]; [and] does not evaluate its right operand
    when the left one is false. *)
Definition is_game_over (g : GameBoard) : result bool :=
  ma ← get_valid_moves g Player.A;
  if bool_decide (length ma = 0%nat) then
    mb ← get_valid_moves g Player.B;
    Ok (bool_decide (length mb = 0%nat))
  else Ok false.

(** [GameBoard.get_winner] *)
Definition get_winner (g : GameBoard) : result (option Player.t) :=
  max_a ← get_max_value g Player.A;
  max_b ← get_max_value g Player.B;
  if bool_decide (max_a > max_b) then Ok (Some Player.A)
  else if bool_decide (max_b > max_a) then Ok (Some Player.B)
  else Ok None.

(** [GameBoard.copy]: a fresh [GameBoard(self.size)] is constructed (which
    may raise) and its grid and sets are replaced by deep copies. *)
Definition copy (g : GameBoard) : result GameBoard :=
  _ ← GameBoard_init (size g);
  Ok (mkBoard (size g) (board g) (positions_A g) (positions_B g)).

(** ** Scores: Python numbers extended by [float('-inf')] and [float('inf')] *)

Inductive score : Type := NegInf | Fin (z : Z) | PosInf.

Definition score_ltb (a b : score) : bool :=
  match a, b with
  | NegInf, NegInf => false
  | NegInf, _ => true
  | Fin x, Fin y => bool_decide (x < y)
  | Fin _, PosInf => true
  | _, _ => false
  end.

Definition score_leb (a b : score) : bool := negb (score_ltb b a).

(** [max(a, b)] returns [a] unless [b > a]; [min(a, b)] returns [a] unless
    [b < a]. *)
Definition score_max (a b : score) : score := if score_ltb a b then b else a.
Definition score_min (a b : score) : score := if score_ltb b a then b else a.

(** ** SequenciumAI *)

(** [SequenciumAI.evaluate_position] *)
Definition evaluate_position (g : GameBoard) (player : Player.t) : result Z :=
  let opponent := Player.other player in
  mp ← get_max_value g player;
  mo ← get_max_value g opponent;
  let max_diff := mp - mo in
  let cell_diff :=
    Z.of_nat (set_len (player_positions g player))
    - Z.of_nat (set_len (player_positions g opponent)) in
  vp ← get_valid_moves g player;
  vo ← get_valid_moves g opponent;
  let mobility_diff := Z.of_nat (length vp) - Z.of_nat (length vo) in
  Ok (max_diff * 100 + cell_diff * 10 + mobility_diff).

(** Outcome of a run under a bound on its nesting: a value, a Python
    exception, or the bound used up. For the recursive search the bound is
    the number of nested calls of [minimax] for which the interpreter's
    recursion limit leaves room, and using it up is the [RecursionError]
    that CPython raises ([under_limit]); for the [while] loop of
    [play_game] the bound counts iterations, and using it up means that
    the loop is still running. *)
Inductive outcome (T : Type) : Type :=
  | Done (x : T)
  | Failed (e : exn)
  | OutOfFuel.
Arguments Done {T} x.
Arguments Failed {T} e.
Arguments OutOfFuel {T}.

#[global] Instance outcome_ret : MRet outcome := fun _ x => Done x.
#[global] Instance outcome_bind : MBind outcome := fun _ _ f m =>
  match m with
  | Done x => f x
  | Failed e => Failed e
  | OutOfFuel => OutOfFuel
  end.

Definition lift {T : Type} (r : result T) : outcome T :=
  match r with
  | Ok x => Done x
  | Raise e => Failed e
  end.

(** What the caller of a recursive search sees when [limit] nested calls
    fit under the recursion limit: a call nested deeper raises
    [RecursionError], which nothing in the source catches. *)
Definition under_limit {T : Type} (o : outcome T) : result T :=
  match o with
  | Done x => Ok x
  | Failed e => Raise e
  | OutOfFuel => Raise RecursionError
  end.

(** What a search call hands back: its score, its move, and the value of
    [self.nodes_evaluated] after the call. *)
Abbreviation answer := (score * option move * Z)%type.

(** The [for move in valid_moves] loop of the maximizing branch; [rec] is
    the recursive call [self.minimax(new_board, depth - 1, alpha, beta,
    False, player)] with the counter threaded through. *)
Definition max_loop (rec : GameBoard -> score -> score -> Z -> outcome answer)
    (g : GameBoard) (current_player : Player.t) (beta : score)
  : list move -> score -> score -> option move -> Z -> outcome answer :=
  fix loop moves alpha max_eval best_move n :=
    match moves with
    | [] => Done (max_eval, best_move, n)
    | mv :: rest =>
        let '(row, col, value) := mv in
        new_board ← lift (copy g);
        '(_, new_board) ← lift (make_move new_board row col current_player value);
        '(eval_score, _, n) ← rec new_board alpha beta n;
        let '(max_eval, best_move) :=
          if score_ltb max_eval eval_score then (eval_score, Some mv)
          else (max_eval, best_move) in
        let alpha := score_max alpha eval_score in
        if score_leb beta alpha then Done (max_eval, best_move, n)
        else loop rest alpha max_eval best_move n
    end.

(** The loop of the minimizing branch. *)
Definition min_loop (rec : GameBoard -> score -> score -> Z -> outcome answer)
    (g : GameBoard) (current_player : Player.t) (alpha : score)
  : list move -> score -> score -> option move -> Z -> outcome answer :=
  fix loop moves beta min_eval best_move n :=
    match moves with
    | [] => Done (min_eval, best_move, n)
    | mv :: rest =>
        let '(row, col, value) := mv in
        new_board ← lift (copy g);
        '(_, new_board) ← lift (make_move new_board row col current_player value);
        '(eval_score, _, n) ← rec new_board alpha beta n;
        let '(min_eval, best_move) :=
          if score_ltb eval_score min_eval then (eval_score, Some mv)
          else (min_eval, best_move) in
        let beta := score_min beta eval_score in
        if score_leb beta alpha then Done (min_eval, best_move, n)
        else loop rest beta min_eval best_move n
    end.

(** [SequenciumAI.minimax]; [n] is [self.nodes_evaluated] on entry. *)
Fixpoint minimax (fuel : nat) (g : GameBoard) (depth : Z) (alpha beta : score)
    (maximizing_player : bool) (player : Player.t) (n : Z) : outcome answer :=
  match fuel with
  | O => OutOfFuel
  | S fuel' =>
      let n := n + 1 in
      let opponent := Player.other player in
      let current_player := if maximizing_player then player else opponent in
      terminal ← (if bool_decide (depth = 0) then Done true
                  else lift (is_game_over g));
      if terminal : bool then
        s ← lift (evaluate_position g player); Done (Fin s, None, n)
      else
        valid_moves ← lift (get_valid_moves g current_player);
        if bool_decide (valid_moves = []) then
          minimax fuel' g (depth - 1) alpha beta (negb maximizing_player) player n
        else if maximizing_player then
          max_loop (fun nb a b k => minimax fuel' nb (depth - 1) a b false player k)
                   g current_player beta valid_moves alpha NegInf None n
        else
          min_loop (fun nb a b k => minimax fuel' nb (depth - 1) a b true player k)
                   g current_player alpha valid_moves beta PosInf None n
  end.

(** [SequenciumAI.get_best_move] for an AI built with [max_depth]; the
    result carries the final [nodes_evaluated]. *)
Definition get_best_move (fuel : nat) (max_depth : Z) (g : GameBoard)
    (player : Player.t) : outcome (option move * Z) :=
  let n := 0 in
  valid_moves ← lift (get_valid_moves g player);
  if bool_decide (valid_moves = []) then Done (None, n)
  else
    '(_, best_move, n) ← minimax fuel g max_depth NegInf PosInf true player n;
    Done (best_move, n).

(** [play_game] without its printing: the [while] loop, which carries the
    board, the player to move and [move_count], and the value returned.
    [fuel] bounds the iterations of the loop and [search_fuel] the
    recursion of each search. *)
Fixpoint play_loop (fuel search_fuel : nat) (ai_depth : Z) (g : GameBoard)
    (current_player : Player.t) (move_count : Z) : outcome (GameBoard * Z) :=
  match fuel with
  | O => OutOfFuel
  | S fuel' =>
      finished ← lift (is_game_over g);
      if finished : bool then Done (g, move_count)
      else
        valid_moves ← lift (get_valid_moves g current_player);
        if bool_decide (valid_moves = []) then
          play_loop fuel' search_fuel ai_depth g
                    (Player.other current_player) move_count
        else
          let move_count := move_count + 1 in
          '(best_move, _) ← get_best_move search_fuel ai_depth g current_player;
          g' ← match best_move with
               | Some (row, col, value) =>
                   '(_, g') ← lift (make_move g row col current_player value);
                   Done g'
               | None => Done g
               end;
          play_loop fuel' search_fuel ai_depth g'
                    (Player.other current_player) move_count
  end.

Definition play_game (fuel search_fuel : nat) (board_size ai_depth : Z)
  : outcome (GameBoard * option Player.t) :=
  g ← lift (GameBoard_init board_size);
  '(g', _) ← play_loop fuel search_fuel ai_depth g Player.A 0;
  _ ← lift (get_max_value g' Player.A);
  _ ← lift (get_max_value g' Player.B);
  winner ← lift (get_winner g');
  Done (g', winner).

(** ** Exhaustive minimax

    The reference against which the pruned search is compared, written
    after the specification's words: an "exhaustive (unpruned) minimax
    search over the same tree" (same terminal test, same pass rule, same
    moves in the same order, same depth), every child searched, no
    window, and "the first move achieving the best score is returned,
    later equal-score moves do not replace it". *)

(** The value of every child, in the order of the moves. *)
Fixpoint child_values (rec : GameBoard -> outcome Z) (g : GameBoard)
    (current_player : Player.t) (moves : list move)
  : outcome (list (move * Z)) :=
  match moves with
  | [] => Done []
  | mv :: rest =>
      let '(row, col, value) := mv in
      new_board ← lift (copy g);
      '(_, new_board) ← lift (make_move new_board row col current_player value);
      s ← rec new_board;
      scored ← child_values rec g current_player rest;
      Done ((mv, s) :: scored)
  end.

(** The largest (smallest) of a list of values. *)
Definition best_value (maximizing : bool) (values : list Z) : Z :=
  match values with
  | [] => 0
  | v :: rest => foldr (if maximizing then Z.max else Z.min) v rest
  end.

(** The first move whose value is [v]. *)
Definition first_with (v : Z) (scored : list (move * Z)) : option move :=
  (fun hit => hit.2.1) <$> list_find (fun ms => ms.2 = v) scored.

Fixpoint exhaustive (fuel : nat) (g : GameBoard) (depth : Z)
    (maximizing_player : bool) (player : Player.t)
  : outcome (Z * option move) :=
  match fuel with
  | O => OutOfFuel
  | S fuel' =>
      let opponent := Player.other player in
      let current_player := if maximizing_player then player else opponent in
      terminal ← (if bool_decide (depth = 0) then Done true
                  else lift (is_game_over g));
      if terminal : bool then
        s ← lift (evaluate_position g player); Done (s, None)
      else
        valid_moves ← lift (get_valid_moves g current_player);
        if bool_decide (valid_moves = []) then
          exhaustive fuel' g (depth - 1) (negb maximizing_player) player
        else
          scored ← child_values
                     (fun nb => r ← exhaustive fuel' nb (depth - 1)
                                      (negb maximizing_player) player;
                                Done r.1)
                     g current_player valid_moves;
          let v := best_value maximizing_player scored.*2 in
          Done (v, first_with v scored)
  end.

(** * Properties *)

(** ** The monads *)

Lemma bind_Ok {T U : Type} (m : result T) (f : T -> result U) (y : U) :
  m ≫= f = Ok y <-> exists x, m = Ok x /\ f x = Ok y.
Proof.
  destruct m as [x|e]; simpl; split.
  - intros H. exists x. auto.
  - intros (x' & Hx & H). congruence.
  - discriminate.
  - intros (x' & Hx & _). discriminate.
Qed.

Lemma result_bind_Ok {T U : Type} (x : T) (f : T -> result U) :
  Ok x ≫= f = f x.
Proof. reflexivity. Qed.

Lemma for_each_app {T S : Type} (f : S -> T -> result S) (l1 l2 : list T) (s : S) :
  for_each f (l1 ++ l2) s = for_each f l1 s ≫= for_each f l2.
Proof.
  revert s. induction l1 as [|x l1 IH]; intros s; simpl; [reflexivity|].
  destruct (f s x) as [s'|e]; simpl; [apply IH | reflexivity].
Qed.

(** A loop whose body appends [h x] to the accumulator. *)
Lemma for_each_collect {T U : Type} (f : list U -> T -> result (list U))
    (h : T -> list U) (l : list T) (acc : list U) :
  (forall a x, x ∈ l -> f a x = Ok (a ++ h x)) ->
  for_each f l acc = Ok (acc ++ (l ≫= h)).
Proof.
  revert acc. induction l as [|x l IH]; intros acc Hf; simpl.
  - by rewrite app_nil_r.
  - rewrite Hf by left. simpl. rewrite IH.
    + by rewrite app_assoc.
    + intros a y Hy. apply Hf. by right.
Qed.

(** ** Indexing inside the bounds *)

Lemma py_slot_nonneg {T : Type} (l : list T) (i : Z) :
  0 <= i < Z.of_nat (length l) -> py_slot l i = Ok (Z.to_nat i).
Proof.
  intros H. unfold py_slot.
  repeat case_bool_decide; (done || lia).
Qed.

Lemma py_slot_high {T : Type} (l : list T) (i : Z) :
  Z.of_nat (length l) <= i -> py_slot l i = Raise IndexError.
Proof.
  intros H. unfold py_slot.
  repeat case_bool_decide; (done || lia).
Qed.

Lemma py_index_nonneg {T : Type} (l : list T) (i : Z) (x : T) :
  0 <= i -> l !! Z.to_nat i = Some x -> py_index l i = Ok x.
Proof.
  intros Hi Hx. unfold py_index.
  rewrite py_slot_nonneg.
  - simpl. by rewrite Hx.
  - apply lookup_lt_Some in Hx. lia.
Qed.

Lemma py_index_high {T : Type} (l : list T) (i : Z) :
  Z.of_nat (length l) <= i -> py_index l i = Raise IndexError.
Proof. intros H. unfold py_index. by rewrite py_slot_high. Qed.

(** ** Well-formed boards *)

(** The grid read without the exception layer. *)
Definition cell_at (g : GameBoard) (row col : Z) : cell :=
  match board g !! Z.to_nat row with
  | Some r => default None (r !! Z.to_nat col)
  | None => None
  end.

Definition in_bounds (g : GameBoard) (row col : Z) : Prop :=
  0 <= row < size g /\ 0 <= col < size g.

(** The grid is a [size] by [size] square. *)
Definition grid_ok (g : GameBoard) : Prop :=
  0 < size g /\
  length (board g) = Z.to_nat (size g) /\
  Forall (fun r => length r = Z.to_nat (size g)) (board g).

(** The invariant of the data model: a coordinate is in a player's
    occupancy set exactly when the grid holds a cell of that player there. *)
Definition board_ok (g : GameBoard) : Prop :=
  grid_ok g /\
  forall p row col,
    (row, col) ∈ player_positions g p <->
    exists v, get_cell g row col = Ok (Some (p, v)).

Lemma grid_row (g : GameBoard) (row : Z) :
  grid_ok g -> 0 <= row < size g ->
  exists r, board g !! Z.to_nat row = Some r /\ length r = Z.to_nat (size g).
Proof.
  intros (Hs & Hl & Hr) Hrow.
  destruct (lookup_lt_is_Some_2 (board g) (Z.to_nat row)) as [r Hlk]; [lia|].
  exists r. split; [done|].
  by eapply (Forall_lookup_1 _ _ _ _ Hr).
Qed.

Lemma board_get_in (g : GameBoard) (row col : Z) :
  grid_ok g -> in_bounds g row col ->
  board_get g row col = Ok (cell_at g row col).
Proof.
  intros Hg [Hr Hc]. destruct (grid_row g row Hg Hr) as (r & Hlk & Hlen).
  destruct (lookup_lt_is_Some_2 r (Z.to_nat col)) as [x Hx]; [lia|].
  unfold board_get, cell_at. rewrite Hlk. cbv beta iota. rewrite Hx.
  rewrite (py_index_nonneg _ _ r) by (done || lia).
  apply py_index_nonneg; [lia | done].
Qed.

Lemma get_cell_in (g : GameBoard) (row col : Z) :
  grid_ok g -> in_bounds g row col ->
  get_cell g row col = Ok (cell_at g row col).
Proof.
  intros Hg Hb. unfold get_cell. destruct Hb as [Hr Hc].
  rewrite !bool_decide_eq_true_2 by done. simpl.
  by apply board_get_in.
Qed.

Lemma get_cell_out (g : GameBoard) (row col : Z) :
  ~ in_bounds g row col -> get_cell g row col = Ok None.
Proof.
  intros Hb. unfold get_cell, in_bounds in *.
  destruct (bool_decide (0 <= row < size g)) eqn:E1; [|done].
  destruct (bool_decide (0 <= col < size g)) eqn:E2; [|done].
  apply bool_decide_eq_true in E1, E2. tauto.
Qed.

Lemma get_cell_Some (g : GameBoard) (row col : Z) (pv : Player.t * Z) :
  grid_ok g ->
  get_cell g row col = Ok (Some pv) <->
  in_bounds g row col /\ cell_at g row col = Some pv.
Proof.
  intros Hg. split.
  - intros H. destruct (decide (in_bounds g row col)) as [Hb|Hb].
    + split; [done|]. rewrite get_cell_in in H by done. congruence.
    + rewrite get_cell_out in H by done. discriminate.
  - intros [Hb Hc]. rewrite get_cell_in by done. by rewrite Hc.
Qed.

Lemma board_ok_positions (g : GameBoard) (p : Player.t) (row col : Z) :
  board_ok g ->
  (row, col) ∈ player_positions g p <->
  in_bounds g row col /\ exists v, cell_at g row col = Some (p, v).
Proof.
  intros [Hg Hp]. rewrite Hp. split.
  - intros [v Hv]. apply get_cell_Some in Hv as [? ?]; eauto.
  - intros [Hb [v Hv]]. exists v. by apply get_cell_Some.
Qed.

(** ** Neighbours *)

(** Two distinct coordinates at most one step apart in each direction. *)
Definition adjacent (row col row' col' : Z) : Prop :=
  -1 <= row' - row <= 1 /\ -1 <= col' - col <= 1 /\ (row' <> row \/ col' <> col).

Lemma elem_of_offsets (d : Z) : d ∈ [-1; 0; 1] <-> d = -1 \/ d = 0 \/ d = 1.
Proof. rewrite !elem_of_cons, elem_of_nil. tauto. Qed.

Lemma elem_of_get_neighbors (g : GameBoard) (row col nr nc : Z) :
  (nr, nc) ∈ get_neighbors g row col <->
  in_bounds g nr nc /\ adjacent row col nr nc.
Proof.
  unfold get_neighbors, in_bounds, adjacent.
  rewrite list_elem_of_bind. split.
  - intros (dr & Hin & Hdr). apply list_elem_of_bind in Hin as (dc & Hin & Hdc).
    apply elem_of_offsets in Hdr, Hdc.
    repeat case_bool_decide; simpl in Hin;
      try (apply elem_of_nil in Hin; contradiction);
      apply list_elem_of_singleton in Hin; inversion Hin; subst; lia.
  - intros ((Hr & Hc) & Hdr & Hdc & Hne).
    exists (nr - row). split; [|apply elem_of_offsets; lia].
    apply list_elem_of_bind. exists (nc - col). split; [|apply elem_of_offsets; lia].
    repeat case_bool_decide; simpl; try lia.
    all: apply list_elem_of_singleton; f_equal; lia.
Qed.

(** ** The move generator *)

(** What one owned position contributes to [valid_moves]. *)
Definition proposals (g : GameBoard) (pos : Z * Z) : list move :=
  match cell_at g pos.1 pos.2 with
  | Some (_, cv) =>
      nb ← get_neighbors g pos.1 pos.2;
      match cell_at g nb.1 nb.2 with
      | None => [(nb.1, nb.2, cv + 1)]
      | Some _ => []
      end
  | None => []
  end.

Lemma propose_from_ok (g : GameBoard) (acc : list move) (pos : Z * Z) :
  grid_ok g -> in_bounds g pos.1 pos.2 -> is_Some (cell_at g pos.1 pos.2) ->
  propose_from g acc pos = Ok (acc ++ proposals g pos).
Proof.
  intros Hg Hb [[q cv] Hc]. destruct pos as [pr pc]. simpl in *.
  unfold propose_from, proposals. simpl.
  rewrite board_get_in by done. rewrite Hc. simpl.
  apply for_each_collect. intros a [nr nc] Hn. simpl.
  apply elem_of_get_neighbors in Hn as [Hnb _].
  rewrite board_get_in by done. simpl.
  destruct (cell_at g nr nc); [by rewrite app_nil_r | done].
Qed.

Lemma elem_of_proposals (g : GameBoard) (pos : Z * Z) (nr nc v : Z) :
  (nr, nc, v) ∈ proposals g pos <->
  exists q, cell_at g pos.1 pos.2 = Some (q, v - 1) /\
            in_bounds g nr nc /\ adjacent pos.1 pos.2 nr nc /\
            cell_at g nr nc = None.
Proof.
  unfold proposals. split.
  - destruct (cell_at g pos.1 pos.2) as [[q cv]|] eqn:Hc.
    + intros H. apply list_elem_of_bind in H as ([r c] & Hin & Hn). simpl in Hin.
      apply elem_of_get_neighbors in Hn as [Hb Hadj].
      destruct (cell_at g r c) eqn:Hnc.
      * apply elem_of_nil in Hin. contradiction.
      * apply list_elem_of_singleton in Hin. inversion Hin; subst.
        exists q. replace (cv + 1 - 1) with cv by lia. done.
    + intros H. apply elem_of_nil in H. contradiction.
  - intros (q & Hc & Hb & Hadj & Hnc). rewrite Hc.
    apply list_elem_of_bind. exists (nr, nc). simpl. rewrite Hnc. split.
    + apply list_elem_of_singleton. f_equal. lia.
    + by apply elem_of_get_neighbors.
Qed.

(** The dictionary: reading after writing, and the order of its keys. *)
Lemma dict_get_set (d : list ((Z * Z) * Z)) (k k' : Z * Z) (v : Z) :
  dict_get (dict_set d k v) k' =
  if decide (k' = k) then Some v else dict_get d k'.
Proof.
  induction d as [|[k0 v0] d IH]; simpl.
  - destruct (decide (k' = k)); done.
  - destruct (decide (k = k0)) as [->|Hne]; simpl.
    + destruct (decide (k' = k0)); done.
    + destruct (decide (k' = k0)) as [->|Hne'].
      * destruct (decide (k0 = k)); congruence.
      * apply IH.
Qed.

Lemma dict_set_keys (d : list ((Z * Z) * Z)) (k : Z * Z) (v : Z) :
  (dict_set d k v).*1 =
  match dict_get d k with Some _ => d.*1 | None => d.*1 ++ [k] end.
Proof.
  induction d as [|[k0 v0] d IH]; [done|].
  cbn [dict_set dict_get].
  destruct (decide (k = k0)) as [->|Hne]; [done|].
  rewrite fmap_cons, IH. by destruct (dict_get d k).
Qed.

Lemma dict_get_None (d : list ((Z * Z) * Z)) (k : Z * Z) :
  dict_get d k = None <-> k ∉ d.*1.
Proof.
  induction d as [|[k0 v0] d IH]; simpl.
  - split; [intros _; apply not_elem_of_nil | done].
  - rewrite not_elem_of_cons. destruct (decide (k = k0)); [|tauto].
    split; [discriminate | tauto].
Qed.

Lemma dict_get_Some (d : list ((Z * Z) * Z)) (k : Z * Z) (v : Z) :
  NoDup d.*1 -> dict_get d k = Some v <-> (k, v) ∈ d.
Proof.
  induction d as [|[k0 v0] d IH]; simpl; intros Hnd.
  - split; [discriminate | intros H; by apply elem_of_nil in H].
  - apply NoDup_cons in Hnd as [Hk0 Hnd]. rewrite elem_of_cons.
    destruct (decide (k = k0)) as [->|Hne].
    + split; [intros [= ->]; by left|].
      intros [[= ->]|Hin]; [done|].
      exfalso. apply Hk0. apply list_elem_of_fmap. by exists (k0, v).
    + rewrite IH by done. split; [tauto|]. intros [[= ? ?]|?]; [congruence|done].
Qed.

Lemma dedup_step_keys (d : list ((Z * Z) * Z)) (m : move) :
  NoDup d.*1 -> NoDup (dedup_step d m).*1.
Proof.
  intros Hnd. destruct m as [[r c] v]. unfold dedup_step.
  destruct (dict_get d (r, c)) as [old|] eqn:Hg.
  - case_bool_decide; [|done]. rewrite dict_set_keys, Hg. done.
  - rewrite dict_set_keys, Hg. apply NoDup_app. split; [done|]. split.
    + intros x Hx Hx'. apply list_elem_of_singleton in Hx' as ->.
      by apply dict_get_None in Hg.
    + apply NoDup_singleton.
Qed.

(** After the second loop the dictionary holds, for every proposed target,
    the largest value proposed for it. *)
Definition is_best (raw : list move) (k : Z * Z) (o : option Z) : Prop :=
  match o with
  | Some v => (k, v) ∈ raw /\ forall v', (k, v') ∈ raw -> v' <= v
  | None => forall v', (k, v') ∉ raw
  end.

Lemma is_best_snoc_other (raw : list move) (k k0 : Z * Z) (v : Z) (o : option Z) :
  k <> k0 -> is_best raw k o -> is_best (raw ++ [(k0, v)]) k o.
Proof.
  intros Hne. destruct o as [w|]; simpl.
  - intros [Hin Hmax]. split; [apply elem_of_app; by left|].
    intros v' Hv'. apply elem_of_app in Hv' as [Hv'|Hv']; [by apply Hmax|].
    apply list_elem_of_singleton in Hv'. inversion Hv'. congruence.
  - intros Hnone v' Hv'. apply elem_of_app in Hv' as [Hv'|Hv']; [by apply Hnone in Hv'|].
    apply list_elem_of_singleton in Hv'. inversion Hv'. congruence.
Qed.

Lemma dedup_step_best (raw : list move) (d : list move) (m : move) :
  (forall k, is_best raw k (dict_get d k)) ->
  forall k, is_best (raw ++ [m]) k (dict_get (dedup_step d m) k).
Proof.
  intros IH k. destruct m as [k0 v]. destruct k0 as [r c].
  assert (Hother : forall v0, k <> (r, c) ->
            is_best (raw ++ [(r, c, v)]) k (dict_get (dict_set d (r, c) v0) k)).
  { intros v0 Hne. rewrite dict_get_set, decide_False by done.
    by apply is_best_snoc_other. }
  pose proof (IH (r, c)) as IHk. unfold dedup_step.
  destruct (dict_get d (r, c)) as [old|] eqn:Hg.
  - destruct IHk as [Hin Hmax]. case_bool_decide as Hgt.
    + destruct (decide (k = (r, c))) as [->|Hne]; [|by apply Hother].
      rewrite dict_get_set, decide_True by done. simpl. split.
      * apply elem_of_app. right. by apply list_elem_of_singleton.
      * intros v' Hv'. apply elem_of_app in Hv' as [Hv'|Hv'].
        -- apply Hmax in Hv'. lia.
        -- apply list_elem_of_singleton in Hv'. inversion Hv'. lia.
    + destruct (decide (k = (r, c))) as [->|Hne]; [|by apply is_best_snoc_other].
      rewrite Hg. simpl. split.
      * apply elem_of_app. by left.
      * intros v' Hv'. apply elem_of_app in Hv' as [Hv'|Hv'].
        -- by apply Hmax.
        -- apply list_elem_of_singleton in Hv'. inversion Hv'. lia.
  - destruct (decide (k = (r, c))) as [->|Hne]; [|by apply Hother].
    rewrite dict_get_set, decide_True by done. simpl in *. split.
    + apply elem_of_app. right. by apply list_elem_of_singleton.
    + intros v' Hv'. apply elem_of_app in Hv' as [Hv'|Hv'].
      * by apply IHk in Hv'.
      * apply list_elem_of_singleton in Hv'. inversion Hv'. lia.
Qed.

Lemma dedup_best (raw : list move) :
  NoDup (foldl dedup_step [] raw).*1 /\
  forall k, is_best raw k (dict_get (foldl dedup_step [] raw) k).
Proof.
  induction raw as [|m raw IH] using rev_ind.
  - split; [apply NoDup_nil_2|]. intros k v' H. by apply elem_of_nil in H.
  - rewrite foldl_snoc. destruct IH as [Hnd IH].
    split; [by apply dedup_step_keys | by apply dedup_step_best].
Qed.

Lemma items_id (d : list move) :
  (fun '(row, col, value) => (row, col, value)) <$> d = d.
Proof.
  induction d as [|[[r c] v] d IH]; [done|].
  rewrite fmap_cons. by rewrite IH.
Qed.

(** The contents of [valid_moves] before the duplicates are removed. *)
Definition raw_moves (g : GameBoard) (p : Player.t) : list move :=
  elements (player_positions g p) ≫= proposals g.

Lemma get_valid_moves_ok (g : GameBoard) (p : Player.t) :
  board_ok g ->
  get_valid_moves g p = Ok (foldl dedup_step [] (raw_moves g p)).
Proof.
  intros Hok. unfold get_valid_moves, raw_moves.
  rewrite (for_each_collect _ (proposals g)).
  - simpl. by rewrite items_id.
  - intros a [r c] Hin. apply elem_of_elements in Hin.
    apply (board_ok_positions g p r c Hok) in Hin as [Hb [v Hv]].
    apply propose_from_ok; simpl; [apply Hok | done | rewrite Hv; eauto].
Qed.

Lemma elem_of_raw_moves (g : GameBoard) (p : Player.t) (nr nc v : Z) :
  board_ok g ->
  (nr, nc, v) ∈ raw_moves g p <->
  in_bounds g nr nc /\ cell_at g nr nc = None /\
  exists r c, in_bounds g r c /\ adjacent r c nr nc /\
              cell_at g r c = Some (p, v - 1).
Proof.
  intros Hok. unfold raw_moves. rewrite list_elem_of_bind. split.
  - intros ([r c] & Hin & Hpos). apply elem_of_elements in Hpos.
    apply (board_ok_positions g p r c Hok) in Hpos as [Hb [w Hw]].
    apply elem_of_proposals in Hin as (q & Hc & Hnb & Hadj & Hnone). simpl in *.
    split; [done|]. split; [done|]. exists r, c.
    rewrite Hw in Hc. inversion Hc; subst. by rewrite Hw.
  - intros (Hnb & Hnone & r & c & Hb & Hadj & Hc).
    exists (r, c). split.
    + apply elem_of_proposals. exists p. done.
    + apply elem_of_elements. apply (board_ok_positions g p r c Hok). eauto.
Qed.

Lemma elem_of_dedup (raw : list move) (k : Z * Z) (v : Z) :
  (k, v) ∈ foldl dedup_step [] raw <->
  (k, v) ∈ raw /\ forall v', (k, v') ∈ raw -> v' <= v.
Proof.
  destruct (dedup_best raw) as [Hnd Hbest].
  rewrite <- dict_get_Some by done. specialize (Hbest k). split.
  - intros Hg. by rewrite Hg in Hbest.
  - intros [Hin Hmax]. destruct (dict_get (foldl dedup_step [] raw) k) as [w|].
    + destruct Hbest as [Hw Hwmax]. f_equal.
      apply Hmax in Hw. apply Hwmax in Hin. lia.
    + by apply Hbest in Hin.
Qed.

Lemma adjacent_sym (r c r' c' : Z) : adjacent r c r' c' <-> adjacent r' c' r c.
Proof. unfold adjacent. lia. Qed.

(** ** Legal moves *)

(** A move as the data model describes it: an empty target inside the
    grid, next to a cell of the player, carrying one more than the largest
    value the player holds around the target. *)
Definition legal_move (g : GameBoard) (p : Player.t) (m : move) : Prop :=
  let '(row, col, value) := m in
  in_bounds g row col /\
  get_cell g row col = Ok None /\
  (exists r c, adjacent row col r c /\ get_cell g r c = Ok (Some (p, value - 1))) /\
  (forall r c v, adjacent row col r c ->
                 get_cell g r c = Ok (Some (p, v)) -> v + 1 <= value).

Lemma elem_of_valid_moves (g : GameBoard) (p : Player.t) (m : move) :
  board_ok g ->
  m ∈ foldl dedup_step [] (raw_moves g p) <-> legal_move g p m.
Proof.
  intros Hok. pose proof Hok as [Hg _]. destruct m as [[row col] value].
  rewrite elem_of_dedup. unfold legal_move. split.
  - intros [Hin Hmax].
    apply elem_of_raw_moves in Hin as (Hb & Hnone & r & c & Hrb & Hadj & Hc); [|done].
    split; [done|]. split; [by rewrite get_cell_in, Hnone|]. split.
    + exists r, c. split; [by apply adjacent_sym|]. by apply get_cell_Some.
    + intros r' c' v' Hadj' Hc'. apply get_cell_Some in Hc' as [Hb' Hc']; [|done].
      assert ((row, col, v' + 1) ∈ raw_moves g p) as Hin'.
      { apply elem_of_raw_moves; [done|]. split; [done|]. split; [done|].
        exists r', c'. split; [done|]. split; [by apply adjacent_sym|].
        by replace (v' + 1 - 1) with v' by lia. }
      by apply Hmax in Hin'.
  - intros (Hb & Hnone & (r & c & Hadj & Hc) & Hmax).
    apply get_cell_Some in Hc as [Hrb Hc]; [|done].
    rewrite get_cell_in in Hnone by done. split.
    + apply elem_of_raw_moves; [done|]. split; [done|]. split; [congruence|].
      exists r, c. split; [done|]. split; [by apply adjacent_sym | done].
    + intros v' Hin'.
      apply elem_of_raw_moves in Hin' as (_ & _ & r' & c' & Hrb' & Hadj' & Hc'); [|done].
      specialize (Hmax r' c' (v' - 1)). rewrite adjacent_sym in Hmax.
      specialize (Hmax Hadj'). rewrite get_cell_Some in Hmax by done.
      specialize (Hmax (conj Hrb' Hc')). lia.
Qed.

(** C3. On a board that satisfies the occupancy invariant,
    [get_valid_moves] returns without raising, lists at most one move per
    target coordinate, and a triple is in the list exactly when its target
    is an empty cell of the grid adjacent to a cell of the player and its
    value is one more than the largest value of the player's cells adjacent
    to the target. *)
Theorem get_valid_moves_legal (g : GameBoard) (p : Player.t) :
  board_ok g ->
  exists ms, get_valid_moves g p = Ok ms /\
             NoDup ms.*1 /\
             forall m, m ∈ ms <-> legal_move g p m.
Proof.
  intros Hok. exists (foldl dedup_step [] (raw_moves g p)).
  split; [by apply get_valid_moves_ok|]. split.
  - apply dedup_best.
  - intros m. by apply elem_of_valid_moves.
Qed.

(** ** Placing a value *)

(** The board after [set_cell] on a coordinate inside the grid. *)
Definition place (g : GameBoard) (row col : Z) (p : Player.t) (value : Z)
  : GameBoard :=
  let r := default [] (board g !! Z.to_nat row) in
  positions_add
    (mkBoard (size g)
             (<[Z.to_nat row := <[Z.to_nat col := Some (p, value)]> r]> (board g))
             (positions_A g) (positions_B g))
    p (row, col).

Lemma set_cell_in (g : GameBoard) (row col : Z) (p : Player.t) (value : Z) :
  grid_ok g -> in_bounds g row col ->
  set_cell g row col p value = Ok (place g row col p value).
Proof.
  intros Hg [Hr Hc]. destruct (grid_row g row Hg Hr) as (r & Hlk & Hlen).
  destruct Hg as (Hs & Hl & _).
  unfold set_cell, board_set, place, py_setitem.
  rewrite py_slot_nonneg by lia. simpl.
  rewrite (py_index_nonneg _ _ r) by (done || lia). simpl.
  rewrite py_slot_nonneg by lia. simpl. by rewrite Hlk.
Qed.

Lemma place_size (g : GameBoard) (row col : Z) (p : Player.t) (value : Z) :
  size (place g row col p value) = size g.
Proof. unfold place. by destruct p. Qed.

Lemma place_board (g : GameBoard) (row col : Z) (p : Player.t) (value : Z) :
  board (place g row col p value) =
  <[Z.to_nat row := <[Z.to_nat col := Some (p, value)]>
                      (default [] (board g !! Z.to_nat row))]> (board g).
Proof. unfold place. by destruct p. Qed.

Lemma place_positions (g : GameBoard) (row col : Z) (p q : Player.t) (value : Z) :
  player_positions (place g row col p value) q =
  if decide (q = p) then {[(row, col)]} ∪ player_positions g q
  else player_positions g q.
Proof. unfold place. by destruct p, q. Qed.

Lemma place_in_bounds (g : GameBoard) (row col : Z) (p : Player.t) (value : Z)
    (r c : Z) :
  in_bounds (place g row col p value) r c <-> in_bounds g r c.
Proof. unfold in_bounds. by rewrite place_size. Qed.

Lemma place_grid_ok (g : GameBoard) (row col : Z) (p : Player.t) (value : Z) :
  grid_ok g -> grid_ok (place g row col p value).
Proof.
  intros (Hs & Hl & Hrows). unfold grid_ok.
  rewrite place_size, place_board, length_insert.
  split; [done|]. split; [done|].
  destruct (board g !! Z.to_nat row) as [r|] eqn:Hlk; simpl.
  - apply Forall_insert; [done|]. rewrite length_insert.
    by eapply (Forall_lookup_1 _ _ _ _ Hrows).
  - apply lookup_ge_None in Hlk. by rewrite list_insert_ge.
Qed.

Lemma place_cell_at (g : GameBoard) (row col : Z) (p : Player.t) (value : Z)
    (r c : Z) :
  grid_ok g -> in_bounds g row col -> in_bounds g r c ->
  cell_at (place g row col p value) r c =
  if decide ((r, c) = (row, col)) then Some (p, value) else cell_at g r c.
Proof.
  intros Hg [Hr Hc] [Hr' Hc'].
  destruct (grid_row g row Hg Hr) as (rw & Hlk & Hlen).
  unfold cell_at. rewrite place_board, Hlk. simpl.
  destruct (decide (r = row)) as [->|Hne].
  - rewrite list_lookup_insert_eq by (apply lookup_lt_Some in Hlk; lia).
    rewrite Hlk. destruct (decide (c = col)) as [->|Hnc].
    + rewrite list_lookup_insert_eq by lia. by rewrite decide_True.
    + rewrite list_lookup_insert_ne by lia. rewrite decide_False; [done|congruence].
  - rewrite list_lookup_insert_ne by lia. rewrite decide_False; [done|congruence].
Qed.

Lemma place_board_ok (g : GameBoard) (row col : Z) (p : Player.t) (value : Z) :
  board_ok g -> in_bounds g row col -> cell_at g row col = None ->
  board_ok (place g row col p value).
Proof.
  intros Hok Hb Hnone. pose proof Hok as [Hg _].
  split; [by apply place_grid_ok|].
  intros q r c. rewrite place_positions. split.
  - intros Hin.
    assert (((r, c) = (row, col) /\ q = p) \/ (r, c) ∈ player_positions g q) as [[Heq ->]|Hold].
    { destruct (decide (q = p)); [|by right].
      apply elem_of_union in Hin as [Hin|Hin]; [|by right].
      apply elem_of_singleton in Hin. by left. }
    + inversion Heq; subst. exists value.
      apply get_cell_Some; [by apply place_grid_ok|].
      split; [by apply place_in_bounds|].
      rewrite place_cell_at by done. by rewrite decide_True.
    + apply (board_ok_positions g q r c Hok) in Hold as [Hb' [w Hw]].
      exists w. apply get_cell_Some; [by apply place_grid_ok|].
      split; [by apply place_in_bounds|].
      rewrite place_cell_at by done.
      destruct (decide ((r, c) = (row, col))) as [Heq|]; [|done].
      inversion Heq; subst. congruence.
  - intros [w Hw]. apply get_cell_Some in Hw as [Hb' Hw]; [|by apply place_grid_ok].
    apply (proj1 (place_in_bounds g row col p value r c)) in Hb'.
    rewrite place_cell_at in Hw by done.
    destruct (decide ((r, c) = (row, col))) as [Heq|Hne].
    + inversion Hw; subst. rewrite decide_True by done.
      apply elem_of_union. left. by apply elem_of_singleton.
    + assert ((r, c) ∈ player_positions g q) as Hold.
      { apply (board_ok_positions g q r c Hok). eauto. }
      destruct (decide (q = p)); [|done]. apply elem_of_union. by right.
Qed.

(** ** make_move inside the grid *)

Lemma legal_move_target (g : GameBoard) (p : Player.t) (row col value : Z) :
  grid_ok g -> legal_move g p (row, col, value) ->
  in_bounds g row col /\ cell_at g row col = None.
Proof.
  intros Hg (Hb & Hnone & _). split; [done|].
  rewrite get_cell_in in Hnone by done. congruence.
Qed.

Lemma make_move_legal (g : GameBoard) (row col : Z) (p : Player.t) (value : Z) :
  board_ok g -> legal_move g p (row, col, value) ->
  make_move g row col p value = Ok (true, place g row col p value).
Proof.
  intros Hok Hlegal. pose proof Hok as [Hg _].
  destruct (legal_move_target g p row col value Hg Hlegal) as [Hb Hnone].
  unfold make_move. rewrite board_get_in by done. simpl.
  rewrite Hnone. rewrite bool_decide_eq_false_2 by (intros H; by apply H).
  rewrite get_valid_moves_ok by done. simpl.
  rewrite bool_decide_eq_false_2.
  - by rewrite set_cell_in.
  - intros Hnot. apply Hnot. by apply elem_of_valid_moves.
Qed.

Lemma make_move_illegal (g : GameBoard) (row col : Z) (p : Player.t) (value : Z) :
  board_ok g -> in_bounds g row col -> ~ legal_move g p (row, col, value) ->
  make_move g row col p value = Ok (false, g).
Proof.
  intros Hok Hb Hnot. pose proof Hok as [Hg _].
  unfold make_move. rewrite board_get_in by done. simpl.
  case_bool_decide as Hc; [done|].
  rewrite get_valid_moves_ok by done. simpl.
  rewrite bool_decide_eq_true_2; [done|].
  intros Hin. apply Hnot. by apply elem_of_valid_moves.
Qed.

(** A move that the generator lists is accepted by [make_move]. *)
Lemma make_move_generated (g : GameBoard) (p : Player.t) (ms : list move)
    (row col value : Z) :
  board_ok g -> get_valid_moves g p = Ok ms -> (row, col, value) ∈ ms ->
  make_move g row col p value = Ok (true, place g row col p value) /\
  board_ok (place g row col p value).
Proof.
  intros Hok Hms Hin. pose proof Hok as [Hg _].
  rewrite get_valid_moves_ok in Hms by done. inversion Hms; subst.
  apply elem_of_valid_moves in Hin; [|done].
  destruct (legal_move_target g p row col value Hg Hin) as [Hb Hnone].
  split; [by apply make_move_legal | by apply place_board_ok].
Qed.

(** ** Construction *)

(** The grid and the sets before the two corners are written. *)
Definition blank (sz : Z) : GameBoard :=
  mkBoard sz (replicate (Z.to_nat sz) (replicate (Z.to_nat sz) None)) ∅ ∅.

Lemma GameBoard_init_set_cell (sz : Z) :
  GameBoard_init sz =
  set_cell (blank sz) 0 0 Player.A 1 ≫=
    (fun g => set_cell g (sz - 1) (sz - 1) Player.B 1).
Proof.
  unfold GameBoard_init, set_cell. fold (blank sz).
  by destruct (board_set (blank sz) 0 0 (Some (Player.A, 1))).
Qed.

Lemma blank_cell_at (sz row col : Z) : cell_at (blank sz) row col = None.
Proof.
  unfold cell_at, blank. simpl.
  destruct (replicate _ _ !! Z.to_nat row) as [r|] eqn:Hr; [|done].
  apply lookup_replicate in Hr as [-> _].
  destruct (replicate _ _ !! Z.to_nat col) as [x|] eqn:Hc; [|done].
  by apply lookup_replicate in Hc as [-> _].
Qed.

Lemma blank_grid_ok (sz : Z) : 0 < sz -> grid_ok (blank sz).
Proof.
  intros Hs. unfold grid_ok, blank. simpl. split; [done|].
  rewrite length_replicate. split; [done|].
  apply Forall_replicate. by rewrite length_replicate.
Qed.

Lemma blank_board_ok (sz : Z) : 0 < sz -> board_ok (blank sz).
Proof.
  intros Hs. split; [by apply blank_grid_ok|].
  intros p row col. split.
  - destruct p; simpl; intros H; by apply elem_of_empty in H.
  - intros [v Hv]. apply get_cell_Some in Hv as [_ Hv]; [|by apply blank_grid_ok].
    by rewrite blank_cell_at in Hv.
Qed.

(** The board that [GameBoard(sz)] builds. *)
Definition initial (sz : Z) : GameBoard :=
  place (place (blank sz) 0 0 Player.A 1) (sz - 1) (sz - 1) Player.B 1.

Lemma GameBoard_init_ok (sz : Z) :
  2 <= sz -> GameBoard_init sz = Ok (initial sz) /\ board_ok (initial sz).
Proof.
  intros Hs.
  assert (Hg0 : board_ok (blank sz)) by (apply blank_board_ok; lia).
  assert (Hb0 : in_bounds (blank sz) 0 0) by (unfold in_bounds; simpl; lia).
  assert (Hg1 : board_ok (place (blank sz) 0 0 Player.A 1)).
  { apply place_board_ok; [done | done | apply blank_cell_at]. }
  assert (Hb1 : in_bounds (place (blank sz) 0 0 Player.A 1) (sz - 1) (sz - 1)).
  { apply place_in_bounds. unfold in_bounds; simpl; lia. }
  split.
  - rewrite GameBoard_init_set_cell.
    rewrite set_cell_in by (done || apply Hg0). simpl.
    by rewrite set_cell_in by (done || apply Hg1).
  - apply place_board_ok; [done | done |].
    rewrite place_cell_at;
      [| apply Hg0 | done | apply (proj1 (place_in_bounds _ _ _ _ _ _ _) Hb1)].
    rewrite decide_False; [apply blank_cell_at|].
    intros [= ? ?]. lia.
Qed.

Lemma GameBoard_init_nonpositive (sz : Z) :
  sz <= 0 -> GameBoard_init sz = Raise IndexError.
Proof.
  intros Hs. unfold GameBoard_init.
  replace (Z.to_nat sz) with 0%nat by lia. reflexivity.
Qed.

(** ** Boards reached by playing *)

(** The boards that arise from [GameBoard(n)] by calls of [make_move] that
    return [True]. *)
Inductive reachable (n : Z) : GameBoard -> Prop :=
  | reach_init g :
      GameBoard_init n = Ok g -> reachable n g
  | reach_move g g' row col p value :
      reachable n g ->
      make_move g row col p value = Ok (true, g') ->
      reachable n g'.

Lemma make_move_true (g g' : GameBoard) (row col : Z) (p : Player.t) (value : Z) :
  board_ok g -> make_move g row col p value = Ok (true, g') ->
  legal_move g p (row, col, value) /\ g' = place g row col p value.
Proof.
  intros Hok Hmv.
  assert (legal_move g p (row, col, value)) as Hlegal.
  { unfold make_move in Hmv.
    destruct (board_get g row col) as [c|e]; simpl in Hmv; [|discriminate].
    case_bool_decide; [discriminate|].
    rewrite get_valid_moves_ok in Hmv by done. simpl in Hmv.
    case_bool_decide as Hin; [discriminate|].
    by apply elem_of_valid_moves. }
  split; [done|]. rewrite make_move_legal in Hmv by done. congruence.
Qed.

Lemma make_move_board_ok (g g' : GameBoard) (row col : Z) (p : Player.t)
    (value : Z) (b : bool) :
  board_ok g -> make_move g row col p value = Ok (b, g') -> board_ok g'.
Proof.
  intros Hok Hmv. destruct b.
  - destruct (make_move_true g g' row col p value Hok Hmv) as [Hlegal ->].
    destruct (legal_move_target g p row col value (proj1 Hok) Hlegal).
    by apply place_board_ok.
  - unfold make_move in Hmv.
    destruct (board_get g row col) as [c|e]; simpl in Hmv; [|discriminate].
    case_bool_decide; [congruence|].
    destruct (get_valid_moves g p) as [ms|e]; simpl in Hmv; [|discriminate].
    case_bool_decide; [congruence|].
    destruct (set_cell g row col p value); simpl in Hmv; discriminate.
Qed.

Lemma reachable_board_ok (n : Z) (g : GameBoard) :
  2 <= n -> reachable n g -> board_ok g.
Proof.
  intros Hn Hreach. induction Hreach as [g Hinit|g g' row col p value _ IH Hmv].
  - destruct (GameBoard_init_ok n Hn) as [Heq Hok]. congruence.
  - by eapply make_move_board_ok.
Qed.

Lemma board_ok_disjoint (g : GameBoard) :
  board_ok g -> positions_A g ## positions_B g.
Proof.
  intros [Hg Hpos]. apply elem_of_disjoint. intros [r c] Ha Hb.
  apply (Hpos Player.A) in Ha as [va Ha]. apply (Hpos Player.B) in Hb as [vb Hb].
  congruence.
Qed.

(** C7. From [GameBoard(n)] with [n >= 2], after any sequence of
    [make_move] calls that returned [True]: every coordinate in a player's
    occupancy set holds a cell of that player, every non-empty cell is in
    the occupancy set of its owner, and the two sets are disjoint. *)
Theorem occupancy_invariant (n : Z) (g : GameBoard) :
  2 <= n -> reachable n g ->
  (forall p row col, (row, col) ∈ player_positions g p ->
                     exists v, get_cell g row col = Ok (Some (p, v))) /\
  (forall p row col v, get_cell g row col = Ok (Some (p, v)) ->
                       (row, col) ∈ player_positions g p) /\
  positions_A g ## positions_B g.
Proof.
  intros Hn Hreach. pose proof (reachable_board_ok n g Hn Hreach) as Hok.
  split; [|split].
  - intros p row col Hin. by apply (proj2 Hok).
  - intros p row col v Hc. apply (proj2 Hok). eauto.
  - by apply board_ok_disjoint.
Qed.

Lemma occupancy_invariant_witness :
  exists g, reachable 2 g /\
    (forall p row col, (row, col) ∈ player_positions g p ->
                       exists v, get_cell g row col = Ok (Some (p, v))) /\
    (forall p row col v, get_cell g row col = Ok (Some (p, v)) ->
                         (row, col) ∈ player_positions g p) /\
    positions_A g ## positions_B g.
Proof.
  assert (Hr : reachable 2 (place (initial 2) 0 1 Player.A 2)).
  { apply (reach_move 2 (initial 2) _ 0 1 Player.A 2).
    - apply reach_init. reflexivity.
    - vm_compute. reflexivity. }
  exists (place (initial 2) 0 1 Player.A 2). split; [exact Hr|].
  apply (occupancy_invariant 2); [lia | exact Hr].
Defined.

(** C8, as the code has it. [GameBoard(sz)] raises [IndexError] for every
    [sz <= 0] (the write to cell (0, 0) of the empty grid), and for every
    [sz >= 2] it returns a board of that size on which the occupancy
    invariant holds. *)
Theorem GameBoard_init_sizes (sz : Z) :
  (sz <= 0 -> GameBoard_init sz = Raise IndexError) /\
  (2 <= sz -> exists g, GameBoard_init sz = Ok g /\ size g = sz /\ board_ok g).
Proof.
  split; [apply GameBoard_init_nonpositive|].
  intros Hs. destruct (GameBoard_init_ok sz Hs) as [Heq Hok].
  exists (initial sz). split; [done|]. split; [|done].
  unfold initial. by rewrite !place_size.
Qed.

Lemma GameBoard_init_sizes_witness :
  GameBoard_init (-3) = Raise IndexError /\
  exists g, GameBoard_init 4 = Ok g /\ size g = 4 /\ board_ok g.
Proof.
  split.
  - apply (proj1 (GameBoard_init_sizes (-3))). lia.
  - apply (proj2 (GameBoard_init_sizes 4)). lia.
Defined.

(** The failure of [GameBoard(0)] is not the [InvalidConfiguration] that
    the interface description names. *)
Lemma GameBoard_init_zero_not_InvalidConfiguration :
  ~ (forall sz, sz <= 0 ->
       GameBoard_init sz = Raise (PyExc "InvalidConfiguration")).
Proof.
  intros H. specialize (H 0 ltac:(lia)).
  rewrite GameBoard_init_nonpositive in H by lia. discriminate.
Qed.

(** [GameBoard(1)] is built without complaint; the second corner overwrites
    the first and both occupancy sets claim the one cell. *)
Lemma GameBoard_init_one :
  exists g, GameBoard_init 1 = Ok g /\
            get_cell g 0 0 = Ok (Some (Player.B, 1)) /\
            (0, 0) ∈ player_positions g Player.A /\ ~ board_ok g.
Proof.
  eexists. split; [reflexivity|]. split; [reflexivity|].
  assert (Hin : (0, 0) ∈ ({[(0, 0)]} ∪ ∅ : gset (Z * Z))).
  { apply elem_of_union. left. by apply elem_of_singleton. }
  split; [exact Hin|].
  intros [_ Hpos]. apply (Hpos Player.A 0 0) in Hin as [v Hv].
  vm_compute in Hv. discriminate.
Qed.

(** ** make_move outside the grid *)

Lemma make_move_row_high (g : GameBoard) (row col : Z) (p : Player.t) (value : Z) :
  Z.of_nat (length (board g)) <= row ->
  make_move g row col p value = Raise IndexError.
Proof.
  intros H. unfold make_move, board_get. by rewrite py_index_high.
Qed.

(** C4, at the input where the code departs from it: on the initial 6 by 6
    board, [make_move(6, 0, Player.A, 2)] does not return a boolean; the
    unguarded [self.board[row][col]] raises [IndexError]. *)
Theorem make_move_out_of_range_raises :
  GameBoard_init 6 = Ok (initial 6) /\
  make_move (initial 6) 6 0 Player.A 2 = Raise IndexError.
Proof.
  split; [apply GameBoard_init_ok; lia|].
  apply make_move_row_high. vm_compute. discriminate.
Qed.

(** ** The evaluator *)

Lemma for_each_pure {T S : Type} (f : S -> T -> result S) (h : S -> T -> S)
    (l : list T) (s : S) :
  (forall a x, x ∈ l -> f a x = Ok (h a x)) ->
  for_each f l s = Ok (foldl h s l).
Proof.
  revert s. induction l as [|x l IH]; intros s Hf; simpl; [done|].
  rewrite Hf by left. simpl. apply IH. intros a y Hy. apply Hf. by right.
Qed.

(** The value written at a coordinate (0 where the cell is empty). *)
Definition value_at (g : GameBoard) (pos : Z * Z) : Z :=
  match cell_at g pos.1 pos.2 with
  | Some (_, v) => v
  | None => 0
  end.

Definition max_over (g : GameBoard) (l : list (Z * Z)) : Z :=
  foldl (fun m pos => Z.max m (value_at g pos)) 0 l.

Lemma get_max_value_ok (g : GameBoard) (p : Player.t) :
  board_ok g ->
  get_max_value g p = Ok (max_over g (elements (player_positions g p))).
Proof.
  intros Hok. unfold get_max_value, max_over.
  apply for_each_pure. intros a [r c] Hin. apply elem_of_elements in Hin.
  apply (board_ok_positions g p r c Hok) in Hin as [Hb [v Hv]].
  rewrite board_get_in by (done || apply Hok).
  unfold value_at. simpl. by rewrite Hv.
Qed.

Lemma foldl_max_spec (g : GameBoard) (l : list (Z * Z)) (m0 : Z) :
  let m := foldl (fun m pos => Z.max m (value_at g pos)) m0 l in
  m0 <= m /\ (forall pos, pos ∈ l -> value_at g pos <= m) /\
  (m = m0 \/ exists pos, pos ∈ l /\ value_at g pos = m).
Proof.
  revert m0. induction l as [|x l IH]; intros m0; simpl.
  - split; [lia|]. split; [|by left]. intros pos H. by apply elem_of_nil in H.
  - destruct (IH (Z.max m0 (value_at g x))) as (Hle & Hub & Hatt).
    split; [lia|]. split.
    + intros pos Hin. apply elem_of_cons in Hin as [->|Hin]; [lia | by apply Hub].
    + destruct Hatt as [Heq|(pos & Hin & Hv)].
      * destruct (Z.max_spec m0 (value_at g x)) as [[_ Hm]|[_ Hm]].
        -- right. exists x. split; [by left | congruence].
        -- left. congruence.
      * right. exists pos. split; [by right | done].
Qed.

(** [m] is the largest value among the cells of [p], and 0 when [p] has
    none. *)
Definition is_max_value (g : GameBoard) (p : Player.t) (m : Z) : Prop :=
  0 <= m /\
  (forall row col v, get_cell g row col = Ok (Some (p, v)) -> v <= m) /\
  (m = 0 \/ exists row col, get_cell g row col = Ok (Some (p, m))).

Lemma max_over_is_max_value (g : GameBoard) (p : Player.t) :
  board_ok g ->
  is_max_value g p (max_over g (elements (player_positions g p))).
Proof.
  intros Hok. pose proof Hok as [Hg Hpos].
  destruct (foldl_max_spec g (elements (player_positions g p)) 0) as (H0 & Hub & Hatt).
  fold (max_over g (elements (player_positions g p))) in H0, Hub, Hatt.
  split; [done|]. split.
  - intros row col v Hc.
    assert ((row, col) ∈ elements (player_positions g p)) as Hin.
    { apply elem_of_elements. apply Hpos. eauto. }
    apply Hub in Hin. apply get_cell_Some in Hc as [_ Hc]; [|done].
    unfold value_at in Hin. simpl in Hin. by rewrite Hc in Hin.
  - destruct Hatt as [Heq|([r c] & Hin & Hv)]; [by left|]. right.
    apply elem_of_elements in Hin.
    apply (board_ok_positions g p r c Hok) in Hin as [Hb [v Hc]].
    exists r, c. apply get_cell_Some; [done|]. split; [done|].
    unfold value_at in Hv. simpl in Hv. rewrite Hc in Hv. by rewrite Hc, Hv.
Qed.

(** All coordinates of the grid, row by row. *)
Definition coords (g : GameBoard) : list (Z * Z) :=
  r ← py_range (size g); c ← py_range (size g); [(r, c)].

(** Whether the cell at a coordinate belongs to [p]. *)
Definition owned_by (g : GameBoard) (p : Player.t) (pos : Z * Z) : Prop :=
  exists v, cell_at g pos.1 pos.2 = Some (p, v).

#[global] Instance owned_by_dec g p pos : Decision (owned_by g p pos).
Proof.
  unfold owned_by. destruct (cell_at g pos.1 pos.2) as [[q v]|].
  - destruct (decide (q = p)) as [->|Hne].
    + left. by exists v.
    + right. intros [w Hw]. congruence.
  - right. intros [w Hw]. discriminate.
Defined.

(** The number of grid cells that belong to [p]. *)
Definition cells_owned (g : GameBoard) (p : Player.t) : nat :=
  length (filter (owned_by g p) (coords g)).

(** Whether [p] may play at a coordinate: the cell is empty and one of its
    neighbours belongs to [p]. *)
Definition playable (g : GameBoard) (p : Player.t) (pos : Z * Z) : Prop :=
  cell_at g pos.1 pos.2 = None /\
  Exists (owned_by g p) (get_neighbors g pos.1 pos.2).

#[global] Instance playable_dec g p pos : Decision (playable g p pos).
Proof. unfold playable. apply _. Defined.

(** The number of coordinates at which [p] has a legal move. *)
Definition mobility (g : GameBoard) (p : Player.t) : nat :=
  length (filter (playable g p) (coords g)).

Lemma elem_of_py_range (n k : Z) : k ∈ py_range n <-> 0 <= k < n.
Proof. unfold py_range. rewrite elem_of_seqZ. lia. Qed.

Lemma elem_of_coords (g : GameBoard) (row col : Z) :
  (row, col) ∈ coords g <-> in_bounds g row col.
Proof.
  unfold coords, in_bounds. rewrite list_elem_of_bind. split.
  - intros (r & Hin & Hr). apply list_elem_of_bind in Hin as (c & Hin & Hc).
    apply list_elem_of_singleton in Hin. inversion Hin; subst.
    by rewrite <- !elem_of_py_range.
  - intros [Hr Hc]. exists row. split; [|by apply elem_of_py_range].
    apply list_elem_of_bind. exists col. split; [|by apply elem_of_py_range].
    by apply list_elem_of_singleton.
Qed.

Lemma NoDup_coords (g : GameBoard) : NoDup (coords g).
Proof.
  unfold coords, py_range. apply NoDup_bind; [| |apply NoDup_seqZ].
  - intros r1 r2 [r c] _ _ H1 H2.
    apply list_elem_of_bind in H1 as (c1 & H1 & _).
    apply list_elem_of_bind in H2 as (c2 & H2 & _).
    apply list_elem_of_singleton in H1, H2. congruence.
  - intros r _. apply NoDup_bind; [| |apply NoDup_seqZ].
    + intros c1 c2 y _ _ H1 H2. apply list_elem_of_singleton in H1, H2. congruence.
    + intros c _. apply NoDup_singleton.
Qed.

Lemma set_len_cells_owned (g : GameBoard) (p : Player.t) :
  board_ok g -> set_len (player_positions g p) = cells_owned g p.
Proof.
  intros Hok. unfold set_len, cells_owned, base.size, set_size. simpl.
  apply Permutation_length. apply NoDup_Permutation.
  - apply NoDup_elements.
  - apply NoDup_filter, NoDup_coords.
  - intros [r c]. rewrite elem_of_elements, list_elem_of_filter, elem_of_coords.
    rewrite (board_ok_positions g p r c Hok). unfold owned_by. simpl. tauto.
Qed.

Lemma playable_legal (g : GameBoard) (p : Player.t) (row col : Z) :
  board_ok g -> in_bounds g row col ->
  playable g p (row, col) <-> exists v, legal_move g p (row, col, v).
Proof.
  intros Hok Hb. pose proof Hok as [Hg _]. unfold playable. simpl. split.
  - intros [Hnone Hex].
    assert (exists v, (row, col, v) ∈ raw_moves g p) as [v0 Hraw].
    { apply Exists_exists in Hex as ([r c] & Hin & [v Hv]). simpl in Hv.
      apply elem_of_get_neighbors in Hin as [Hrb Hadj].
      exists (v + 1). apply elem_of_raw_moves; [done|].
      split; [done|]. split; [done|]. exists r, c.
      split; [done|]. split; [by apply adjacent_sym|].
      by replace (v + 1 - 1) with v by lia. }
    destruct (dedup_best (raw_moves g p)) as [Hnd Hbest].
    specialize (Hbest (row, col)).
    destruct (dict_get _ (row, col)) as [v|] eqn:Hget.
    + exists v. apply (elem_of_valid_moves g p (row, col, v) Hok).
      by apply dict_get_Some.
    + by apply Hbest in Hraw.
  - intros (v & _ & Hnone & (r & c & Hadj & Hc) & _).
    rewrite get_cell_in in Hnone by done. split; [congruence|].
    apply get_cell_Some in Hc as [Hrb Hc]; [|done].
    apply Exists_exists. exists (r, c). split.
    + by apply elem_of_get_neighbors.
    + by exists (v - 1).
Qed.

Lemma length_valid_moves (g : GameBoard) (p : Player.t) :
  board_ok g ->
  length (foldl dedup_step [] (raw_moves g p)) = mobility g p.
Proof.
  intros Hok. pose proof Hok as [Hg _]. unfold mobility.
  destruct (dedup_best (raw_moves g p)) as [Hnd _].
  rewrite <- (length_fmap fst).
  apply Permutation_length. apply NoDup_Permutation.
  - done.
  - apply NoDup_filter, NoDup_coords.
  - intros [r c]. rewrite list_elem_of_filter, elem_of_coords. split.
    + intros Hin. apply list_elem_of_fmap in Hin as ([[r' c'] v] & Heq & Hin).
      simpl in Heq. inversion Heq; subst.
      apply (elem_of_valid_moves g p (r', c', v) Hok) in Hin.
      pose proof (legal_move_target g p r' c' v Hg Hin) as [Hb _].
      split; [|done]. apply playable_legal; eauto.
    + intros [Hplay Hb]. apply playable_legal in Hplay as [v Hv]; [|done|done].
      apply list_elem_of_fmap. exists (r, c, v). split; [done|].
      by apply (elem_of_valid_moves g p (r, c, v) Hok).
Qed.

Lemma evaluate_position_ok (g : GameBoard) (p : Player.t) :
  board_ok g ->
  evaluate_position g p =
  Ok ((max_over g (elements (player_positions g p))
       - max_over g (elements (player_positions g (Player.other p)))) * 100
      + (Z.of_nat (cells_owned g p)
         - Z.of_nat (cells_owned g (Player.other p))) * 10
      + (Z.of_nat (mobility g p) - Z.of_nat (mobility g (Player.other p)))).
Proof.
  intros Hok. unfold evaluate_position.
  rewrite !get_max_value_ok by done. simpl.
  rewrite !get_valid_moves_ok by done. simpl.
  by rewrite !set_len_cells_owned, !length_valid_moves by done.
Qed.

(** C6. On a board that satisfies the occupancy invariant, the evaluator
    returns 100 times the difference of the players' largest values, plus
    10 times the difference of the numbers of cells they own, plus the
    difference of the numbers of coordinates at which they have a legal
    move, each difference taken as perspective minus opponent. *)
Theorem evaluate_position_formula (g : GameBoard) (p : Player.t) :
  board_ok g ->
  exists mp mo,
    is_max_value g p mp /\ is_max_value g (Player.other p) mo /\
    evaluate_position g p =
    Ok (100 * (mp - mo)
        + 10 * (Z.of_nat (cells_owned g p)
                - Z.of_nat (cells_owned g (Player.other p)))
        + 1 * (Z.of_nat (mobility g p)
               - Z.of_nat (mobility g (Player.other p)))).
Proof.
  intros Hok.
  exists (max_over g (elements (player_positions g p))),
         (max_over g (elements (player_positions g (Player.other p)))).
  split; [by apply max_over_is_max_value|].
  split; [by apply max_over_is_max_value|].
  rewrite evaluate_position_ok by done. f_equal. lia.
Qed.

Lemma evaluate_position_formula_witness :
  exists mp mo,
    is_max_value (initial 3) Player.A mp /\
    is_max_value (initial 3) Player.B mo /\
    evaluate_position (initial 3) Player.A =
    Ok (100 * (mp - mo)
        + 10 * (Z.of_nat (cells_owned (initial 3) Player.A)
                - Z.of_nat (cells_owned (initial 3) Player.B))
        + 1 * (Z.of_nat (mobility (initial 3) Player.A)
               - Z.of_nat (mobility (initial 3) Player.B))).
Proof.
  apply (evaluate_position_formula (initial 3) Player.A).
  apply GameBoard_init_ok. lia.
Defined.

(** C9. On a board that satisfies the occupancy invariant, both
    evaluations are defined and the evaluation for B is the negation of
    the evaluation for A. *)
Theorem evaluate_position_antisymmetric (g : GameBoard) :
  board_ok g ->
  exists s, evaluate_position g Player.A = Ok s /\
            evaluate_position g Player.B = Ok (- s).
Proof.
  intros Hok. eexists. split; [by apply evaluate_position_ok|].
  rewrite evaluate_position_ok by done. simpl. f_equal. lia.
Qed.

Lemma evaluate_position_antisymmetric_witness :
  exists s, evaluate_position (initial 3) Player.A = Ok s /\
            evaluate_position (initial 3) Player.B = Ok (- s).
Proof.
  apply (evaluate_position_antisymmetric (initial 3)).
  apply GameBoard_init_ok. lia.
Defined.

Lemma get_valid_moves_legal_witness :
  exists ms, get_valid_moves (initial 3) Player.A = Ok ms /\
             NoDup ms.*1 /\
             forall m, m ∈ ms <-> legal_move (initial 3) Player.A m.
Proof.
  apply (get_valid_moves_legal (initial 3) Player.A).
  apply GameBoard_init_ok. lia.
Defined.

(** ** The search on boards that satisfy the invariant *)

(** What [get_valid_moves], [is_game_over] and [evaluate_position] return
    on such a board. *)
Definition legal_moves (g : GameBoard) (p : Player.t) : list move :=
  foldl dedup_step [] (raw_moves g p).

Definition over (g : GameBoard) : bool :=
  bool_decide (legal_moves g Player.A = [])
  && bool_decide (legal_moves g Player.B = []).

Definition eval (g : GameBoard) (p : Player.t) : Z :=
  (max_over g (elements (player_positions g p))
   - max_over g (elements (player_positions g (Player.other p)))) * 100
  + (Z.of_nat (cells_owned g p)
     - Z.of_nat (cells_owned g (Player.other p))) * 10
  + (Z.of_nat (mobility g p) - Z.of_nat (mobility g (Player.other p))).

Lemma length_zero_nil {T : Type} (l : list T) :
  bool_decide (length l = 0%nat) = bool_decide (l = []).
Proof. destruct l; reflexivity. Qed.

Lemma is_game_over_ok (g : GameBoard) :
  board_ok g -> is_game_over g = Ok (over g).
Proof.
  intros Hok. unfold is_game_over, over.
  rewrite !get_valid_moves_ok by done. simpl. fold (legal_moves g Player.A).
  rewrite length_zero_nil. destruct (bool_decide (legal_moves g Player.A = [])); [|done].
  simpl. fold (legal_moves g Player.B). by rewrite length_zero_nil.
Qed.

Lemma GameBoard_init_pos (sz : Z) :
  0 < sz -> exists g, GameBoard_init sz = Ok g.
Proof.
  intros Hs. rewrite GameBoard_init_set_cell.
  rewrite set_cell_in; [|by apply blank_grid_ok|unfold in_bounds; simpl; lia].
  rewrite result_bind_Ok. rewrite set_cell_in; [by eexists| |].
  - apply place_grid_ok. by apply blank_grid_ok.
  - apply place_in_bounds. unfold in_bounds. simpl. lia.
Qed.

Lemma copy_ok (g : GameBoard) : board_ok g -> copy g = Ok g.
Proof.
  intros [(Hs & _) _]. unfold copy.
  destruct (GameBoard_init_pos (size g) Hs) as [g' ->]. simpl. by destruct g.
Qed.

Lemma legal_moves_place (g : GameBoard) (p : Player.t) (row col value : Z) :
  board_ok g -> (row, col, value) ∈ legal_moves g p ->
  in_bounds g row col /\ cell_at g row col = None /\
  board_ok (place g row col p value) /\
  make_move g row col p value = Ok (true, place g row col p value).
Proof.
  intros Hok Hin. apply (elem_of_valid_moves g p (row, col, value) Hok) in Hin.
  destruct (legal_move_target g p row col value (proj1 Hok) Hin) as [Hb Hnone].
  split; [done|]. split; [done|].
  split; [by apply place_board_ok | by apply make_move_legal].
Qed.

Lemma max_loop_cons (rec : GameBoard -> score -> score -> Z -> outcome answer)
    (g : GameBoard) (cur : Player.t) (beta : score) (row col value : Z)
    (rest : list move) (alpha max_eval : score) (best : option move) (n : Z) :
  board_ok g -> (row, col, value) ∈ legal_moves g cur ->
  max_loop rec g cur beta ((row, col, value) :: rest) alpha max_eval best n =
  match rec (place g row col cur value) alpha beta n with
  | Done (eval_score, _, n') =>
      let better := score_ltb max_eval eval_score in
      let max_eval' := if better then eval_score else max_eval in
      let best' := if better then Some (row, col, value) else best in
      if score_leb beta (score_max alpha eval_score)
      then Done (max_eval', best', n')
      else max_loop rec g cur beta rest (score_max alpha eval_score)
                    max_eval' best' n'
  | Failed e => Failed e
  | OutOfFuel => OutOfFuel
  end.
Proof.
  intros Hok Hin.
  destruct (legal_moves_place g cur row col value Hok Hin) as (_ & _ & _ & Hmv).
  simpl. rewrite copy_ok by done. simpl. rewrite Hmv. simpl.
  destruct (rec _ alpha beta n) as [[[e m] n']| |]; simpl; [|done|done].
  by destruct (score_ltb max_eval e).
Qed.

Lemma min_loop_cons (rec : GameBoard -> score -> score -> Z -> outcome answer)
    (g : GameBoard) (cur : Player.t) (alpha : score) (row col value : Z)
    (rest : list move) (beta min_eval : score) (best : option move) (n : Z) :
  board_ok g -> (row, col, value) ∈ legal_moves g cur ->
  min_loop rec g cur alpha ((row, col, value) :: rest) beta min_eval best n =
  match rec (place g row col cur value) alpha beta n with
  | Done (eval_score, _, n') =>
      let better := score_ltb eval_score min_eval in
      let min_eval' := if better then eval_score else min_eval in
      let best' := if better then Some (row, col, value) else best in
      if score_leb (score_min beta eval_score) alpha
      then Done (min_eval', best', n')
      else min_loop rec g cur alpha rest (score_min beta eval_score)
                    min_eval' best' n'
  | Failed e => Failed e
  | OutOfFuel => OutOfFuel
  end.
Proof.
  intros Hok Hin.
  destruct (legal_moves_place g cur row col value Hok Hin) as (_ & _ & _ & Hmv).
  simpl. rewrite copy_ok by done. simpl. rewrite Hmv. simpl.
  destruct (rec _ alpha beta n) as [[[e m] n']| |]; simpl; [|done|done].
  by destruct (score_ltb e min_eval).
Qed.

Lemma child_values_cons (rec : GameBoard -> outcome Z) (g : GameBoard)
    (cur : Player.t) (row col value : Z) (rest : list move) :
  board_ok g -> (row, col, value) ∈ legal_moves g cur ->
  child_values rec g cur ((row, col, value) :: rest) =
  s ← rec (place g row col cur value);
  scored ← child_values rec g cur rest;
  Done ((row, col, value, s) :: scored).
Proof.
  intros Hok Hin.
  destruct (legal_moves_place g cur row col value Hok Hin) as (_ & _ & _ & Hmv).
  simpl. rewrite copy_ok by done. simpl. by rewrite Hmv.
Qed.

(** One call of [minimax] on such a board. *)
Lemma minimax_step (fuel : nat) (g : GameBoard) (depth : Z) (alpha beta : score)
    (mx : bool) (p : Player.t) (n : Z) :
  board_ok g ->
  minimax (S fuel) g depth alpha beta mx p n =
  let cur := if mx then p else Player.other p in
  if bool_decide (depth = 0) || over g then Done (Fin (eval g p), None, n + 1)
  else if bool_decide (legal_moves g cur = []) then
    minimax fuel g (depth - 1) alpha beta (negb mx) p (n + 1)
  else if mx then
    max_loop (fun nb a b k => minimax fuel nb (depth - 1) a b false p k)
             g cur beta (legal_moves g cur) alpha NegInf None (n + 1)
  else
    min_loop (fun nb a b k => minimax fuel nb (depth - 1) a b true p k)
             g cur alpha (legal_moves g cur) beta PosInf None (n + 1).
Proof.
  intros Hok. cbn [minimax].
  rewrite is_game_over_ok, evaluate_position_ok, get_valid_moves_ok by done.
  fold (eval g p). fold (legal_moves g (if mx then p else Player.other p)).
  destruct (bool_decide (depth = 0)); simpl; [done|].
  destruct (over g); simpl; [done|].
  destruct (bool_decide (legal_moves g (if mx then p else Player.other p) = []));
    [done|]. by destruct mx.
Qed.

Lemma exhaustive_step (fuel : nat) (g : GameBoard) (depth : Z) (mx : bool)
    (p : Player.t) :
  board_ok g ->
  exhaustive (S fuel) g depth mx p =
  let cur := if mx then p else Player.other p in
  if bool_decide (depth = 0) || over g then Done (eval g p, None)
  else if bool_decide (legal_moves g cur = []) then
    exhaustive fuel g (depth - 1) (negb mx) p
  else
    scored ← child_values
               (fun nb => r ← exhaustive fuel nb (depth - 1) (negb mx) p; Done r.1)
               g cur (legal_moves g cur);
    Done (best_value mx scored.*2, first_with (best_value mx scored.*2) scored).
Proof.
  intros Hok. cbn [exhaustive].
  rewrite is_game_over_ok, evaluate_position_ok, get_valid_moves_ok by done.
  fold (eval g p). fold (legal_moves g (if mx then p else Player.other p)).
  destruct (bool_decide (depth = 0)); simpl; [done|].
  destruct (over g); simpl; [done|].
  by destruct (bool_decide (legal_moves g (if mx then p else Player.other p) = [])).
Qed.

(** ** Termination *)

(** The number of empty cells of the grid. *)
Definition empty_count (g : GameBoard) : nat :=
  length (filter (fun pos => cell_at g pos.1 pos.2 = None) (coords g)).

Lemma coords_place (g : GameBoard) (row col : Z) (p : Player.t) (value : Z) :
  coords (place g row col p value) = coords g.
Proof. unfold coords. by rewrite place_size. Qed.

Lemma place_empty_count (g : GameBoard) (row col : Z) (p : Player.t) (value : Z) :
  grid_ok g -> in_bounds g row col -> cell_at g row col = None ->
  empty_count g = S (empty_count (place g row col p value)).
Proof.
  intros Hg Hb Hnone. unfold empty_count. rewrite coords_place.
  set (l' := filter _ (coords g)) at 2.
  change (S (length l')) with (length ((row, col) :: l')).
  apply Permutation_length, NoDup_Permutation.
  - apply NoDup_filter, NoDup_coords.
  - apply NoDup_cons. split; [|apply NoDup_filter, NoDup_coords].
    unfold l'. intros Hin. apply list_elem_of_filter in Hin as [Hc _].
    simpl in Hc. rewrite place_cell_at in Hc by done.
    rewrite decide_True in Hc by done. discriminate.
  - intros [r c]. unfold l'.
    rewrite elem_of_cons, !list_elem_of_filter, elem_of_coords. simpl. split.
    + intros [Hc Hrb]. destruct (decide ((r, c) = (row, col))) as [Heq|Hne]; [by left|].
      right. split; [|done]. rewrite place_cell_at by done.
      by rewrite decide_False.
    + intros [Heq|[Hc Hrb]].
      * inversion Heq; subst. done.
      * split; [|done]. rewrite place_cell_at in Hc by done.
        destruct (decide ((r, c) = (row, col))); [discriminate | done].
Qed.

(** The player to move at a node of the search. *)
Definition mover (mx : bool) (p : Player.t) : Player.t :=
  if mx then p else Player.other p.

Lemma mover_negb (mx : bool) (p : Player.t) :
  mover (negb mx) p = Player.other (mover mx p).
Proof. by destruct mx, p. Qed.

(** The quantity that decreases along every recursive call that is not
    stopped by the depth: twice the number of empty cells, plus one when
    the player to move has to pass. *)
Definition measure (g : GameBoard) (cur : Player.t) : nat :=
  (2 * empty_count g + (if bool_decide (legal_moves g cur = []) then 1 else 0))%nat.

Lemma measure_pass (g : GameBoard) (cur : Player.t) :
  over g = false -> legal_moves g cur = [] ->
  (measure g (Player.other cur) < measure g cur)%nat.
Proof.
  intros Hover Hnil. unfold measure. rewrite (bool_decide_eq_true_2 _ Hnil).
  rewrite bool_decide_eq_false_2; [lia|].
  intros Hnil'. unfold over in Hover.
  destruct cur; simpl in Hnil';
    rewrite (bool_decide_eq_true_2 _ Hnil), (bool_decide_eq_true_2 _ Hnil') in Hover;
    discriminate.
Qed.

Lemma measure_move (g : GameBoard) (cur cur' : Player.t) (row col value : Z) :
  board_ok g -> (row, col, value) ∈ legal_moves g cur ->
  (measure (place g row col cur value) cur' < measure g cur)%nat.
Proof.
  intros Hok Hin.
  destruct (legal_moves_place g cur row col value Hok Hin) as (Hb & Hnone & _ & _).
  unfold measure.
  rewrite (place_empty_count g row col cur value (proj1 Hok) Hb Hnone).
  repeat case_bool_decide; lia.
Qed.

Lemma max_loop_total (rec : GameBoard -> score -> score -> Z -> outcome answer)
    (g : GameBoard) (cur : Player.t) (beta : score) (ms : list move) :
  board_ok g ->
  (forall mv, mv ∈ ms -> mv ∈ legal_moves g cur) ->
  (forall row col value, (row, col, value) ∈ ms -> forall a b k,
     exists s m k', rec (place g row col cur value) a b k = Done (Fin s, m, k')
                    /\ k < k') ->
  forall alpha max_eval best n,
    (ms <> [] /\ max_eval = NegInf) \/ (exists s, max_eval = Fin s /\ is_Some best) ->
    exists s b n',
      max_loop rec g cur beta ms alpha max_eval best n = Done (Fin s, Some b, n')
      /\ n <= n' /\ (ms <> [] -> n < n').
Proof.
  intros Hok. induction ms as [|[[row col] value] ms IH]; intros Hlegal Hrec
    alpha max_eval best n Hstate.
  - destruct Hstate as [[Hne _]|(s & -> & [b ->])]; [done|].
    exists s, b, n. simpl. split; [done|]. split; [lia|done].
  - rewrite max_loop_cons by (done || apply Hlegal; by left).
    destruct (Hrec row col value ltac:(by left) alpha beta n) as (s1 & m1 & n1 & -> & Hn1).
    cbv zeta.
    assert (exists s b,
      (if score_ltb max_eval (Fin s1) then Fin s1 else max_eval) = Fin s /\
      (if score_ltb max_eval (Fin s1) then Some (row, col, value) else best) = Some b)
      as (s & b & -> & ->).
    { destruct Hstate as [[_ ->]|(s0 & -> & [b0 ->])]; simpl; [by eauto|].
      case_bool_decide; eauto. }
    destruct (score_leb beta (score_max alpha (Fin s1))).
    + exists s, b, n1. split; [done|]. split; [lia|]. intros _. lia.
    + destruct (IH (fun mv H => Hlegal mv (list_elem_of_further _ _ _ H))
                   (fun r c v H => Hrec r c v (list_elem_of_further _ _ _ H))
                   (score_max alpha (Fin s1)) (Fin s) (Some b) n1)
        as (s' & b' & n' & Heq & Hle & _).
      { right. eauto. }
      exists s', b', n'. split; [done|]. split; [lia|]. intros _. lia.
Qed.

Lemma min_loop_total (rec : GameBoard -> score -> score -> Z -> outcome answer)
    (g : GameBoard) (cur : Player.t) (alpha : score) (ms : list move) :
  board_ok g ->
  (forall mv, mv ∈ ms -> mv ∈ legal_moves g cur) ->
  (forall row col value, (row, col, value) ∈ ms -> forall a b k,
     exists s m k', rec (place g row col cur value) a b k = Done (Fin s, m, k')
                    /\ k < k') ->
  forall beta min_eval best n,
    (ms <> [] /\ min_eval = PosInf) \/ (exists s, min_eval = Fin s /\ is_Some best) ->
    exists s b n',
      min_loop rec g cur alpha ms beta min_eval best n = Done (Fin s, Some b, n')
      /\ n <= n' /\ (ms <> [] -> n < n').
Proof.
  intros Hok. induction ms as [|[[row col] value] ms IH]; intros Hlegal Hrec
    beta min_eval best n Hstate.
  - destruct Hstate as [[Hne _]|(s & -> & [b ->])]; [done|].
    exists s, b, n. simpl. split; [done|]. split; [lia|done].
  - rewrite min_loop_cons by (done || apply Hlegal; by left).
    destruct (Hrec row col value ltac:(by left) alpha beta n) as (s1 & m1 & n1 & -> & Hn1).
    cbv zeta.
    assert (exists s b,
      (if score_ltb (Fin s1) min_eval then Fin s1 else min_eval) = Fin s /\
      (if score_ltb (Fin s1) min_eval then Some (row, col, value) else best) = Some b)
      as (s & b & -> & ->).
    { destruct Hstate as [[_ ->]|(s0 & -> & [b0 ->])]; simpl; [by eauto|].
      case_bool_decide; eauto. }
    destruct (score_leb (score_min beta (Fin s1)) alpha).
    + exists s, b, n1. split; [done|]. split; [lia|]. intros _. lia.
    + destruct (IH (fun mv H => Hlegal mv (list_elem_of_further _ _ _ H))
                   (fun r c v H => Hrec r c v (list_elem_of_further _ _ _ H))
                   (score_min beta (Fin s1)) (Fin s) (Some b) n1)
        as (s' & b' & n' & Heq & Hle & _).
      { right. eauto. }
      exists s', b', n'. split; [done|]. split; [lia|]. intros _. lia.
Qed.

(** With more fuel than the measure, [minimax] returns: a finite score, a
    move whenever the node has one to choose, and a larger counter. *)
Lemma minimax_total (fuel : nat) :
  forall g depth alpha beta mx p n,
    board_ok g -> (measure g (mover mx p) < fuel)%nat ->
    exists s mv n',
      minimax fuel g depth alpha beta mx p n = Done (Fin s, mv, n') /\
      n < n' /\
      (depth <> 0 -> over g = false -> legal_moves g (mover mx p) <> [] ->
       is_Some mv).
Proof.
  induction fuel as [|fuel IH]; intros g depth alpha beta mx p n Hok Hfuel; [lia|].
  rewrite minimax_step by done. cbv zeta. fold (mover mx p).
  destruct (decide (depth = 0)) as [Hd|Hd].
  { rewrite (bool_decide_eq_true_2 _ Hd). simpl.
    exists (eval g p), None, (n + 1). split; [done|]. split; [lia|done]. }
  rewrite (bool_decide_eq_false_2 _ Hd). simpl.
  destruct (over g) eqn:Hover; simpl.
  { exists (eval g p), None, (n + 1). split; [done|]. split; [lia|done]. }
  destruct (decide (legal_moves g (mover mx p) = [])) as [Hnil|Hnil].
  - rewrite (bool_decide_eq_true_2 _ Hnil).
    destruct (IH g (depth - 1) alpha beta (negb mx) p (n + 1) Hok)
      as (s & mv & n' & Heq & Hn & _).
    { rewrite mover_negb. pose proof (measure_pass g (mover mx p) Hover Hnil). lia. }
    exists s, mv, n'. split; [done|]. split; [lia|done].
  - rewrite (bool_decide_eq_false_2 _ Hnil).
    assert (Hrec : forall flag row col value,
              (row, col, value) ∈ legal_moves g (mover mx p) -> forall a b k,
              exists s m k',
                minimax fuel (place g row col (mover mx p) value) (depth - 1)
                        a b flag p k = Done (Fin s, m, k') /\ k < k').
    { intros flag row col value Hin a b k.
      destruct (legal_moves_place g _ row col value Hok Hin) as (_ & _ & Hok' & _).
      destruct (IH (place g row col (mover mx p) value) (depth - 1) a b flag p k Hok')
        as (s & m & k' & Heq & Hk & _).
      { pose proof (measure_move g (mover mx p) (mover flag p) row col value Hok Hin).
        lia. }
      eauto. }
    destruct mx.
    + destruct (max_loop_total
                  (fun nb a b k => minimax fuel nb (depth - 1) a b false p k)
                  g (mover true p) beta (legal_moves g (mover true p)) Hok
                  (fun mv H => H) (Hrec false) alpha NegInf None (n + 1))
        as (s & b & n' & Heq & _ & Hn); [by left|].
      exists s, (Some b), n'. split; [done|]. split; [|by eauto].
      specialize (Hn Hnil). lia.
    + destruct (min_loop_total
                  (fun nb a b k => minimax fuel nb (depth - 1) a b true p k)
                  g (mover false p) alpha (legal_moves g (mover false p)) Hok
                  (fun mv H => H) (Hrec true) beta PosInf None (n + 1))
        as (s & b & n' & Heq & _ & Hn); [by left|].
      exists s, (Some b), n'. split; [done|]. split; [|by eauto].
      specialize (Hn Hnil). lia.
Qed.

(** ** More fuel does not change a result *)

Lemma max_loop_mono (rec1 rec2 : GameBoard -> score -> score -> Z -> outcome answer)
    (g : GameBoard) (cur : Player.t) (beta : score) (ms : list move) :
  (forall nb a b k x, rec1 nb a b k = Done x -> rec2 nb a b k = Done x) ->
  forall alpha max_eval best n x,
    max_loop rec1 g cur beta ms alpha max_eval best n = Done x ->
    max_loop rec2 g cur beta ms alpha max_eval best n = Done x.
Proof.
  intros Hrec. induction ms as [|[[row col] value] ms IH];
    intros alpha max_eval best n x; simpl; [done|].
  destruct (copy g) as [nb|e]; simpl; [|done].
  destruct (make_move nb row col cur value) as [[flag nb']|e]; simpl; [|done].
  destruct (rec1 nb' alpha beta n) as [[[e m] n']| |] eqn:H1; simpl; [|done|done].
  rewrite (Hrec _ _ _ _ _ H1). simpl.
  destruct (score_ltb max_eval e); destruct (score_leb beta _); try done; apply IH.
Qed.

Lemma min_loop_mono (rec1 rec2 : GameBoard -> score -> score -> Z -> outcome answer)
    (g : GameBoard) (cur : Player.t) (alpha : score) (ms : list move) :
  (forall nb a b k x, rec1 nb a b k = Done x -> rec2 nb a b k = Done x) ->
  forall beta min_eval best n x,
    min_loop rec1 g cur alpha ms beta min_eval best n = Done x ->
    min_loop rec2 g cur alpha ms beta min_eval best n = Done x.
Proof.
  intros Hrec. induction ms as [|[[row col] value] ms IH];
    intros beta min_eval best n x; simpl; [done|].
  destruct (copy g) as [nb|e]; simpl; [|done].
  destruct (make_move nb row col cur value) as [[flag nb']|e]; simpl; [|done].
  destruct (rec1 nb' alpha beta n) as [[[e m] n']| |] eqn:H1; simpl; [|done|done].
  rewrite (Hrec _ _ _ _ _ H1). simpl.
  destruct (score_ltb e min_eval); destruct (score_leb _ alpha); try done; apply IH.
Qed.

Lemma minimax_fuel_S (fuel : nat) :
  forall g depth alpha beta mx p n x,
    minimax fuel g depth alpha beta mx p n = Done x ->
    minimax (S fuel) g depth alpha beta mx p n = Done x.
Proof.
  induction fuel as [|fuel IH]; intros g depth alpha beta mx p n x; [done|].
  intros H. cbn [minimax] in H. cbn [minimax].
  destruct (if bool_decide (depth = 0) then Done true else lift (is_game_over g))
    as [[|]| |]; simpl in *; [done| |done|done].
  destruct (lift (get_valid_moves g _)) as [ms| |]; simpl in *; [|done|done].
  destruct (bool_decide (ms = [])); [by apply IH|].
  destruct mx.
  - revert H. apply max_loop_mono. intros nb a b k y. apply IH.
  - revert H. apply min_loop_mono. intros nb a b k y. apply IH.
Qed.

Lemma minimax_fuel_le (fuel fuel' : nat) g depth alpha beta mx p n x :
  (fuel <= fuel')%nat ->
  minimax fuel g depth alpha beta mx p n = Done x ->
  minimax fuel' g depth alpha beta mx p n = Done x.
Proof.
  intros Hle H. induction Hle as [|fuel' _ IH]; [done|].
  by apply minimax_fuel_S.
Qed.

Lemma measure_bound (g : GameBoard) (cur : Player.t) :
  (measure g cur < 2 * empty_count g + 2)%nat.
Proof. unfold measure. case_bool_decide; lia. Qed.

(** C10. On a board that satisfies the occupancy invariant, and so on
    every board reached by playing, [minimax] returns for every depth,
    window, side and counter: once the recursion is allowed twice the
    number of empty cells plus two nested calls it yields a result, and
    allowing more does not change it. *)
Theorem minimax_terminates (g : GameBoard) (depth : Z) (alpha beta : score)
    (mx : bool) (p : Player.t) (n : Z) :
  board_ok g ->
  exists s mv n',
    forall fuel, (2 * empty_count g + 2 <= fuel)%nat ->
      minimax fuel g depth alpha beta mx p n = Done (Fin s, mv, n').
Proof.
  intros Hok.
  destruct (minimax_total (2 * empty_count g + 2) g depth alpha beta mx p n Hok
              (measure_bound g (mover mx p))) as (s & mv & n' & Heq & _).
  exists s, mv, n'. intros fuel Hle. by eapply minimax_fuel_le.
Qed.

Lemma minimax_terminates_witness :
  exists s mv n',
    forall fuel, (2 * empty_count (initial 3) + 2 <= fuel)%nat ->
      minimax fuel (initial 3) (-1) NegInf PosInf true Player.A 0
      = Done (Fin s, mv, n').
Proof.
  apply (minimax_terminates (initial 3) (-1) NegInf PosInf true Player.A 0).
  apply GameBoard_init_ok. lia.
Defined.

(** ** get_best_move *)

Lemma get_best_move_ok (fuel : nat) (max_depth : Z) (g : GameBoard) (p : Player.t) :
  board_ok g ->
  get_best_move fuel max_depth g p =
  if bool_decide (legal_moves g p = []) then Done (None, 0)
  else '(_, best_move, n) ← minimax fuel g max_depth NegInf PosInf true p 0;
       Done (best_move, n).
Proof.
  intros Hok. unfold get_best_move. by rewrite get_valid_moves_ok.
Qed.

Lemma not_over_of_moves (g : GameBoard) (p : Player.t) :
  legal_moves g p <> [] -> over g = false.
Proof.
  intros Hne. unfold over.
  destruct p; rewrite (bool_decide_eq_false_2 _ Hne); [done|].
  by rewrite andb_false_r.
Qed.

(** * Further properties of the board *)

(** ** Reading and writing cells *)

Lemma py_slot_negative {T : Type} (l : list T) (i : Z) :
  - Z.of_nat (length l) <= i < 0 ->
  py_slot l i = Ok (Z.to_nat (i + Z.of_nat (length l))).
Proof.
  intros H. unfold py_slot. repeat case_bool_decide; (done || lia).
Qed.

Lemma py_slot_low {T : Type} (l : list T) (i : Z) :
  i < - Z.of_nat (length l) -> py_slot l i = Raise IndexError.
Proof.
  intros H. unfold py_slot. repeat case_bool_decide; (done || lia).
Qed.

(** The index that Python reads for [i] in a list of length [n]. *)
Definition wrap (n i : Z) : Z := if bool_decide (i < 0) then i + n else i.

Lemma py_slot_wrap {T : Type} (l : list T) (i : Z) :
  - Z.of_nat (length l) <= i < Z.of_nat (length l) ->
  py_slot l i = Ok (Z.to_nat (wrap (Z.of_nat (length l)) i)).
Proof.
  intros H. unfold py_slot, wrap. repeat case_bool_decide; (done || lia).
Qed.

Lemma wrap_range (n i : Z) : - n <= i < n -> 0 <= wrap n i < n.
Proof. unfold wrap. case_bool_decide; lia. Qed.

Lemma py_index_wrap {T : Type} (l : list T) (i : Z) :
  - Z.of_nat (length l) <= i < Z.of_nat (length l) ->
  py_index l i = py_index l (wrap (Z.of_nat (length l)) i).
Proof.
  intros H. unfold py_index. rewrite py_slot_wrap by done.
  by rewrite py_slot_nonneg by (by apply wrap_range).
Qed.

Lemma board_get_wrap (g : GameBoard) (row col : Z) :
  grid_ok g ->
  - size g <= row < size g -> - size g <= col < size g ->
  board_get g row col = Ok (cell_at g (wrap (size g) row) (wrap (size g) col)).
Proof.
  intros Hg Hr Hc. pose proof Hg as (Hs & Hl & Hrows).
  assert (Hlen : Z.of_nat (length (board g)) = size g) by lia.
  pose proof (wrap_range (size g) row Hr) as Hwr.
  pose proof (wrap_range (size g) col Hc) as Hwc.
  rewrite <- (board_get_in g _ _ Hg (conj Hwr Hwc)).
  unfold board_get. rewrite py_index_wrap by lia. rewrite Hlen.
  destruct (grid_row g _ Hg Hwr) as (r & Hlk & Hrl).
  rewrite (py_index_nonneg _ _ r) by (done || lia). simpl.
  rewrite py_index_wrap by lia. f_equal. f_equal. lia.
Qed.

(** X1. On a square grid [get_cell] never raises: inside the grid it
    returns what [self.board[row][col]] holds, and for every other pair of
    integers, negative ones included, it returns [None]. *)
Theorem get_cell_never_raises (g : GameBoard) (row col : Z) :
  grid_ok g ->
  (exists c, get_cell g row col = Ok c) /\
  (in_bounds g row col -> get_cell g row col = board_get g row col) /\
  (~ in_bounds g row col -> get_cell g row col = Ok None).
Proof.
  intros Hg. split; [|split].
  - destruct (decide (0 <= row < size g /\ 0 <= col < size g)) as [Hb|Hb].
    + rewrite get_cell_in by done. eauto.
    + rewrite get_cell_out by done. eauto.
  - intros Hb. by rewrite get_cell_in, board_get_in.
  - apply get_cell_out.
Qed.

Lemma get_cell_never_raises_witness :
  (exists c, get_cell (initial 3) (-1) 5 = Ok c) /\
  (in_bounds (initial 3) (-1) 5 ->
   get_cell (initial 3) (-1) 5 = board_get (initial 3) (-1) 5) /\
  (~ in_bounds (initial 3) (-1) 5 -> get_cell (initial 3) (-1) 5 = Ok None).
Proof.
  apply (get_cell_never_raises (initial 3) (-1) 5).
  apply GameBoard_init_ok. lia.
Defined.

Lemma get_cell_place (g : GameBoard) (row col : Z) (p : Player.t) (value : Z)
    (r c : Z) :
  grid_ok g -> in_bounds g row col ->
  get_cell (place g row col p value) r c =
  if decide ((r, c) = (row, col)) then Ok (Some (p, value)) else get_cell g r c.
Proof.
  intros Hg Hb.
  destruct (decide (0 <= r < size g /\ 0 <= c < size g)) as [Hrb|Hrb].
  - rewrite get_cell_in; [|by apply place_grid_ok|by apply place_in_bounds].
    rewrite place_cell_at by done. rewrite (get_cell_in g r c) by done.
    by destruct (decide ((r, c) = (row, col))).
  - rewrite get_cell_out; [|by rewrite place_in_bounds].
    rewrite (get_cell_out g r c) by done.
    rewrite decide_False; [done|]. intros [= -> ->]. done.
Qed.

(** X2. Writing then reading. On a square grid, [set_cell] at a coordinate
    inside the grid succeeds; [get_cell] then returns the written pair
    there and what it returned before everywhere else; the coordinate has
    joined the writer's occupancy set and the other player's set is
    untouched (also when the cell was the other player's). *)
Theorem set_cell_get_cell (g : GameBoard) (row col : Z) (p : Player.t) (value : Z) :
  grid_ok g -> in_bounds g row col ->
  exists g', set_cell g row col p value = Ok g' /\
    size g' = size g /\
    get_cell g' row col = Ok (Some (p, value)) /\
    (forall r c, (r, c) <> (row, col) -> get_cell g' r c = get_cell g r c) /\
    player_positions g' p = {[(row, col)]} ∪ player_positions g p /\
    player_positions g' (Player.other p) = player_positions g (Player.other p).
Proof.
  intros Hg Hb. exists (place g row col p value).
  split; [by apply set_cell_in|]. split; [apply place_size|].
  split; [by rewrite get_cell_place, decide_True|].
  split; [intros r c Hne; by rewrite get_cell_place, decide_False|].
  rewrite !place_positions. rewrite decide_True by done.
  rewrite decide_False; [done|]. by destruct p.
Qed.

Lemma set_cell_get_cell_witness :
  exists g', set_cell (initial 3) 1 1 Player.B 7 = Ok g' /\
    size g' = size (initial 3) /\
    get_cell g' 1 1 = Ok (Some (Player.B, 7)) /\
    (forall r c, (r, c) <> (1, 1) -> get_cell g' r c = get_cell (initial 3) r c) /\
    player_positions g' Player.B = {[(1, 1)]} ∪ player_positions (initial 3) Player.B /\
    player_positions g' (Player.other Player.B)
    = player_positions (initial 3) (Player.other Player.B).
Proof.
  apply (set_cell_get_cell (initial 3) 1 1 Player.B 7).
  - apply GameBoard_init_ok. lia.
  - unfold in_bounds, initial. rewrite !place_size. simpl. lia.
Defined.

Lemma initial_size (n : Z) : size (initial n) = n.
Proof. unfold initial. by rewrite !place_size. Qed.

Lemma initial_board_ok (n : Z) : 2 <= n -> board_ok (initial n).
Proof. intros Hn. by apply GameBoard_init_ok. Qed.

Lemma get_cell_ext (g g' : GameBoard) (row col : Z) :
  size g' = size g -> board g' = board g ->
  get_cell g' row col = get_cell g row col.
Proof. intros Hs Hb. unfold get_cell, board_get. by rewrite Hs, Hb. Qed.

Lemma set_cell_wrap (g : GameBoard) (row col : Z) (p : Player.t) (value : Z) :
  grid_ok g -> - size g <= row < size g -> - size g <= col < size g ->
  exists g', set_cell g row col p value = Ok g' /\
    size g' = size g /\
    board g' = board (place g (wrap (size g) row) (wrap (size g) col) p value) /\
    (row, col) ∈ player_positions g' p.
Proof.
  intros Hg Hr Hc. pose proof Hg as (Hs & Hl & Hrows).
  assert (Hlen : Z.of_nat (length (board g)) = size g) by lia.
  pose proof (wrap_range (size g) row Hr) as Hwr.
  pose proof (wrap_range (size g) col Hc) as Hwc.
  destruct (grid_row g _ Hg Hwr) as (r & Hlk & Hrl).
  unfold set_cell, board_set, py_setitem.
  rewrite py_slot_wrap by lia. rewrite result_bind_Ok.
  rewrite py_index_wrap by lia. rewrite Hlen.
  rewrite (py_index_nonneg _ _ r) by (done || lia). rewrite result_bind_Ok.
  rewrite py_slot_wrap by lia. rewrite !result_bind_Ok.
  replace (Z.of_nat (length r)) with (size g) by lia.
  eexists. split; [reflexivity|].
  split; [by destruct p|]. split.
  - rewrite place_board, Hlk. by destruct p.
  - destruct p; simpl; apply elem_of_union; left; by apply elem_of_singleton.
Qed.

(** X3. [set_cell] does no bounds check of its own. For coordinates in
    [-size, size) it succeeds: a negative index is read from the end of the
    list, so the pair lands in the wrapped cell while the occupancy set
    records the coordinate as given. When a coordinate was negative the
    occupancy invariant is lost. *)
Theorem set_cell_negative_index (g : GameBoard) (row col : Z) (p : Player.t)
    (value : Z) :
  grid_ok g -> - size g <= row < size g -> - size g <= col < size g ->
  exists g', set_cell g row col p value = Ok g' /\
    get_cell g' (wrap (size g) row) (wrap (size g) col) = Ok (Some (p, value)) /\
    (row, col) ∈ player_positions g' p /\
    (row < 0 \/ col < 0 -> get_cell g' row col = Ok None /\ ~ board_ok g').
Proof.
  intros Hg Hr Hc.
  destruct (set_cell_wrap g row col p value Hg Hr Hc) as (g' & Hset & Hs & Hb & Hin).
  pose proof (wrap_range (size g) row Hr) as Hwr.
  pose proof (wrap_range (size g) col Hc) as Hwc.
  exists g'. split; [done|]. split; [|split; [done|]].
  - rewrite (get_cell_ext (place g (wrap (size g) row) (wrap (size g) col) p value))
      by (by rewrite ?place_size).
    by rewrite get_cell_place, decide_True.
  - intros Hneg.
    assert (get_cell g' row col = Ok None) as Hnone.
    { apply get_cell_out. unfold in_bounds. rewrite Hs. lia. }
    split; [done|]. intros [_ Hpos].
    apply (Hpos p row col) in Hin as [v Hv]. congruence.
Qed.

Lemma set_cell_negative_index_witness :
  exists g', set_cell (initial 3) (-1) 0 Player.A 5 = Ok g' /\
    get_cell g' (wrap (size (initial 3)) (-1)) (wrap (size (initial 3)) 0)
    = Ok (Some (Player.A, 5)) /\
    (-1, 0) ∈ player_positions g' Player.A /\
    (-1 < 0 \/ 0 < 0 -> get_cell g' (-1) 0 = Ok None /\ ~ board_ok g').
Proof.
  apply (set_cell_negative_index (initial 3) (-1) 0 Player.A 5).
  - apply initial_board_ok. lia.
  - rewrite initial_size. lia.
  - rewrite initial_size. lia.
Defined.

(** ** make_move over all integers *)

Lemma legal_move_dec (g : GameBoard) (p : Player.t) (m : move) :
  board_ok g -> legal_move g p m \/ ~ legal_move g p m.
Proof.
  intros Hok. destruct (decide (m ∈ legal_moves g p)) as [Hin|Hnin].
  - left. by apply (elem_of_valid_moves g p m Hok).
  - right. intros H. apply Hnin. by apply (elem_of_valid_moves g p m Hok).
Qed.

Lemma make_move_negative (g : GameBoard) (row col : Z) (p : Player.t) (value : Z) :
  board_ok g -> - size g <= row < size g -> - size g <= col < size g ->
  row < 0 \/ col < 0 ->
  make_move g row col p value = Ok (false, g).
Proof.
  intros Hok Hr Hc Hneg. pose proof Hok as [Hg _]. unfold make_move.
  rewrite board_get_wrap by done. rewrite result_bind_Ok.
  case_bool_decide; [done|].
  rewrite get_valid_moves_ok by done. rewrite result_bind_Ok.
  rewrite bool_decide_eq_true_2; [done|].
  intros Hin. apply (elem_of_valid_moves g p _ Hok) in Hin.
  destruct Hin as [[? ?] _]. lia.
Qed.

Lemma make_move_col_out (g : GameBoard) (row col : Z) (p : Player.t) (value : Z) :
  grid_ok g -> - size g <= row < size g -> ~ (- size g <= col < size g) ->
  make_move g row col p value = Raise IndexError.
Proof.
  intros Hg Hr Hc. pose proof Hg as (Hs & Hl & Hrows).
  pose proof (wrap_range (size g) row Hr) as Hwr.
  destruct (grid_row g _ Hg Hwr) as (r & Hlk & Hrl).
  unfold make_move, board_get. rewrite py_index_wrap by lia.
  replace (Z.of_nat (length (board g))) with (size g) by lia.
  rewrite (py_index_nonneg _ _ r) by (done || lia). rewrite result_bind_Ok.
  unfold py_index.
  destruct (decide (col < 0)).
  - by rewrite py_slot_low by lia.
  - by rewrite py_slot_high by lia.
Qed.

Lemma make_move_row_out (g : GameBoard) (row col : Z) (p : Player.t) (value : Z) :
  grid_ok g -> ~ (- size g <= row < size g) ->
  make_move g row col p value = Raise IndexError.
Proof.
  intros (Hs & Hl & _) Hr. unfold make_move, board_get, py_index.
  destruct (decide (row < 0)).
  - by rewrite py_slot_low by lia.
  - by rewrite py_slot_high by lia.
Qed.

(** X4. What [make_move] does for every pair of integer coordinates, on a
    board that satisfies the occupancy invariant. With both coordinates in
    [-size, size) it returns a boolean: [True] exactly for a legal move, the
    board then being the one [set_cell] produces and again satisfying the
    invariant; [False] otherwise (occupied target, wrong value, no owned
    neighbour, or a negative coordinate), the board unchanged. With a
    coordinate outside [-size, size) it raises [IndexError]. *)
Theorem make_move_cases (g : GameBoard) (row col : Z) (p : Player.t) (value : Z) :
  board_ok g ->
  (- size g <= row < size g /\ - size g <= col < size g ->
     (legal_move g p (row, col, value) ->
        exists g', set_cell g row col p value = Ok g' /\
                   make_move g row col p value = Ok (true, g') /\
                   board_ok g') /\
     (~ legal_move g p (row, col, value) ->
        make_move g row col p value = Ok (false, g))) /\
  (~ (- size g <= row < size g /\ - size g <= col < size g) ->
     make_move g row col p value = Raise IndexError).
Proof.
  intros Hok. pose proof Hok as [Hg _]. split.
  - intros [Hr Hc]. split.
    + intros Hlegal.
      destruct (legal_move_target g p row col value Hg Hlegal) as [Hb Hnone].
      exists (place g row col p value).
      split; [by apply set_cell_in|].
      split; [by apply make_move_legal | by apply place_board_ok].
    + intros Hnot. destruct (decide (row < 0 \/ col < 0)) as [Hneg|Hpos].
      * by apply make_move_negative.
      * apply make_move_illegal; [done | unfold in_bounds; lia | done].
  - intros Hout. destruct (decide (- size g <= row < size g)) as [Hr|Hr].
    + apply make_move_col_out; [done | done | tauto].
    + by apply make_move_row_out.
Qed.

Lemma make_move_cases_witness :
  (- size (initial 3) <= -1 < size (initial 3)
   /\ - size (initial 3) <= 1 < size (initial 3) ->
     (legal_move (initial 3) Player.A (-1, 1, 2) ->
        exists g', set_cell (initial 3) (-1) 1 Player.A 2 = Ok g' /\
                   make_move (initial 3) (-1) 1 Player.A 2 = Ok (true, g') /\
                   board_ok g') /\
     (~ legal_move (initial 3) Player.A (-1, 1, 2) ->
        make_move (initial 3) (-1) 1 Player.A 2 = Ok (false, initial 3))) /\
  (~ (- size (initial 3) <= -1 < size (initial 3)
      /\ - size (initial 3) <= 1 < size (initial 3)) ->
     make_move (initial 3) (-1) 1 Player.A 2 = Raise IndexError).
Proof.
  apply (make_move_cases (initial 3) (-1) 1 Player.A 2).
  apply initial_board_ok. lia.
Defined.

(** ** The neighbours of a cell *)

#[global] Instance in_bounds_dec g row col : Decision (in_bounds g row col).
Proof. unfold in_bounds. apply _. Defined.

(** The eight steps of [get_neighbors], in the order of its two loops. *)
Definition offsets8 : list (Z * Z) :=
  [(-1, -1); (-1, 0); (-1, 1); (0, -1); (0, 1); (1, -1); (1, 0); (1, 1)].

Lemma neighbor_cell_filter (g : GameBoard) (r c : Z) :
  (if bool_decide (0 <= r < size g) && bool_decide (0 <= c < size g)
   then [(r, c)] else []) =
  filter (fun nb => in_bounds g nb.1 nb.2) [(r, c)].
Proof.
  rewrite filter_cons, filter_nil.
  destruct (decide (in_bounds g (r, c).1 (r, c).2)) as [Hb|Hb];
    unfold in_bounds in Hb; simpl in Hb.
  - by rewrite !bool_decide_eq_true_2 by tauto.
  - repeat case_bool_decide; simpl; (done || tauto).
Qed.

Lemma get_neighbors_filter (g : GameBoard) (row col : Z) :
  get_neighbors g row col =
  filter (fun nb => in_bounds g nb.1 nb.2)
         ((fun d => (row + d.1, col + d.2)) <$> offsets8).
Proof.
  unfold get_neighbors, offsets8.
  cbn [mbind list_bind app fmap list_fmap fst snd bool_decide andb
       decide_rel Z.eq_dec Z.eqb].
  simpl.
  rewrite !neighbor_cell_filter, !app_nil_r, <- !filter_app. reflexivity.
Qed.

(** X5. [get_neighbors] returns, in the order of its two loops, those of
    the eight cells around [(row, col)] that lie inside the grid: no cell
    twice, at most eight of them, never [(row, col)] itself. *)
Theorem get_neighbors_spec (g : GameBoard) (row col : Z) :
  get_neighbors g row col =
    filter (fun nb => in_bounds g nb.1 nb.2)
           ((fun d => (row + d.1, col + d.2)) <$> offsets8) /\
  NoDup (get_neighbors g row col) /\
  (length (get_neighbors g row col) <= 8)%nat /\
  (forall nr nc, (nr, nc) ∈ get_neighbors g row col <->
                 in_bounds g nr nc /\ adjacent row col nr nc) /\
  (row, col) ∉ get_neighbors g row col.
Proof.
  split; [apply get_neighbors_filter|].
  split; [|split; [|split]].
  - rewrite get_neighbors_filter. apply NoDup_filter.
    apply NoDup_fmap_2_strong.
    + intros [a b] [c d] _ _ Heq. simpl in Heq. inversion Heq. f_equal; lia.
    + apply (bool_decide_unpack _). by vm_compute.
  - rewrite get_neighbors_filter.
    etransitivity; [apply length_filter|]. by rewrite length_fmap.
  - intros nr nc. apply elem_of_get_neighbors.
  - intros Hin. apply elem_of_get_neighbors in Hin as [_ (_ & _ & Hne)]. lia.
Qed.

(** ** What a call of make_move keeps *)

Lemma make_move_result (g g' : GameBoard) (row col : Z) (p : Player.t)
    (value : Z) (b : bool) :
  board_ok g -> make_move g row col p value = Ok (b, g') ->
  (b = true /\ legal_move g p (row, col, value) /\ g' = place g row col p value)
  \/ (b = false /\ g' = g).
Proof.
  intros Hok Hmv. destruct b.
  - left. destruct (make_move_true g g' row col p value Hok Hmv). done.
  - right. split; [done|]. unfold make_move in Hmv.
    destruct (board_get g row col) as [c|e]; simpl in Hmv; [|discriminate].
    case_bool_decide; [congruence|].
    destruct (get_valid_moves g p) as [ms|e]; simpl in Hmv; [|discriminate].
    case_bool_decide; [congruence|].
    destruct (set_cell g row col p value); simpl in Hmv; discriminate.
Qed.

Lemma make_move_preserves (g g' : GameBoard) (row col : Z) (p : Player.t)
    (value : Z) (b : bool) :
  board_ok g -> make_move g row col p value = Ok (b, g') ->
  size g' = size g /\
  forall r c x, get_cell g r c = Ok (Some x) -> get_cell g' r c = Ok (Some x).
Proof.
  intros Hok Hmv.
  destruct (make_move_result g g' row col p value b Hok Hmv)
    as [(_ & Hlegal & ->)|(_ & ->)]; [|done].
  destruct (legal_move_target g p row col value (proj1 Hok) Hlegal) as [Hb Hnone].
  split; [apply place_size|]. intros r c x Hx.
  rewrite get_cell_place by (done || apply Hok).
  destruct (decide ((r, c) = (row, col))) as [Heq|]; [|done].
  inversion Heq; subst. rewrite get_cell_in in Hx by (done || apply Hok). congruence.
Qed.

(** X6. [make_move] never overwrites: whatever it returns, a cell that was
    occupied before the call holds the same pair after it, and the size is
    the same. *)
Theorem make_move_keeps_cells (g g' : GameBoard) (row col : Z) (p : Player.t)
    (value : Z) (b : bool) :
  board_ok g -> make_move g row col p value = Ok (b, g') ->
  size g' = size g /\
  forall r c x, get_cell g r c = Ok (Some x) -> get_cell g' r c = Ok (Some x).
Proof.
  intros Hok Hmv.
  destruct (make_move_preserves g g' row col p value b Hok Hmv) as [Hsize Hkeep].
  split; [exact Hsize|]. intros r c x Hx. by apply Hkeep.
Qed.

Lemma make_move_keeps_cells_witness :
  size (place (initial 3) 1 1 Player.A 2) = size (initial 3) /\
  forall r c x, get_cell (initial 3) r c = Ok (Some x) ->
                get_cell (place (initial 3) 1 1 Player.A 2) r c = Ok (Some x).
Proof.
  apply (make_move_keeps_cells (initial 3) _ 1 1 Player.A 2 true).
  - apply initial_board_ok. lia.
  - vm_compute. reflexivity.
Defined.

(** The value rules of the data model: every value is at least 1, and a
    value above 1 sits next to a cell of the same player that holds the
    value before it. *)
Definition chain_ok (g : GameBoard) : Prop :=
  forall p row col v, get_cell g row col = Ok (Some (p, v)) ->
    1 <= v /\
    (v = 1 \/ exists r c, adjacent row col r c /\
                          get_cell g r c = Ok (Some (p, v - 1))).

Lemma initial_cells (n : Z) (p : Player.t) (row col v : Z) :
  2 <= n -> get_cell (initial n) row col = Ok (Some (p, v)) ->
  v = 1 /\ ((p = Player.A /\ row = 0 /\ col = 0)
            \/ (p = Player.B /\ row = n - 1 /\ col = n - 1)).
Proof.
  intros Hn. unfold initial.
  assert (Hg0 : grid_ok (blank n)) by (apply blank_grid_ok; lia).
  assert (Hb0 : in_bounds (blank n) 0 0) by (unfold in_bounds; simpl; lia).
  rewrite get_cell_place;
    [|by apply place_grid_ok|apply place_in_bounds; unfold in_bounds; simpl; lia].
  destruct (decide ((row, col) = (n - 1, n - 1))) as [Heq|Hne].
  - intros [= <- <-]. inversion Heq. split; [done|]. by right.
  - rewrite get_cell_place by done.
    destruct (decide ((row, col) = (0, 0))) as [Heq|Hne0].
    + intros [= <- <-]. inversion Heq. split; [done|]. by left.
    + intros H. apply get_cell_Some in H as [_ H]; [|done].
      by rewrite blank_cell_at in H.
Qed.

Lemma place_chain_ok (g : GameBoard) (row col : Z) (p : Player.t) (value : Z) :
  board_ok g -> chain_ok g -> legal_move g p (row, col, value) ->
  chain_ok (place g row col p value).
Proof.
  intros Hok Hchain Hlegal. pose proof Hok as [Hg _].
  destruct (legal_move_target g p row col value Hg Hlegal) as [Hb Hnone].
  destruct Hlegal as (_ & _ & (r0 & c0 & Hadj0 & Hc0) & _).
  assert (Hkeep : forall r c x, get_cell g r c = Ok (Some x) ->
            get_cell (place g row col p value) r c = Ok (Some x)).
  { intros r c x Hx. rewrite get_cell_place by done.
    destruct (decide ((r, c) = (row, col))) as [Heq|]; [|done].
    inversion Heq; subst. rewrite get_cell_in in Hx by done. congruence. }
  intros q r c v Hv. rewrite get_cell_place in Hv by done.
  destruct (decide ((r, c) = (row, col))) as [Heq|Hne].
  - inversion Heq; subst. inversion Hv; subst.
    destruct (Hchain q r0 c0 (v - 1) Hc0) as [Hpos _].
    split; [lia|]. right. exists r0, c0. split; [done | by apply Hkeep].
  - destruct (Hchain q r c v Hv) as [Hpos Hprev]. split; [done|].
    destruct Hprev as [->|(r' & c' & Hadj & Hc')]; [by left|].
    right. exists r', c'. split; [done | by apply Hkeep].
Qed.

Lemma reachable_chain_ok (n : Z) (g : GameBoard) :
  2 <= n -> reachable n g -> chain_ok g.
Proof.
  intros Hn Hreach. induction Hreach as [g Hinit|g g' row col p value Hreach IH Hmv].
  - destruct (GameBoard_init_ok n Hn) as [Heq _].
    assert (g = initial n) as -> by congruence.
    intros q r c v Hv. destruct (initial_cells n q r c v Hn Hv) as [-> _].
    split; [lia | by left].
  - pose proof (reachable_board_ok n g Hn Hreach) as Hok.
    destruct (make_move_true g g' row col p value Hok Hmv) as [Hlegal ->].
    by apply place_chain_ok.
Qed.

Lemma reachable_size (n : Z) (g : GameBoard) :
  2 <= n -> reachable n g -> size g = n.
Proof.
  intros Hn Hreach. induction Hreach as [g Hinit|g g' row col p value Hreach IH Hmv].
  - destruct (GameBoard_init_ok n Hn) as [Heq _].
    assert (g = initial n) as -> by congruence. apply initial_size.
  - pose proof (reachable_board_ok n g Hn Hreach) as Hok.
    destruct (make_move_preserves g g' row col p value true Hok Hmv) as [-> _].
    done.
Qed.

Lemma reachable_corners (n : Z) (g : GameBoard) :
  2 <= n -> reachable n g ->
  get_cell g 0 0 = Ok (Some (Player.A, 1)) /\
  get_cell g (n - 1) (n - 1) = Ok (Some (Player.B, 1)).
Proof.
  intros Hn Hreach. induction Hreach as [g Hinit|g g' row col p value Hreach IH Hmv].
  - destruct (GameBoard_init_ok n Hn) as [Heq _].
    assert (g = initial n) as -> by congruence. unfold initial.
    assert (Hg0 : grid_ok (blank n)) by (apply blank_grid_ok; lia).
    assert (Hb0 : in_bounds (blank n) 0 0) by (unfold in_bounds; simpl; lia).
    assert (Hb1 : in_bounds (place (blank n) 0 0 Player.A 1) (n - 1) (n - 1)).
    { apply place_in_bounds. unfold in_bounds; simpl; lia. }
    rewrite !get_cell_place by (done || by apply place_grid_ok).
    rewrite (decide_True (P := (n - 1, n - 1) = _)) by done.
    rewrite decide_False by (intros [= ? ?]; lia).
    by rewrite decide_True.
  - pose proof (reachable_board_ok n g Hn Hreach) as Hok.
    destruct (make_move_preserves g g' row col p value true Hok Hmv) as [_ Hkeep].
    destruct IH as [Ha Hb]. split; by apply Hkeep.
Qed.

(** X7. On every board reached by playing from [GameBoard(n)], [n >= 2]:
    the two starting corners still hold (A, 1) and (B, 1); every value on
    the board is at least 1; a cell with a value above 1 has a neighbour
    of the same player with the value one below; and every move that
    [get_valid_moves] offers carries a value of at least 2. *)
Theorem reachable_values (n : Z) (g : GameBoard) :
  2 <= n -> reachable n g ->
  size g = n /\
  get_cell g 0 0 = Ok (Some (Player.A, 1)) /\
  get_cell g (n - 1) (n - 1) = Ok (Some (Player.B, 1)) /\
  (forall p row col v, get_cell g row col = Ok (Some (p, v)) ->
     1 <= v /\
     (v = 1 \/ exists r c, adjacent row col r c /\
                           get_cell g r c = Ok (Some (p, v - 1)))) /\
  (forall p ms row col v, get_valid_moves g p = Ok ms ->
     (row, col, v) ∈ ms -> 2 <= v).
Proof.
  intros Hn Hreach.
  pose proof (reachable_board_ok n g Hn Hreach) as Hok.
  pose proof (reachable_chain_ok n g Hn Hreach) as Hchain.
  destruct (reachable_corners n g Hn Hreach) as [Ha Hb].
  split; [by apply reachable_size|]. split; [done|]. split; [done|].
  split; [exact Hchain|].
  intros p ms row col v Hms Hin. rewrite get_valid_moves_ok in Hms by done.
  inversion Hms; subst. apply (elem_of_valid_moves g p _ Hok) in Hin.
  destruct Hin as (_ & _ & (r & c & _ & Hc) & _).
  destruct (Hchain p r c (v - 1) Hc) as [Hpos _]. lia.
Qed.

Lemma reachable_values_witness :
  exists g, reachable 2 g /\
  size g = 2 /\
  get_cell g 0 0 = Ok (Some (Player.A, 1)) /\
  get_cell g (2 - 1) (2 - 1) = Ok (Some (Player.B, 1)) /\
  (forall p row col v, get_cell g row col = Ok (Some (p, v)) ->
     1 <= v /\
     (v = 1 \/ exists r c, adjacent row col r c /\
                           get_cell g r c = Ok (Some (p, v - 1)))) /\
  (forall p ms row col v, get_valid_moves g p = Ok ms ->
     (row, col, v) ∈ ms -> 2 <= v).
Proof.
  assert (Hr : reachable 2 (place (initial 2) 0 1 Player.A 2)).
  { apply (reach_move 2 (initial 2) _ 0 1 Player.A 2).
    - apply reach_init. reflexivity.
    - vm_compute. reflexivity. }
  exists (place (initial 2) 0 1 Player.A 2). split; [exact Hr|].
  apply (reachable_values 2); [lia | exact Hr].
Defined.

(** ** The end of the game *)

(** One step from [a] towards [b]. *)
Definition toward (a b : Z) : Z :=
  if bool_decide (a < b) then a + 1
  else if bool_decide (b < a) then a - 1 else a.

(** Between an empty cell and an occupied cell of the grid there is an
    empty cell next to an occupied one. *)
Lemma frontier (g : GameBoard) (d : nat) :
  forall er ec or oc,
    in_bounds g er ec -> in_bounds g or oc ->
    cell_at g er ec = None -> cell_at g or oc <> None ->
    Z.max (Z.abs (or - er)) (Z.abs (oc - ec)) <= Z.of_nat d ->
    exists r c r' c',
      in_bounds g r c /\ in_bounds g r' c' /\ adjacent r c r' c' /\
      cell_at g r c = None /\ cell_at g r' c' <> None.
Proof.
  induction d as [|d IH]; intros er ec or oc He Ho Hnone Hocc Hdist.
  - assert (or = er) as -> by lia. assert (oc = ec) as -> by lia. done.
  - set (r2 := toward er or). set (c2 := toward ec oc).
    destruct (decide (or = er /\ oc = ec)) as [[-> ->]|Hne]; [done|].
    assert (Hb2 : in_bounds g r2 c2).
    { unfold in_bounds, r2, c2, toward in *. repeat case_bool_decide; lia. }
    assert (Hadj : adjacent er ec r2 c2).
    { unfold adjacent, r2, c2, toward. repeat case_bool_decide; lia. }
    assert (Hd2 : Z.max (Z.abs (or - r2)) (Z.abs (oc - c2)) <= Z.of_nat d).
    { unfold r2, c2, toward. repeat case_bool_decide; lia. }
    destruct (cell_at g r2 c2) as [x|] eqn:Hc2.
    + exists er, ec, r2, c2. rewrite Hc2. done.
    + by apply (IH r2 c2 or oc).
Qed.

Lemma legal_moves_nonempty (g : GameBoard) (p : Player.t) (row col r c v : Z) :
  board_ok g -> in_bounds g row col -> in_bounds g r c ->
  adjacent row col r c -> cell_at g row col = None ->
  cell_at g r c = Some (p, v) ->
  legal_moves g p <> [].
Proof.
  intros Hok Hb Hrb Hadj Hnone Hc.
  assert (playable g p (row, col)) as Hplay.
  { split; [done|]. apply Exists_exists. exists (r, c). split.
    - by apply elem_of_get_neighbors.
    - by exists v. }
  apply playable_legal in Hplay as [w Hw]; [|done|done].
  apply (elem_of_valid_moves g p _ Hok) in Hw. fold (legal_moves g p) in Hw.
  intros Hnil. rewrite Hnil in Hw. by apply elem_of_nil in Hw.
Qed.

Lemma over_iff_full (g : GameBoard) (or oc : Z) :
  board_ok g -> in_bounds g or oc -> cell_at g or oc <> None ->
  over g = true <->
  forall row col, in_bounds g row col -> cell_at g row col <> None.
Proof.
  intros Hok Ho Hocc. pose proof Hok as [Hg _]. split.
  - intros Hover row col Hb Hnone.
    destruct (frontier g (Z.to_nat (Z.max (Z.abs (or - row)) (Z.abs (oc - col))))
                row col or oc Hb Ho Hnone Hocc ltac:(lia))
      as (r & c & r' & c' & Hrb & Hrb' & Hadj & Hn & Hsome).
    destruct (cell_at g r' c') as [[q v]|] eqn:Hc; [|done].
    pose proof (legal_moves_nonempty g q r c r' c' v Hok Hrb Hrb' Hadj Hn Hc) as Hne.
    unfold over in Hover. apply andb_true_iff in Hover as [HA HB].
    apply bool_decide_eq_true in HA, HB. by destruct q.
  - intros Hfull.
    assert (forall p, legal_moves g p = []) as Hnil.
    { intros p. destruct (legal_moves g p) as [|[[r c] v] ms] eqn:Hms; [done|].
      assert ((r, c, v) ∈ legal_moves g p) as Hin by (rewrite Hms; by left).
      apply (elem_of_valid_moves g p _ Hok) in Hin.
      destruct (legal_move_target g p r c v Hg Hin) as [Hb Hnone].
      by apply Hfull in Hb. }
    unfold over. by rewrite !Hnil.
Qed.

(** X8. The game ends exactly on a full board. On every board reached by
    playing from [GameBoard(n)], [n >= 2], [is_game_over] returns without
    raising, and it returns [True] if and only if no cell of the grid is
    empty: as long as one cell is empty, one of the players has a move. *)
Theorem game_over_iff_full (n : Z) (g : GameBoard) :
  2 <= n -> reachable n g ->
  exists b, is_game_over g = Ok b /\
    (b = true <->
     forall row col, in_bounds g row col ->
       exists pv, get_cell g row col = Ok (Some pv)).
Proof.
  intros Hn Hreach.
  pose proof (reachable_board_ok n g Hn Hreach) as Hok. pose proof Hok as [Hg _].
  destruct (reachable_corners n g Hn Hreach) as [Ha _].
  apply get_cell_Some in Ha as [Hb0 Hc0]; [|done].
  exists (over g). split; [by apply is_game_over_ok|].
  rewrite (over_iff_full g 0 0 Hok Hb0) by (by rewrite Hc0).
  split; intros Hfull row col Hb.
  - rewrite get_cell_in by done. specialize (Hfull row col Hb).
    destruct (cell_at g row col) as [pv|]; [by exists pv | done].
  - destruct (Hfull row col Hb) as [pv Hpv].
    rewrite get_cell_in in Hpv by done. congruence.
Qed.

Lemma game_over_iff_full_witness :
  exists g, reachable 2 g /\
  exists b, is_game_over g = Ok b /\
    (b = true <->
     forall row col, in_bounds g row col ->
       exists pv, get_cell g row col = Ok (Some pv)).
Proof.
  exists (initial 2). assert (Hr : reachable 2 (initial 2)).
  { apply reach_init. reflexivity. }
  split; [exact Hr|]. apply (game_over_iff_full 2); [lia | exact Hr].
Defined.

(** ** The winner *)

Lemma is_max_value_unique (g : GameBoard) (p : Player.t) (m1 m2 : Z) :
  is_max_value g p m1 -> is_max_value g p m2 -> m1 = m2.
Proof.
  intros (H01 & Hub1 & Hat1) (H02 & Hub2 & Hat2).
  destruct Hat1 as [->|(r1 & c1 & Hc1)]; destruct Hat2 as [->|(r2 & c2 & Hc2)].
  - done.
  - apply Hub1 in Hc2. lia.
  - apply Hub2 in Hc1. lia.
  - apply Hub1 in Hc2. apply Hub2 in Hc1. lia.
Qed.

(** X9. On a board that satisfies the occupancy invariant [get_max_value]
    and [get_winner] return without raising. [get_max_value] gives the
    largest value among the player's cells (0 when there is none), and
    [get_winner] names the player whose largest value is strictly larger,
    or [None] when the two are equal, whatever the numbers of cells. *)
Theorem get_winner_spec (g : GameBoard) :
  board_ok g ->
  exists ma mb,
    get_max_value g Player.A = Ok ma /\ is_max_value g Player.A ma /\
    get_max_value g Player.B = Ok mb /\ is_max_value g Player.B mb /\
    get_winner g =
    Ok (if bool_decide (mb < ma) then Some Player.A
        else if bool_decide (ma < mb) then Some Player.B else None).
Proof.
  intros Hok.
  exists (max_over g (elements (player_positions g Player.A))),
         (max_over g (elements (player_positions g Player.B))).
  split; [by apply get_max_value_ok|].
  split; [by apply max_over_is_max_value|].
  split; [by apply get_max_value_ok|].
  split; [by apply max_over_is_max_value|].
  unfold get_winner. rewrite !get_max_value_ok by done. simpl.
  repeat case_bool_decide; (done || lia).
Qed.

Lemma get_winner_spec_witness :
  exists ma mb,
    get_max_value (initial 4) Player.A = Ok ma /\
    is_max_value (initial 4) Player.A ma /\
    get_max_value (initial 4) Player.B = Ok mb /\
    is_max_value (initial 4) Player.B mb /\
    get_winner (initial 4) =
    Ok (if bool_decide (mb < ma) then Some Player.A
        else if bool_decide (ma < mb) then Some Player.B else None).
Proof.
  apply (get_winner_spec (initial 4)). apply initial_board_ok. lia.
Defined.

(** ** What a successful move changes *)

Lemma place_is_max_value (g : GameBoard) (row col : Z) (p q : Player.t)
    (value m : Z) :
  board_ok g -> in_bounds g row col -> cell_at g row col = None ->
  is_max_value g q m ->
  is_max_value (place g row col p value) q
               (if decide (q = p) then Z.max m value else m).
Proof.
  intros Hok Hb Hnone (H0 & Hub & Hatt). pose proof Hok as [Hg _].
  assert (Hkeep : forall r c x, get_cell g r c = Ok (Some x) ->
            get_cell (place g row col p value) r c = Ok (Some x)).
  { intros r c x Hx. rewrite get_cell_place by done.
    destruct (decide ((r, c) = (row, col))) as [Heq|]; [|done].
    inversion Heq; subst. rewrite get_cell_in in Hx by done. congruence. }
  destruct (decide (q = p)) as [->|Hqp].
  - split; [lia|]. split.
    + intros r c v Hv. rewrite get_cell_place in Hv by done.
      destruct (decide ((r, c) = (row, col))).
      * inversion Hv. lia.
      * apply Hub in Hv. lia.
    + destruct (Z.max_spec m value) as [[Hlt ->]|[Hle ->]].
      * right. exists row, col. by rewrite get_cell_place, decide_True.
      * destruct Hatt as [->|(r & c & Hc)]; [by left|].
        right. exists r, c. by apply Hkeep.
  - split; [done|]. split.
    + intros r c v Hv. rewrite get_cell_place in Hv by done.
      destruct (decide ((r, c) = (row, col))); [congruence | by eapply Hub].
    + destruct Hatt as [->|(r & c & Hc)]; [by left|].
      right. exists r, c. by apply Hkeep.
Qed.

(** X10. What a call of [make_move] that returns [True] changes: the
    mover owns one cell more and the grid has one empty cell less; the
    other player's occupancy set is the same; the mover's
    [get_max_value] becomes the larger of its old value and the value
    played, and the other player's is unchanged. *)
Theorem make_move_effect (g g' : GameBoard) (row col : Z) (p : Player.t)
    (value : Z) :
  board_ok g -> make_move g row col p value = Ok (true, g') ->
  set_len (player_positions g' p) = S (set_len (player_positions g p)) /\
  player_positions g' (Player.other p) = player_positions g (Player.other p) /\
  empty_count g = S (empty_count g') /\
  (exists m, get_max_value g p = Ok m /\
             get_max_value g' p = Ok (Z.max m value)) /\
  get_max_value g' (Player.other p) = get_max_value g (Player.other p).
Proof.
  intros Hok Hmv. pose proof Hok as [Hg _].
  destruct (make_move_true g g' row col p value Hok Hmv) as [Hlegal ->].
  destruct (legal_move_target g p row col value Hg Hlegal) as [Hb Hnone].
  pose proof (place_board_ok g row col p value Hok Hb Hnone) as Hok'.
  split; [|split; [|split; [|split]]].
  - rewrite place_positions, decide_True by done. unfold set_len.
    rewrite size_union, size_singleton; [done|].
    apply disjoint_singleton_l. intros Hin.
    apply (board_ok_positions g p row col Hok) in Hin as [_ [v Hv]]. congruence.
  - rewrite place_positions. rewrite decide_False; [done|]. by destruct p.
  - by apply place_empty_count.
  - exists (max_over g (elements (player_positions g p))).
    split; [by apply get_max_value_ok|].
    rewrite get_max_value_ok by done. f_equal.
    apply (is_max_value_unique (place g row col p value) p).
    + by apply max_over_is_max_value.
    + pose proof (place_is_max_value g row col p p value _ Hok Hb Hnone
                    (max_over_is_max_value g p Hok)) as H.
      by rewrite decide_True in H.
  - rewrite !get_max_value_ok by done. f_equal.
    apply (is_max_value_unique (place g row col p value) (Player.other p)).
    + by apply max_over_is_max_value.
    + pose proof (place_is_max_value g row col p (Player.other p) value _ Hok Hb
                    Hnone (max_over_is_max_value g (Player.other p) Hok)) as H.
      rewrite decide_False in H; [done|]. by destruct p.
Qed.

Lemma make_move_effect_witness :
  set_len (player_positions (place (initial 3) 1 1 Player.A 2) Player.A)
  = S (set_len (player_positions (initial 3) Player.A)) /\
  player_positions (place (initial 3) 1 1 Player.A 2) (Player.other Player.A)
  = player_positions (initial 3) (Player.other Player.A) /\
  empty_count (initial 3) = S (empty_count (place (initial 3) 1 1 Player.A 2)) /\
  (exists m, get_max_value (initial 3) Player.A = Ok m /\
             get_max_value (place (initial 3) 1 1 Player.A 2) Player.A
             = Ok (Z.max m 2)) /\
  get_max_value (place (initial 3) 1 1 Player.A 2) (Player.other Player.A)
  = get_max_value (initial 3) (Player.other Player.A).
Proof.
  apply (make_move_effect (initial 3) _ 1 1 Player.A 2).
  - apply initial_board_ok. lia.
  - vm_compute. reflexivity.
Defined.

(** ** Counting the empty cells *)

Lemma length_bind_const {T U : Type} (f : T -> list U) (m : nat) (l : list T) :
  (forall x, length (f x) = m) -> length (l ≫= f) = (length l * m)%nat.
Proof.
  intros Hf. induction l as [|x l IH]; [done|].
  rewrite bind_cons, length_app, Hf, IH. simpl. lia.
Qed.

Lemma length_coords (g : GameBoard) :
  length (coords g) = (Z.to_nat (size g) * Z.to_nat (size g))%nat.
Proof.
  unfold coords, py_range.
  rewrite (length_bind_const _ (Z.to_nat (size g))), length_seqZ; [done|].
  intros r. rewrite (length_bind_const _ 1%nat), length_seqZ; [lia|done].
Qed.

Lemma empty_count_blank (n : Z) :
  empty_count (blank n) = (Z.to_nat n * Z.to_nat n)%nat.
Proof.
  change (Z.to_nat n * Z.to_nat n)%nat
    with (Z.to_nat (size (blank n)) * Z.to_nat (size (blank n)))%nat.
  unfold empty_count. rewrite <- (length_coords (blank n)). f_equal.
  induction (coords (blank n)) as [|pos l IH]; [done|].
  rewrite filter_cons_True by apply blank_cell_at. by rewrite IH.
Qed.

Lemma empty_count_initial (n : Z) :
  2 <= n -> Z.of_nat (empty_count (initial n)) = n * n - 2.
Proof.
  intros Hn.
  assert (Hg0 : board_ok (blank n)) by (apply blank_board_ok; lia).
  assert (Hb0 : in_bounds (blank n) 0 0) by (unfold in_bounds; simpl; lia).
  assert (Hg1 : board_ok (place (blank n) 0 0 Player.A 1)).
  { apply place_board_ok; [done | done | apply blank_cell_at]. }
  assert (Hb1 : in_bounds (place (blank n) 0 0 Player.A 1) (n - 1) (n - 1)).
  { apply place_in_bounds. unfold in_bounds; simpl; lia. }
  pose proof (empty_count_blank n) as Hblank.
  rewrite (place_empty_count (blank n) 0 0 Player.A 1) in Hblank
    by (apply Hg0 || done || apply blank_cell_at).
  rewrite (place_empty_count _ (n - 1) (n - 1) Player.B 1) in Hblank.
  - fold (initial n) in Hblank. nia.
  - apply Hg1.
  - done.
  - rewrite place_cell_at by (apply Hg0 || done).
    rewrite decide_False by (intros [= ? ?]; lia). apply blank_cell_at.
Qed.

Lemma full_empty_count (g : GameBoard) :
  (forall row col, in_bounds g row col -> cell_at g row col <> None) ->
  empty_count g = 0%nat.
Proof.
  intros Hfull. unfold empty_count.
  destruct (filter _ (coords g)) as [|[r c] l] eqn:Hl; [done|].
  assert ((r, c) ∈ filter (fun pos => cell_at g pos.1 pos.2 = None) (coords g))
    as Hin by (rewrite Hl; by left).
  apply list_elem_of_filter in Hin as [Hnone Hc].
  apply elem_of_coords in Hc. by apply Hfull in Hc.
Qed.

(** * Further properties of the search *)

Lemma max_loop_member (rec : GameBoard -> score -> score -> Z -> outcome answer)
    (g : GameBoard) (cur : Player.t) (beta : score) (ms : list move) :
  forall alpha max_eval best n r b n',
    max_loop rec g cur beta ms alpha max_eval best n = Done (r, b, n') ->
    b = best \/ exists mv, mv ∈ ms /\ b = Some mv.
Proof.
  induction ms as [|[[row col] value] ms IH];
    intros alpha max_eval best n r b n'; simpl.
  - intros [= ? <- ?]. by left.
  - destruct (copy g) as [nb|e]; simpl; [|done].
    destruct (make_move nb row col cur value) as [[flag nb']|e]; simpl; [|done].
    destruct (rec nb' alpha beta n) as [[[e m] k]| |]; simpl; [|done|done].
    assert (forall best',
      (best' = best \/ best' = Some (row, col, value)) ->
      (if score_leb beta (score_max alpha e) then Done (
         (if score_ltb max_eval e then e else max_eval), best', k)
       else max_loop rec g cur beta ms (score_max alpha e)
              (if score_ltb max_eval e then e else max_eval) best' k)
      = Done (r, b, n') ->
      b = best \/ exists mv, mv ∈ (row, col, value) :: ms /\ b = Some mv) as Hgen.
    { intros best' Hbest'. destruct (score_leb beta (score_max alpha e)).
      - intros [= ? <- ?]. destruct Hbest' as [-> | ->]; [by left|].
        right. eexists. split; [by left | done].
      - intros H. apply IH in H as [->|(mv & Hin & ->)].
        + destruct Hbest' as [-> | ->]; [by left|].
          right. eexists. split; [by left | done].
        + right. exists mv. split; [by right | done]. }
    destruct (score_ltb max_eval e); apply Hgen; auto.
Qed.

Lemma min_loop_member (rec : GameBoard -> score -> score -> Z -> outcome answer)
    (g : GameBoard) (cur : Player.t) (alpha : score) (ms : list move) :
  forall beta min_eval best n r b n',
    min_loop rec g cur alpha ms beta min_eval best n = Done (r, b, n') ->
    b = best \/ exists mv, mv ∈ ms /\ b = Some mv.
Proof.
  induction ms as [|[[row col] value] ms IH];
    intros beta min_eval best n r b n'; simpl.
  - intros [= ? <- ?]. by left.
  - destruct (copy g) as [nb|e]; simpl; [|done].
    destruct (make_move nb row col cur value) as [[flag nb']|e]; simpl; [|done].
    destruct (rec nb' alpha beta n) as [[[e m] k]| |]; simpl; [|done|done].
    assert (forall best',
      (best' = best \/ best' = Some (row, col, value)) ->
      (if score_leb (score_min beta e) alpha then Done (
         (if score_ltb e min_eval then e else min_eval), best', k)
       else min_loop rec g cur alpha ms (score_min beta e)
              (if score_ltb e min_eval then e else min_eval) best' k)
      = Done (r, b, n') ->
      b = best \/ exists mv, mv ∈ (row, col, value) :: ms /\ b = Some mv) as Hgen.
    { intros best' Hbest'. destruct (score_leb (score_min beta e) alpha).
      - intros [= ? <- ?]. destruct Hbest' as [-> | ->]; [by left|].
        right. eexists. split; [by left | done].
      - intros H. apply IH in H as [->|(mv & Hin & ->)].
        + destruct Hbest' as [-> | ->]; [by left|].
          right. eexists. split; [by left | done].
        + right. exists mv. split; [by right | done]. }
    destruct (score_ltb e min_eval); apply Hgen; auto.
Qed.

(** The move that [minimax] returns at a node where the player to move
    has moves is one of those moves. *)
Lemma minimax_move_legal (fuel : nat) (g : GameBoard) (depth : Z)
    (alpha beta : score) (mx : bool) (p : Player.t) (n : Z) r mv n' :
  board_ok g -> depth <> 0 -> legal_moves g (mover mx p) <> [] ->
  minimax fuel g depth alpha beta mx p n = Done (r, Some mv, n') ->
  mv ∈ legal_moves g (mover mx p).
Proof.
  intros Hok Hd Hne. destruct fuel as [|fuel]; [done|].
  rewrite minimax_step by done. cbv zeta. fold (mover mx p).
  rewrite (bool_decide_eq_false_2 _ Hd), (not_over_of_moves g _ Hne).
  rewrite (bool_decide_eq_false_2 _ Hne). simpl.
  destruct mx; intros H.
  - apply max_loop_member in H as [?|(m & Hin & Heq)]; [done|].
    by inversion Heq; subst.
  - apply min_loop_member in H as [?|(m & Hin & Heq)]; [done|].
    by inversion Heq; subst.
Qed.

(** ** The recursion limit *)

(** Some cell of the grid is occupied. *)
Definition has_cell (g : GameBoard) : Prop :=
  exists r c, in_bounds g r c /\ cell_at g r c <> None.

Lemma has_cell_place (g : GameBoard) (row col : Z) (p : Player.t) (value : Z) :
  grid_ok g -> in_bounds g row col -> has_cell (place g row col p value).
Proof.
  intros Hg Hb. exists row, col. split; [by apply place_in_bounds|].
  rewrite place_cell_at by done. by rewrite decide_True.
Qed.

Lemma has_cell_of_moves (g : GameBoard) (p : Player.t) :
  board_ok g -> legal_moves g p <> [] -> has_cell g.
Proof.
  intros Hok Hne. destruct (legal_moves g p) as [|[[row col] value] ms] eqn:Hms; [done|].
  assert ((row, col, value) ∈ legal_moves g p) as Hin by (rewrite Hms; by left).
  apply (elem_of_valid_moves g p _ Hok) in Hin.
  destruct Hin as (_ & _ & (r & c & _ & Hc) & _).
  apply get_cell_Some in Hc as [Hb Hc]; [|apply Hok].
  exists r, c. split; [done|]. by rewrite Hc.
Qed.

Lemma not_full_not_over (g : GameBoard) :
  board_ok g -> has_cell g -> (0 < empty_count g)%nat -> over g = false.
Proof.
  intros Hok (r & c & Hb & Hc) Hpos.
  destruct (over g) eqn:Hover; [|done].
  pose proof (proj1 (over_iff_full g r c Hok Hb Hc) Hover) as Hfull.
  rewrite (full_empty_count g Hfull) in Hpos. lia.
Qed.

(** A search that cannot stop on its depth before the nesting allowed to
    it is used up, on a board with at least that many empty cells, uses it
    up: the first branch alone plays one move or one pass per call. *)
Lemma minimax_too_deep (fuel : nat) :
  forall g depth alpha beta mx p n,
    board_ok g -> has_cell g ->
    depth < 0 \/ Z.of_nat fuel <= depth ->
    (fuel <= empty_count g)%nat ->
    minimax fuel g depth alpha beta mx p n = OutOfFuel.
Proof.
  induction fuel as [|fuel IH]; intros g depth alpha beta mx p n Hok Hcell Hd Hfuel;
    [done|].
  rewrite minimax_step by done. cbv zeta.
  rewrite bool_decide_eq_false_2 by lia.
  rewrite (not_full_not_over g Hok Hcell) by lia. simpl.
  case_bool_decide as Hnil.
  - apply IH; [done|done|lia|lia].
  - destruct (legal_moves g _) as [|[[row col] value] ms] eqn:Hms; [done|].
    assert ((row, col, value) ∈ legal_moves g (if mx then p else Player.other p))
      as Hin by (rewrite Hms; by left).
    destruct (legal_moves_place g _ row col value Hok Hin) as (Hb & Hnone & Hok' & _).
    pose proof (place_empty_count g row col (if mx then p else Player.other p) value
                  (proj1 Hok) Hb Hnone) as Hec.
    pose proof (has_cell_place g row col (if mx then p else Player.other p) value
                  (proj1 Hok) Hb) as Hcell'.
    destruct mx.
    + rewrite max_loop_cons by done. rewrite IH; [done|done|done|lia|lia].
    + rewrite min_loop_cons by done. rewrite IH; [done|done|done|lia|lia].
Qed.

(** With a depth that is not negative the nesting is at most the depth
    plus one, whatever the board. *)
Lemma minimax_total_depth (fuel : nat) :
  forall g depth alpha beta mx p n,
    board_ok g -> 0 <= depth < Z.of_nat fuel ->
    exists s mv n',
      minimax fuel g depth alpha beta mx p n = Done (Fin s, mv, n') /\
      n < n' /\
      (depth <> 0 -> over g = false -> legal_moves g (mover mx p) <> [] ->
       is_Some mv).
Proof.
  induction fuel as [|fuel IH]; intros g depth alpha beta mx p n Hok Hfuel; [lia|].
  rewrite minimax_step by done. cbv zeta. fold (mover mx p).
  destruct (decide (depth = 0)) as [Hd|Hd].
  { rewrite (bool_decide_eq_true_2 _ Hd). simpl.
    exists (eval g p), None, (n + 1). split; [done|]. split; [lia|done]. }
  rewrite (bool_decide_eq_false_2 _ Hd). simpl.
  destruct (over g) eqn:Hover; simpl.
  { exists (eval g p), None, (n + 1). split; [done|]. split; [lia|done]. }
  destruct (decide (legal_moves g (mover mx p) = [])) as [Hnil|Hnil].
  - rewrite (bool_decide_eq_true_2 _ Hnil).
    destruct (IH g (depth - 1) alpha beta (negb mx) p (n + 1) Hok)
      as (s & mv & n' & Heq & Hn & _); [lia|].
    exists s, mv, n'. split; [done|]. split; [lia|done].
  - rewrite (bool_decide_eq_false_2 _ Hnil).
    assert (Hrec : forall flag row col value,
              (row, col, value) ∈ legal_moves g (mover mx p) -> forall a b k,
              exists s m k',
                minimax fuel (place g row col (mover mx p) value) (depth - 1)
                        a b flag p k = Done (Fin s, m, k') /\ k < k').
    { intros flag row col value Hin a b k.
      destruct (legal_moves_place g _ row col value Hok Hin) as (_ & _ & Hok' & _).
      destruct (IH (place g row col (mover mx p) value) (depth - 1) a b flag p k Hok')
        as (s & m & k' & Heq & Hk & _); [lia|].
      eauto. }
    destruct mx.
    + destruct (max_loop_total
                  (fun nb a b k => minimax fuel nb (depth - 1) a b false p k)
                  g (mover true p) beta (legal_moves g (mover true p)) Hok
                  (fun mv H => H) (Hrec false) alpha NegInf None (n + 1))
        as (s & b & n' & Heq & _ & Hn); [by left|].
      exists s, (Some b), n'. split; [done|]. split; [|by eauto].
      specialize (Hn Hnil). lia.
    + destruct (min_loop_total
                  (fun nb a b k => minimax fuel nb (depth - 1) a b true p k)
                  g (mover false p) alpha (legal_moves g (mover false p)) Hok
                  (fun mv H => H) (Hrec true) beta PosInf None (n + 1))
        as (s & b & n' & Heq & _ & Hn); [by left|].
      exists s, (Some b), n'. split; [done|]. split; [|by eauto].
      specialize (Hn Hnil). lia.
Qed.

(** The nesting that is always enough: the depth plus one when the depth
    is not negative, and in every case twice the number of empty cells
    plus two. *)
Definition room_for (limit : nat) (g : GameBoard) (depth : Z) : Prop :=
  0 <= depth < Z.of_nat limit \/ (2 * empty_count g + 2 <= limit)%nat.

Lemma room_for_le (limit limit' : nat) (g : GameBoard) (depth : Z) :
  (limit <= limit')%nat -> room_for limit g depth -> room_for limit' g depth.
Proof. unfold room_for. lia. Qed.

Lemma room_for_place (limit : nat) (g : GameBoard) (depth : Z)
    (row col : Z) (p : Player.t) (value : Z) :
  grid_ok g -> in_bounds g row col -> cell_at g row col = None ->
  room_for limit g depth -> room_for limit (place g row col p value) depth.
Proof.
  intros Hg Hb Hnone. unfold room_for.
  rewrite (place_empty_count g row col p value Hg Hb Hnone). lia.
Qed.

Lemma minimax_room (limit : nat) (g : GameBoard) (depth : Z)
    (alpha beta : score) (mx : bool) (p : Player.t) (n : Z) :
  board_ok g -> room_for limit g depth ->
  exists s mv n',
    minimax limit g depth alpha beta mx p n = Done (Fin s, mv, n') /\
    n < n' /\
    (depth <> 0 -> over g = false -> legal_moves g (mover mx p) <> [] ->
     is_Some mv).
Proof.
  intros Hok [Hd|He].
  - by apply minimax_total_depth.
  - apply minimax_total; [done|].
    pose proof (measure_bound g (mover mx p)). lia.
Qed.

Lemma legal_moves_not_nil (g : GameBoard) (p : Player.t) :
  board_ok g -> get_valid_moves g p <> Ok [] <-> legal_moves g p <> [].
Proof.
  intros Hok. rewrite get_valid_moves_ok by done. fold (legal_moves g p).
  split; [|congruence]. intros H Hnil. apply H. by rewrite Hnil.
Qed.

(** The answer of [get_best_move] where the mover has a move and the depth
    is not 0: one and the same legal move for every limit that leaves
    room. *)
Lemma get_best_move_some (g : GameBoard) (p : Player.t) (max_depth : Z) :
  board_ok g -> max_depth <> 0 -> get_valid_moves g p <> Ok [] ->
  exists row col value n ms g',
    (forall limit, room_for limit g max_depth ->
       get_best_move limit max_depth g p = Done (Some (row, col, value), n)) /\
    get_valid_moves g p = Ok ms /\ (row, col, value) ∈ ms /\
    1 <= n /\
    make_move g row col p value = Ok (true, g') /\ board_ok g'.
Proof.
  intros Hok Hd Hmoves. apply legal_moves_not_nil in Hmoves as Hne; [|done].
  destruct (minimax_total (2 * empty_count g + 2) g max_depth NegInf PosInf
              true p 0 Hok (measure_bound g (mover true p)))
    as (s & mv & n' & Heq & Hn & Hmv).
  destruct (Hmv Hd (not_over_of_moves g p Hne) Hne) as [[[row col] value] ->].
  pose proof (minimax_move_legal _ g max_depth NegInf PosInf true p 0 _ _ _
                Hok Hd Hne Heq) as Hin. simpl in Hin.
  destruct (legal_moves_place g p row col value Hok Hin) as (_ & _ & Hok' & Hmk).
  exists row, col, value, n', (legal_moves g p), (place g row col p value).
  split; [|split; [by apply get_valid_moves_ok|split; [done|split; [lia|done]]]].
  intros limit Hroom. rewrite get_best_move_ok by done.
  rewrite (bool_decide_eq_false_2 _ Hne).
  destruct (minimax_room limit g max_depth NegInf PosInf true p 0 Hok Hroom)
    as (s2 & mv2 & n2 & Heq2 & _).
  rewrite Heq2.
  apply (minimax_fuel_le _ (Nat.max limit (2 * empty_count g + 2))) in Heq2; [|lia].
  apply (minimax_fuel_le _ (Nat.max limit (2 * empty_count g + 2))) in Heq; [|lia].
  rewrite Heq in Heq2. by injection Heq2 as <- <- <-.
Qed.

(** C5, as the code has it. On a board that satisfies the occupancy
    invariant, with room for [limit] nested calls of [minimax] under the
    interpreter's recursion limit:
    - without a legal move for the mover, [get_best_move] returns [None]
      and runs no search;
    - with max_depth 0 it returns [None] although the mover has moves:
      the one call of [minimax] returns the immediate evaluation and no
      move;
    - with any other depth, negative ones included (they never meet the
      test [depth == 0], so the game is played out), and a limit that
      leaves room for the nesting, it returns one of the mover's legal
      moves;
    - when the depth cannot stop the search before the limit does and the
      board has at least [limit] empty cells, it raises RecursionError. *)
Theorem get_best_move_result (g : GameBoard) (p : Player.t) (max_depth : Z)
    (limit : nat) :
  board_ok g ->
  (get_valid_moves g p = Ok [] ->
   get_best_move limit max_depth g p = Done (None, 0)) /\
  (get_valid_moves g p <> Ok [] -> max_depth = 0 -> (1 <= limit)%nat ->
   exists e, evaluate_position g p = Ok e /\
     minimax limit g max_depth NegInf PosInf true p 0 = Done (Fin e, None, 1) /\
     get_best_move limit max_depth g p = Done (None, 1)) /\
  (get_valid_moves g p <> Ok [] -> max_depth <> 0 ->
   room_for limit g max_depth ->
   exists mv n ms,
     get_best_move limit max_depth g p = Done (Some mv, n) /\
     get_valid_moves g p = Ok ms /\ mv ∈ ms) /\
  (get_valid_moves g p <> Ok [] ->
   max_depth < 0 \/ Z.of_nat limit <= max_depth ->
   (limit <= empty_count g)%nat ->
   under_limit (get_best_move limit max_depth g p) = Raise RecursionError).
Proof.
  intros Hok. split; [|split; [|split]].
  - intros Hnone. rewrite get_valid_moves_ok in Hnone by done.
    injection Hnone as Hnil. fold (legal_moves g p) in Hnil.
    rewrite get_best_move_ok by done. by rewrite (bool_decide_eq_true_2 _ Hnil).
  - intros Hmoves -> Hlimit. apply legal_moves_not_nil in Hmoves; [|done].
    destruct limit as [|limit]; [lia|].
    exists (eval g p). split; [by apply evaluate_position_ok|].
    rewrite get_best_move_ok, minimax_step by done. cbv zeta. simpl.
    by rewrite (bool_decide_eq_false_2 _ Hmoves).
  - intros Hmoves Hd Hroom.
    destruct (get_best_move_some g p max_depth Hok Hd Hmoves)
      as (row & col & value & n & ms & g' & Hrun & Hms & Hin & _).
    exists (row, col, value), n, ms. by rewrite (Hrun limit Hroom).
  - intros Hmoves Hd Hlimit. apply legal_moves_not_nil in Hmoves; [|done].
    rewrite get_best_move_ok by done. rewrite (bool_decide_eq_false_2 _ Hmoves).
    rewrite minimax_too_deep; [done|done| |done|done].
    by apply (has_cell_of_moves g p).
Qed.

Lemma get_best_move_result_witness :
  (get_valid_moves (initial 3) Player.A = Ok [] ->
   get_best_move 5 2 (initial 3) Player.A = Done (None, 0)) /\
  (get_valid_moves (initial 3) Player.A <> Ok [] -> 2 = 0 -> (1 <= 5)%nat ->
   exists e, evaluate_position (initial 3) Player.A = Ok e /\
     minimax 5 (initial 3) 2 NegInf PosInf true Player.A 0
     = Done (Fin e, None, 1) /\
     get_best_move 5 2 (initial 3) Player.A = Done (None, 1)) /\
  (get_valid_moves (initial 3) Player.A <> Ok [] -> 2 <> 0 ->
   room_for 5 (initial 3) 2 ->
   exists mv n ms,
     get_best_move 5 2 (initial 3) Player.A = Done (Some mv, n) /\
     get_valid_moves (initial 3) Player.A = Ok ms /\ mv ∈ ms) /\
  (get_valid_moves (initial 3) Player.A <> Ok [] ->
   2 < 0 \/ Z.of_nat 5 <= 2 ->
   (5 <= empty_count (initial 3))%nat ->
   under_limit (get_best_move 5 2 (initial 3) Player.A) = Raise RecursionError).
Proof.
  apply (get_best_move_result (initial 3) Player.A 2 5).
  apply initial_board_ok. lia.
Defined.

Lemma initial_moves (n : Z) :
  2 <= n -> get_valid_moves (initial n) Player.A <> Ok [].
Proof.
  intros Hn. pose proof (initial_board_ok n Hn) as Hok. pose proof Hok as [Hg _].
  apply legal_moves_not_nil; [done|].
  assert (Hr : reachable n (initial n)).
  { apply reach_init. by apply GameBoard_init_ok. }
  destruct (reachable_corners n _ Hn Hr) as [Ha _].
  apply get_cell_Some in Ha as [Hb0 Hc0]; [|done].
  assert (Hb1 : in_bounds (initial n) 0 1).
  { unfold in_bounds. rewrite initial_size. lia. }
  apply (legal_moves_nonempty _ Player.A 0 1 0 0 1 Hok Hb1 Hb0); [| |done].
  - unfold adjacent. lia.
  - destruct (cell_at (initial n) 0 1) as [[q v]|] eqn:Hc; [|done].
    assert (get_cell (initial n) 0 1 = Ok (Some (q, v))) as Hget.
    { by apply get_cell_Some. }
    apply initial_cells in Hget as [_ [(_ & _ & ?)|(_ & ? & ?)]]; lia.
Qed.


Lemma initial_has_cell (n : Z) : 2 <= n -> has_cell (initial n).
Proof.
  intros Hn. pose proof (initial_board_ok n Hn) as Hok.
  apply (has_cell_of_moves _ Player.A); [done|].
  apply legal_moves_not_nil; [done|]. by apply initial_moves.
Qed.

(** The first search of a game on a board too large for the limit. *)
Lemma initial_too_deep (n : Z) (limit : nat) (depth : Z) :
  2 <= n -> depth < 0 \/ Z.of_nat limit <= depth ->
  Z.of_nat limit <= n * n - 2 ->
  get_best_move limit depth (initial n) Player.A = OutOfFuel.
Proof.
  intros Hn Hd Hlimit. pose proof (initial_board_ok n Hn) as Hok.
  pose proof (initial_moves n Hn) as Hmoves.
  apply legal_moves_not_nil in Hmoves; [|done].
  rewrite get_best_move_ok by done. rewrite (bool_decide_eq_false_2 _ Hmoves).
  rewrite minimax_too_deep; [done|done| |done|].
  - by apply initial_has_cell.
  - pose proof (empty_count_initial n Hn). lia.
Qed.

Lemma negative_depth_searches :
  forall limit, (16 <= limit)%nat ->
    exists mv n,
      get_best_move limit (-1) (initial 3) Player.A = Done (Some mv, n) /\
      1 < n.
Proof.
  intros limit Hlimit.
  pose proof (initial_board_ok 3 ltac:(lia)) as Hok.
  assert (exists s mv n,
            minimax 16 (initial 3) (-1) NegInf PosInf true Player.A 0
            = Done (s, Some mv, n) /\ 1 < n) as (s & mv & n & Heq & Hn).
  { eexists _, _, _. split; [vm_compute; reflexivity|done]. }
  exists mv, n. split; [|done].
  rewrite get_best_move_ok by done.
  rewrite bool_decide_eq_false_2
    by (apply legal_moves_not_nil; [done|apply initial_moves; lia]).
  by rewrite (minimax_fuel_le _ limit _ _ _ _ _ _ _ _ Hlimit Heq).
Qed.

(** Where the code departs from C5. With depth -1 on the 3 by 3 board the
    immediate evaluation is not what comes back: a move is returned and
    more than one position was evaluated. With depth -1 on the 32 by 32
    board, where no more than 1000 nested calls fit under CPython's
    recursion limit of 1000, the call raises RecursionError. *)
Lemma best_move_negative_depth :
  (board_ok (initial 3) /\
   forall limit, (16 <= limit)%nat ->
     exists mv n,
       get_best_move limit (-1) (initial 3) Player.A = Done (Some mv, n) /\
       1 < n) /\
  (board_ok (initial 32) /\
   under_limit (get_best_move 1000 (-1) (initial 32) Player.A)
   = Raise RecursionError).
Proof.
  split.
  - split; [apply initial_board_ok; lia | apply negative_depth_searches].
  - split; [apply initial_board_ok; lia|].
    rewrite (initial_too_deep 32 1000 (-1)); [reflexivity|lia|lia|lia].
Qed.

(** X11. When the mover has a legal move and the depth is not 0,
    [get_best_move] returns, for every limit that leaves room for the
    nesting of the search (the depth plus one for a positive depth, twice
    the number of empty cells plus two in every case), one and the same
    move: a move that [get_valid_moves] lists for the mover. At least one
    node has been counted, and [make_move] called with the returned triple
    succeeds and leaves a board that satisfies the occupancy invariant. *)
Theorem get_best_move_legal (g : GameBoard) (p : Player.t) (max_depth : Z) :
  board_ok g -> max_depth <> 0 -> get_valid_moves g p <> Ok [] ->
  exists row col value n ms g',
    (forall limit, room_for limit g max_depth ->
       get_best_move limit max_depth g p = Done (Some (row, col, value), n)) /\
    get_valid_moves g p = Ok ms /\ (row, col, value) ∈ ms /\
    1 <= n /\
    make_move g row col p value = Ok (true, g') /\ board_ok g'.
Proof.
  intros Hok Hd Hmoves.
  destruct (get_best_move_some g p max_depth Hok Hd Hmoves)
    as (row & col & value & n & ms & g' & Hbest & Hms & Hin & Hn & Hmv & Hok').
  exists row, col, value, n, ms, g'.
  split; [exact Hbest|]. split; [exact Hms|]. split; [exact Hin|].
  split; [exact Hn|]. split; [exact Hmv | exact Hok'].
Qed.

Lemma get_best_move_legal_witness :
  exists row col value n ms g',
    (forall limit, room_for limit (initial 3) 2 ->
       get_best_move limit 2 (initial 3) Player.A
       = Done (Some (row, col, value), n)) /\
    get_valid_moves (initial 3) Player.A = Ok ms /\ (row, col, value) ∈ ms /\
    1 <= n /\
    make_move (initial 3) row col Player.A value = Ok (true, g') /\ board_ok g'.
Proof.
  apply (get_best_move_legal (initial 3) Player.A 2).
  - apply initial_board_ok. lia.
  - lia.
  - vm_compute. discriminate.
Defined.

(** * The game loop *)

Lemma play_loop_step (fuel search_fuel : nat) (ai_depth : Z) (g : GameBoard)
    (cur : Player.t) (k : Z) :
  board_ok g ->
  play_loop (S fuel) search_fuel ai_depth g cur k =
  if over g then Done (g, k)
  else if bool_decide (legal_moves g cur = []) then
    play_loop fuel search_fuel ai_depth g (Player.other cur) k
  else
    '(best_move, _) ← get_best_move search_fuel ai_depth g cur;
    g' ← match best_move with
         | Some (row, col, value) =>
             '(_, g') ← lift (make_move g row col cur value); Done g'
         | None => Done g
         end;
    play_loop fuel search_fuel ai_depth g' (Player.other cur) (k + 1).
Proof.
  intros Hok. cbn [play_loop].
  rewrite is_game_over_ok, get_valid_moves_ok by done. simpl.
  fold (legal_moves g cur). done.
Qed.

(** With depth 0 the loop makes no progress on a board that is not
    finished: no move is ever applied, so no amount of fuel is enough. *)
Lemma play_loop_depth_zero (fuel search_fuel : nat) :
  forall g cur k,
    board_ok g -> over g = false ->
    play_loop fuel search_fuel 0 g cur k = OutOfFuel.
Proof.
  induction fuel as [|fuel IH]; intros g cur k Hok Hover; [done|].
  rewrite play_loop_step by done. rewrite Hover.
  case_bool_decide as Hnil; [by apply IH|].
  rewrite get_best_move_ok by done. rewrite (bool_decide_eq_false_2 _ Hnil).
  destruct search_fuel as [|sf]; [done|].
  rewrite minimax_step by done. simpl. by apply IH.
Qed.

Lemma initial_not_over (n : Z) : 2 <= n -> over (initial n) = false.
Proof.
  intros Hn. pose proof (initial_board_ok n Hn) as Hok. pose proof Hok as [Hg _].
  assert (Hr : reachable n (initial n)).
  { apply reach_init. by apply GameBoard_init_ok. }
  destruct (reachable_corners n _ Hn Hr) as [Ha _].
  apply get_cell_Some in Ha as [Hb0 Hc0]; [|done].
  assert (Hb1 : in_bounds (initial n) 0 1).
  { unfold in_bounds. rewrite initial_size. lia. }
  apply (not_over_of_moves _ Player.A).
  apply (legal_moves_nonempty _ Player.A 0 1 0 0 1 Hok Hb1 Hb0); [| |done].
  - unfold adjacent. lia.
  - destruct (cell_at (initial n) 0 1) as [[q v]|] eqn:Hc; [|done].
    assert (get_cell (initial n) 0 1 = Ok (Some (q, v))) as Hget.
    { by apply get_cell_Some. }
    apply initial_cells in Hget as [_ [(_ & _ & ?)|(_ & ? & ?)]]; lia.
Qed.

(** X12. [play_game] with [ai_depth] 0 never finishes. At depth 0
    [get_best_move] returns no move, the [if best_move:] guard skips
    [make_move], the players are swapped and the unchanged board is looked
    at again: for every board size of at least 2 the loop exhausts any
    number of iterations allowed to it. *)
Theorem play_game_depth_zero_diverges (fuel search_fuel : nat) (n : Z) :
  2 <= n -> play_game fuel search_fuel n 0 = OutOfFuel.
Proof.
  intros Hn. unfold play_game.
  destruct (GameBoard_init_ok n Hn) as [-> Hok]. simpl.
  by rewrite play_loop_depth_zero by (done || by apply initial_not_over).
Qed.

Lemma play_game_depth_zero_diverges_witness :
  play_game 1000 50 6 0 = OutOfFuel.
Proof. apply (play_game_depth_zero_diverges 1000 50 6). lia. Defined.

(** ** A search depth other than 0 *)

(** With a depth other than 0 and room for its searches every iteration
    that does not pass plays a move, so the loop ends: the board it leaves
    has no legal move left and [move_count] has grown by the number of
    cells filled. *)
Lemma play_loop_total (search_limit : nat) (ai_depth : Z) :
  ai_depth <> 0 ->
  forall fuel g cur k,
    board_ok g ->
    room_for search_limit g ai_depth ->
    (measure g cur < fuel)%nat ->
    exists g',
      play_loop fuel search_limit ai_depth g cur k
      = Done (g', k + Z.of_nat (empty_count g) - Z.of_nat (empty_count g')) /\
      board_ok g' /\ over g' = true /\
      (forall n, reachable n g -> reachable n g').
Proof.
  intros Hd. induction fuel as [|fuel IH]; intros g cur k Hok Hroom Hfuel; [lia|].
  rewrite play_loop_step by done. destruct (over g) eqn:Hover.
  { exists g. split; [do 2 f_equal; lia|done]. }
  case_bool_decide as Hnil.
  - apply IH; [done|done|].
    pose proof (measure_pass g cur Hover Hnil). lia.
  - assert (get_valid_moves g cur <> Ok []) as Hne.
    { by apply legal_moves_not_nil. }
    destruct (get_best_move_some g cur ai_depth Hok Hd Hne)
      as (row & col & value & n & ms & g1 & Hbest & Hms & Hin & _ & Hmv & Hok1).
    rewrite (Hbest search_limit Hroom). simpl. rewrite Hmv. simpl.
    rewrite get_valid_moves_ok in Hms by done. fold (legal_moves g cur) in Hms.
    assert (ms = legal_moves g cur) as -> by congruence.
    destruct (make_move_true g g1 row col cur value Hok Hmv) as [_ ->].
    destruct (legal_moves_place g cur row col value Hok Hin) as (Hb & Hnone & _ & _).
    pose proof (place_empty_count g row col cur value (proj1 Hok) Hb Hnone) as Hec.
    pose proof (measure_move g cur (Player.other cur) row col value Hok Hin) as Hm.
    destruct (IH (place g row col cur value) (Player.other cur) (k + 1) Hok1)
      as (g' & Hrun & Hok' & Hover' & Hreach);
      [apply room_for_place; [apply Hok|done|done|done] | lia |].
    exists g'. split; [|split; [done|split; [done|]]].
    + rewrite Hrun. do 2 f_equal. lia.
    + intros m Hr. apply Hreach. by apply (reach_move m g _ row col cur value).
Qed.

(** X13. A game with a board size of at least 2 and a search depth other
    than 0 finishes when the searches have room: for a positive depth the
    recursion limit has to leave room for [ai_depth + 1] nested calls of
    [minimax], and for any depth, negative ones included, [2 * n * n]
    nested calls are enough. Then, once the loop is allowed [2 * n * n]
    iterations, [play_game] returns a board and the winner that
    [get_winner] names on it, nothing is raised on the way, the board is
    reached from [GameBoard(n)] by successful moves and has no empty cell,
    and [move_count] ends at [n * n - 2]: every cell but the two corners
    is filled by exactly one counted move. *)
Theorem play_game_finishes (fuel search_limit : nat) (n ai_depth : Z) :
  2 <= n -> ai_depth <> 0 ->
  (Z.to_nat (2 * n * n) <= fuel)%nat ->
  0 < ai_depth < Z.of_nat search_limit \/
    (Z.to_nat (2 * n * n) <= search_limit)%nat ->
  exists g' winner,
    play_loop fuel search_limit ai_depth (initial n) Player.A 0
    = Done (g', n * n - 2) /\
    play_game fuel search_limit n ai_depth = Done (g', winner) /\
    reachable n g' /\
    (forall row col, in_bounds g' row col ->
       exists pv, get_cell g' row col = Ok (Some pv)) /\
    get_winner g' = Ok winner.
Proof.
  intros Hn Hd Hfuel Hlimit.
  destruct (GameBoard_init_ok n Hn) as [Hinit Hok].
  pose proof (empty_count_initial n Hn) as Hec.
  pose proof (measure_bound (initial n) Player.A) as Hmb.
  assert (Hroom : room_for search_limit (initial n) ai_depth).
  { unfold room_for. destruct Hlimit as [?|?]; [left; lia|right; nia]. }
  destruct (play_loop_total search_limit ai_depth Hd fuel (initial n) Player.A 0
              Hok Hroom)
    as (g' & Hrun & Hok' & Hover & Hreach); [nia|].
  assert (Hr : reachable n g') by (apply Hreach; by apply reach_init).
  destruct (reachable_corners n g' Hn Hr) as [Ha _].
  apply get_cell_Some in Ha as [Hb0 Hc0]; [|apply Hok'].
  assert (Hfull : forall row col, in_bounds g' row col -> cell_at g' row col <> None).
  { apply (over_iff_full g' 0 0 Hok' Hb0); [by rewrite Hc0|done]. }
  rewrite (full_empty_count g' Hfull) in Hrun.
  replace (0 + Z.of_nat (empty_count (initial n)) - Z.of_nat 0) with (n * n - 2)
    in Hrun by lia.
  assert (exists winner, get_winner g' = Ok winner) as [winner Hw].
  { unfold get_winner. rewrite !get_max_value_ok by done. simpl.
    repeat case_bool_decide; eauto. }
  exists g', winner. split; [done|]. split; [|split; [done|split; [|done]]].
  - unfold play_game. rewrite Hinit. simpl. rewrite Hrun. simpl.
    rewrite !get_max_value_ok by done. simpl. by rewrite Hw.
  - intros row col Hb. destruct (cell_at g' row col) as [pv|] eqn:Hc.
    + exists pv. apply get_cell_Some; [apply Hok'|done].
    + by apply Hfull in Hb.
Qed.

Lemma play_game_finishes_witness :
  exists g' winner,
    play_loop 18 3 2 (initial 3) Player.A 0 = Done (g', 3 * 3 - 2) /\
    play_game 18 3 3 2 = Done (g', winner) /\
    reachable 3 g' /\
    (forall row col, in_bounds g' row col ->
       exists pv, get_cell g' row col = Ok (Some pv)) /\
    get_winner g' = Ok winner.
Proof. apply (play_game_finishes 18 3 3 2); lia. Defined.

(** * Pruning does not change the result *)

(** ** The order on scores *)

Definition slt (a b : score) : Prop :=
  match a, b with
  | NegInf, NegInf => False
  | NegInf, _ => True
  | Fin x, Fin y => x < y
  | Fin _, PosInf => True
  | _, _ => False
  end.

Definition sle (a b : score) : Prop :=
  match a, b with
  | NegInf, _ => True
  | Fin x, Fin y => x <= y
  | _, PosInf => True
  | _, _ => False
  end.

Lemma score_ltb_true (a b : score) : score_ltb a b = true <-> slt a b.
Proof. destruct a, b; simpl; rewrite ?bool_decide_eq_true; done. Qed.

Lemma score_ltb_false (a b : score) : score_ltb a b = false <-> sle b a.
Proof.
  destruct a, b; simpl; rewrite ?bool_decide_eq_false; try done. lia.
Qed.

Lemma score_leb_true (a b : score) : score_leb a b = true <-> sle a b.
Proof. unfold score_leb. by rewrite negb_true_iff, score_ltb_false. Qed.

Lemma score_leb_false (a b : score) : score_leb a b = false <-> slt b a.
Proof. unfold score_leb. by rewrite negb_false_iff, score_ltb_true. Qed.

(** Case analysis on the scores in sight, down to linear arithmetic. *)
Ltac score_lia :=
  repeat match goal with
         | H : score_ltb _ _ = true |- _ => apply score_ltb_true in H
         | H : score_ltb _ _ = false |- _ => apply score_ltb_false in H
         | H : score_leb _ _ = true |- _ => apply score_leb_true in H
         | H : score_leb _ _ = false |- _ => apply score_leb_false in H
         | |- score_ltb _ _ = true => apply score_ltb_true
         | |- score_ltb _ _ = false => apply score_ltb_false
         | |- score_leb _ _ = true => apply score_leb_true
         | |- score_leb _ _ = false => apply score_leb_false
         | |- context [score_ltb ?a ?b] => destruct (score_ltb a b) eqn:?
         | H : context [score_ltb ?a ?b] |- _ => destruct (score_ltb a b) eqn:?
         end;
  cbn [slt sle] in *;
  repeat match goal with
         | s : score |- _ =>
             destruct s; cbn [slt sle] in *; try contradiction; try discriminate
         end;
  repeat match goal with
         | H : Fin _ = Fin _ |- _ => injection H as H
         end;
  first [lia | done | (f_equal; lia)].

(** ** The values of the children *)

(** The largest and the smallest of a list of values, as scores. *)
Definition smax (l : list Z) : score :=
  foldr (fun z acc => score_max (Fin z) acc) NegInf l.
Definition smin (l : list Z) : score :=
  foldr (fun z acc => score_min (Fin z) acc) PosInf l.

Lemma smax_best_value (v : Z) (rest : list Z) :
  smax (v :: rest) = Fin (best_value true (v :: rest)).
Proof.
  simpl. revert v. induction rest as [|x rest IH]; intros v; [done|].
  simpl. specialize (IH v). fold (smax rest) in *.
  unfold score_max in *.
  destruct (smax rest); simpl in *; repeat (case_bool_decide; simpl in * );
    try discriminate; injection IH as IH; f_equal; lia.
Qed.

Lemma smin_best_value (v : Z) (rest : list Z) :
  smin (v :: rest) = Fin (best_value false (v :: rest)).
Proof.
  simpl. revert v. induction rest as [|x rest IH]; intros v; [done|].
  simpl. specialize (IH v). fold (smin rest) in *.
  unfold score_min in *.
  destruct (smin rest); simpl in *; repeat (case_bool_decide; simpl in * );
    try discriminate; injection IH as IH; f_equal; lia.
Qed.

Lemma first_with_cons (v : Z) (mv : move) (z : Z) (scored : list (move * Z)) :
  first_with v ((mv, z) :: scored) =
  if decide (z = v) then Some mv else first_with v scored.
Proof.
  unfold first_with. simpl. destruct (decide (z = v)); [done|].
  by destruct (list_find _ scored) as [[i [m z']]|].
Qed.

(** ** The bounds of a search with a window *)

(** What a search with the window [(alpha, beta)] promises about its
    result [r] when the exact value is [z]: above [alpha] the result is a
    lower bound of the exact value, below [beta] an upper bound, and so
    inside the window it is the exact value. *)
Definition within (alpha beta r : score) (z : Z) : Prop :=
  (slt alpha r -> sle r (Fin z)) /\ (slt r beta -> sle (Fin z) r).

(** The maximizing loop against the values of all the children. [me] is
    the running [max_eval], which is at most the running [alpha]. *)
Lemma max_loop_value (rec : GameBoard -> score -> score -> Z -> outcome answer)
    (recE : GameBoard -> outcome Z) (g : GameBoard) (cur : Player.t)
    (beta : score) (ms : list move) :
  board_ok g ->
  (forall mv, mv ∈ ms -> mv ∈ legal_moves g cur) ->
  (forall row col value, (row, col, value) ∈ ms -> forall a b k r m k' z,
     slt a b ->
     rec (place g row col cur value) a b k = Done (r, m, k') ->
     recE (place g row col cur value) = Done z ->
     within a b r z) ->
  forall scored, child_values recE g cur ms = Done scored ->
  forall alpha me bm n m bm' n',
    slt alpha beta -> sle me alpha ->
    max_loop rec g cur beta ms alpha me bm n = Done (m, bm', n') ->
    sle me m /\
    (slt alpha m -> sle m (smax scored.*2)) /\
    (slt m beta -> sle (smax scored.*2) m).
Proof.
  intros Hok. induction ms as [|[[row col] value] ms IH];
    intros Hlegal Hrec scored Hsc alpha me bm n m bm' n' Hab Hme Hrun.
  - simpl in Hsc, Hrun. injection Hsc as <-. injection Hrun as <- <- <-.
    simpl. clear Hrec Hlegal. score_lia.
  - rewrite child_values_cons in Hsc by (done || apply Hlegal; by left).
    destruct (recE (place g row col cur value)) as [z| |] eqn:Hz;
      simpl in Hsc; try done.
    destruct (child_values recE g cur ms) as [sc| |] eqn:Hrest;
      simpl in Hsc; try done.
    injection Hsc as <-.
    rewrite max_loop_cons in Hrun by (done || apply Hlegal; by left).
    destruct (rec (place g row col cur value) alpha beta n)
      as [[[r mr] n1]| |] eqn:Hr; try done.
    cbv zeta in Hrun.
    pose proof (Hrec row col value ltac:(by left) alpha beta n r mr n1 z Hab Hr Hz)
      as Hw.
    rewrite fmap_cons. cbn [snd].
    change (smax (z :: sc.*2)) with (score_max (Fin z) (smax sc.*2)).
    unfold score_max, within in *.
    destruct (score_leb beta _) eqn:Hcut.
    + injection Hrun as <- _ _.
      clear IH Hrec Hlegal Hr Hz Hrest. generalize (smax sc.*2). intros S.
      score_lia.
    + assert (sle (if score_ltb me r then r else me)
                  (if score_ltb alpha r then r else alpha)) as Hme'.
      { clear IH Hrec Hlegal Hr Hz Hrest Hrun Hw. score_lia. }
      apply score_leb_false in Hcut.
      specialize (IH (fun mv H => Hlegal mv (list_elem_of_further _ _ _ H))
                     (fun r c v H => Hrec r c v (list_elem_of_further _ _ _ H))
                     sc eq_refl _ _ _ _ _ _ _ Hcut Hme' Hrun).
      clear Hrec Hlegal Hr Hz Hrest Hrun Hme'. revert IH.
      generalize (smax sc.*2). intros S IH.
      score_lia.
Qed.

(** The move the maximizing loop keeps: when the result ends inside the
    window, it is the first move whose exact value equals the result. *)
Lemma max_loop_move (rec : GameBoard -> score -> score -> Z -> outcome answer)
    (recE : GameBoard -> outcome Z) (g : GameBoard) (cur : Player.t)
    (beta : score) (ms : list move) :
  board_ok g ->
  (forall mv, mv ∈ ms -> mv ∈ legal_moves g cur) ->
  (forall row col value, (row, col, value) ∈ ms -> forall a b k r m k' z,
     slt a b ->
     rec (place g row col cur value) a b k = Done (r, m, k') ->
     recE (place g row col cur value) = Done z ->
     within a b r z) ->
  forall scored, child_values recE g cur ms = Done scored ->
  forall alpha me bm n m bm' n',
    slt alpha beta -> sle me alpha ->
    max_loop rec g cur beta ms alpha me bm n = Done (m, bm', n') ->
    (sle m alpha -> me = alpha -> bm' = bm) /\
    (slt alpha m -> slt m beta ->
     forall z0, m = Fin z0 -> bm' = first_with z0 scored).
Proof.
  intros Hok. induction ms as [|[[row col] value] ms IH];
    intros Hlegal Hrec scored Hsc alpha me bm n m bm' n' Hab Hme Hrun.
  - simpl in Hsc, Hrun. injection Hsc as <-. injection Hrun as <- <- <-.
    split; [done|]. intros. exfalso. clear Hrec Hlegal. score_lia.
  - pose proof (max_loop_value rec recE g cur beta ms Hok
                  (fun mv H => Hlegal mv (list_elem_of_further _ _ _ H))
                  (fun r c v H => Hrec r c v (list_elem_of_further _ _ _ H)))
      as Hval.
    rewrite child_values_cons in Hsc by (done || apply Hlegal; by left).
    destruct (recE (place g row col cur value)) as [z| |] eqn:Hz;
      simpl in Hsc; try done.
    destruct (child_values recE g cur ms) as [sc| |] eqn:Hrest;
      simpl in Hsc; try done.
    injection Hsc as <-.
    rewrite max_loop_cons in Hrun by (done || apply Hlegal; by left).
    destruct (rec (place g row col cur value) alpha beta n)
      as [[[r mr] n1]| |] eqn:Hr; try done.
    cbv zeta in Hrun.
    pose proof (Hrec row col value ltac:(by left) alpha beta n r mr n1 z Hab Hr Hz)
      as Hw.
    unfold score_max, within in *.
    destruct (score_leb beta _) eqn:Hcut.
    + injection Hrun as <- _ _.
      clear IH Hval Hrec Hlegal Hr Hz Hrest.
      split; intros; exfalso; score_lia.
    + assert (sle (if score_ltb me r then r else me)
                  (if score_ltb alpha r then r else alpha)) as Hme'.
      { clear IH Hval Hrec Hlegal Hr Hz Hrest Hrun Hw. score_lia. }
      apply score_leb_false in Hcut.
      specialize (IH (fun mv H => Hlegal mv (list_elem_of_further _ _ _ H))
                     (fun r c v H => Hrec r c v (list_elem_of_further _ _ _ H))
                     sc eq_refl _ _ _ _ _ _ _ Hcut Hme' Hrun).
      specialize (Hval sc eq_refl _ _ _ _ _ _ _ Hcut Hme' Hrun).
      clear Hrec Hlegal Hr Hz Hrest Hrun Hme'.
      destruct IH as [IH1 IH2]. revert Hval. generalize (smax sc.*2).
      intros S Hval. split.
      * intros Hm Heq.
        assert (score_ltb me r = false) as E1 by (clear IH1 IH2; score_lia).
        assert (score_ltb alpha r = false) as E2 by (clear IH1 IH2; score_lia).
        rewrite E1, E2 in IH1. apply IH1; [done|done].
      * intros Ham Hmb z0 ->. rewrite first_with_cons.
        destruct (score_ltb (if score_ltb alpha r then r else alpha) (Fin z0))
          eqn:Hin.
        -- rewrite (IH2 (proj1 (score_ltb_true _ _) Hin) Hmb z0 eq_refl).
           rewrite decide_False; [done|]. clear IH1 IH2. intros ->. score_lia.
        -- assert (score_ltb me r = true) as E1 by (clear IH1 IH2; score_lia).
           assert (score_ltb alpha r = true) as E2 by (clear IH1 IH2; score_lia).
           rewrite E1, E2 in *.
           assert (r = Fin z0) as -> by (clear IH1 IH2; score_lia).
           rewrite IH1 by (done || (simpl; lia)).
           rewrite decide_True; [done|]. clear IH1 IH2. score_lia.
Qed.

(** The minimizing loop, symmetrically: [me] is the running [min_eval],
    which is at least the running [beta]. *)
Lemma min_loop_value (rec : GameBoard -> score -> score -> Z -> outcome answer)
    (recE : GameBoard -> outcome Z) (g : GameBoard) (cur : Player.t)
    (alpha : score) (ms : list move) :
  board_ok g ->
  (forall mv, mv ∈ ms -> mv ∈ legal_moves g cur) ->
  (forall row col value, (row, col, value) ∈ ms -> forall a b k r m k' z,
     slt a b ->
     rec (place g row col cur value) a b k = Done (r, m, k') ->
     recE (place g row col cur value) = Done z ->
     within a b r z) ->
  forall scored, child_values recE g cur ms = Done scored ->
  forall beta me bm n m bm' n',
    slt alpha beta -> sle beta me ->
    min_loop rec g cur alpha ms beta me bm n = Done (m, bm', n') ->
    sle m me /\
    (slt alpha m -> sle m (smin scored.*2)) /\
    (slt m beta -> sle (smin scored.*2) m).
Proof.
  intros Hok. induction ms as [|[[row col] value] ms IH];
    intros Hlegal Hrec scored Hsc beta me bm n m bm' n' Hab Hme Hrun.
  - simpl in Hsc, Hrun. injection Hsc as <-. injection Hrun as <- <- <-.
    simpl. clear Hrec Hlegal. score_lia.
  - rewrite child_values_cons in Hsc by (done || apply Hlegal; by left).
    destruct (recE (place g row col cur value)) as [z| |] eqn:Hz;
      simpl in Hsc; try done.
    destruct (child_values recE g cur ms) as [sc| |] eqn:Hrest;
      simpl in Hsc; try done.
    injection Hsc as <-.
    rewrite min_loop_cons in Hrun by (done || apply Hlegal; by left).
    destruct (rec (place g row col cur value) alpha beta n)
      as [[[r mr] n1]| |] eqn:Hr; try done.
    cbv zeta in Hrun.
    pose proof (Hrec row col value ltac:(by left) alpha beta n r mr n1 z Hab Hr Hz)
      as Hw.
    rewrite fmap_cons. cbn [snd].
    change (smin (z :: sc.*2)) with (score_min (Fin z) (smin sc.*2)).
    unfold score_min, within in *.
    destruct (score_leb _ alpha) eqn:Hcut.
    + injection Hrun as <- _ _.
      clear IH Hrec Hlegal Hr Hz Hrest. generalize (smin sc.*2). intros S.
      score_lia.
    + assert (sle (if score_ltb r beta then r else beta)
                  (if score_ltb r me then r else me)) as Hme'.
      { clear IH Hrec Hlegal Hr Hz Hrest Hrun Hw. score_lia. }
      apply score_leb_false in Hcut.
      specialize (IH (fun mv H => Hlegal mv (list_elem_of_further _ _ _ H))
                     (fun r c v H => Hrec r c v (list_elem_of_further _ _ _ H))
                     sc eq_refl _ _ _ _ _ _ _ Hcut Hme' Hrun).
      clear Hrec Hlegal Hr Hz Hrest Hrun Hme'. revert IH.
      generalize (smin sc.*2). intros S IH.
      score_lia.
Qed.

Lemma min_loop_move (rec : GameBoard -> score -> score -> Z -> outcome answer)
    (recE : GameBoard -> outcome Z) (g : GameBoard) (cur : Player.t)
    (alpha : score) (ms : list move) :
  board_ok g ->
  (forall mv, mv ∈ ms -> mv ∈ legal_moves g cur) ->
  (forall row col value, (row, col, value) ∈ ms -> forall a b k r m k' z,
     slt a b ->
     rec (place g row col cur value) a b k = Done (r, m, k') ->
     recE (place g row col cur value) = Done z ->
     within a b r z) ->
  forall scored, child_values recE g cur ms = Done scored ->
  forall beta me bm n m bm' n',
    slt alpha beta -> sle beta me ->
    min_loop rec g cur alpha ms beta me bm n = Done (m, bm', n') ->
    (sle beta m -> me = beta -> bm' = bm) /\
    (slt alpha m -> slt m beta ->
     forall z0, m = Fin z0 -> bm' = first_with z0 scored).
Proof.
  intros Hok. induction ms as [|[[row col] value] ms IH];
    intros Hlegal Hrec scored Hsc beta me bm n m bm' n' Hab Hme Hrun.
  - simpl in Hsc, Hrun. injection Hsc as <-. injection Hrun as <- <- <-.
    split; [done|]. intros. exfalso. clear Hrec Hlegal. score_lia.
  - pose proof (min_loop_value rec recE g cur alpha ms Hok
                  (fun mv H => Hlegal mv (list_elem_of_further _ _ _ H))
                  (fun r c v H => Hrec r c v (list_elem_of_further _ _ _ H)))
      as Hval.
    rewrite child_values_cons in Hsc by (done || apply Hlegal; by left).
    destruct (recE (place g row col cur value)) as [z| |] eqn:Hz;
      simpl in Hsc; try done.
    destruct (child_values recE g cur ms) as [sc| |] eqn:Hrest;
      simpl in Hsc; try done.
    injection Hsc as <-.
    rewrite min_loop_cons in Hrun by (done || apply Hlegal; by left).
    destruct (rec (place g row col cur value) alpha beta n)
      as [[[r mr] n1]| |] eqn:Hr; try done.
    cbv zeta in Hrun.
    pose proof (Hrec row col value ltac:(by left) alpha beta n r mr n1 z Hab Hr Hz)
      as Hw.
    unfold score_min, within in *.
    destruct (score_leb _ alpha) eqn:Hcut.
    + injection Hrun as <- _ _.
      clear IH Hval Hrec Hlegal Hr Hz Hrest.
      split; intros; exfalso; score_lia.
    + assert (sle (if score_ltb r beta then r else beta)
                  (if score_ltb r me then r else me)) as Hme'.
      { clear IH Hval Hrec Hlegal Hr Hz Hrest Hrun Hw. score_lia. }
      apply score_leb_false in Hcut.
      specialize (IH (fun mv H => Hlegal mv (list_elem_of_further _ _ _ H))
                     (fun r c v H => Hrec r c v (list_elem_of_further _ _ _ H))
                     sc eq_refl _ _ _ _ _ _ _ Hcut Hme' Hrun).
      specialize (Hval sc eq_refl _ _ _ _ _ _ _ Hcut Hme' Hrun).
      clear Hrec Hlegal Hr Hz Hrest Hrun Hme'.
      destruct IH as [IH1 IH2]. revert Hval. generalize (smin sc.*2).
      intros S Hval. split.
      * intros Hm Heq.
        assert (score_ltb r me = false) as E1 by (clear IH1 IH2; score_lia).
        assert (score_ltb r beta = false) as E2 by (clear IH1 IH2; score_lia).
        rewrite E1, E2 in IH1. apply IH1; [done|done].
      * intros Ham Hmb z0 ->. rewrite first_with_cons.
        destruct (score_ltb (Fin z0) (if score_ltb r beta then r else beta))
          eqn:Hin.
        -- rewrite (IH2 Ham (proj1 (score_ltb_true _ _) Hin) z0 eq_refl).
           rewrite decide_False; [done|]. clear IH1 IH2. intros ->. score_lia.
        -- assert (score_ltb r me = true) as E1 by (clear IH1 IH2; score_lia).
           assert (score_ltb r beta = true) as E2 by (clear IH1 IH2; score_lia).
           rewrite E1, E2 in *.
           assert (r = Fin z0) as -> by (clear IH1 IH2; score_lia).
           rewrite IH1 by (done || (simpl; lia)).
           rewrite decide_True; [done|]. clear IH1 IH2. score_lia.
Qed.

(** ** The exhaustive search *)

Lemma child_values_fst (rec : GameBoard -> outcome Z) (g : GameBoard)
    (cur : Player.t) (ms : list move) (scored : list (move * Z)) :
  child_values rec g cur ms = Done scored -> scored.*1 = ms.
Proof.
  revert scored. induction ms as [|[[row col] value] ms IH]; intros scored H;
    simpl in H.
  - by injection H as <-.
  - destruct (lift (copy g)) as [nb| |]; simpl in H; try done.
    destruct (lift (make_move nb row col cur value)) as [[b nb']| |];
      simpl in H; try done.
    destruct (rec nb') as [s| |]; simpl in H; try done.
    destruct (child_values rec g cur ms) as [sc| |]; simpl in H; try done.
    injection H as <-. simpl. f_equal. by apply IH.
Qed.

Lemma child_values_mono (rec rec' : GameBoard -> outcome Z) (g : GameBoard)
    (cur : Player.t) (ms : list move) (scored : list (move * Z)) :
  (forall nb z, rec nb = Done z -> rec' nb = Done z) ->
  child_values rec g cur ms = Done scored ->
  child_values rec' g cur ms = Done scored.
Proof.
  intros Hrec. revert scored.
  induction ms as [|[[row col] value] ms IH]; intros scored H; [done|].
  simpl in *.
  destruct (lift (copy g)) as [nb| |]; simpl in *; try done.
  destruct (lift (make_move nb row col cur value)) as [[b nb']| |];
    simpl in *; try done.
  destruct (rec nb') as [s| |] eqn:Hs; simpl in H; try done.
  rewrite (Hrec _ _ Hs). simpl.
  destruct (child_values rec g cur ms) as [sc| |]; simpl in H; try done.
  by rewrite (IH sc eq_refl).
Qed.

Lemma child_values_total (rec : GameBoard -> outcome Z) (g : GameBoard)
    (cur : Player.t) (ms : list move) :
  board_ok g ->
  (forall mv, mv ∈ ms -> mv ∈ legal_moves g cur) ->
  (forall row col value, (row, col, value) ∈ ms ->
     exists z, rec (place g row col cur value) = Done z) ->
  exists scored, child_values rec g cur ms = Done scored.
Proof.
  intros Hok. induction ms as [|[[row col] value] ms IH]; intros Hlegal Hrec.
  - by exists [].
  - rewrite child_values_cons by (done || apply Hlegal; by left).
    destruct (Hrec row col value ltac:(by left)) as [z ->].
    destruct (IH (fun mv H => Hlegal mv (list_elem_of_further _ _ _ H))
                 (fun r c v H => Hrec r c v (list_elem_of_further _ _ _ H)))
      as [sc ->].
    simpl. eauto.
Qed.

(** With more fuel than the measure the exhaustive search returns. *)
Lemma exhaustive_total (fuel : nat) :
  forall g depth mx p,
    board_ok g -> (measure g (mover mx p) < fuel)%nat ->
    exists z mv, exhaustive fuel g depth mx p = Done (z, mv).
Proof.
  induction fuel as [|fuel IH]; intros g depth mx p Hok Hfuel; [lia|].
  rewrite exhaustive_step by done. cbv zeta. fold (mover mx p).
  destruct (bool_decide (depth = 0)); simpl; [by eauto|].
  destruct (over g) eqn:Hover; simpl; [by eauto|].
  case_bool_decide as Hnil.
  - apply IH; [done|]. rewrite mover_negb.
    pose proof (measure_pass g (mover mx p) Hover Hnil). lia.
  - destruct (child_values_total
                (fun nb => r ← exhaustive fuel nb (depth - 1) (negb mx) p; Done r.1)
                g (mover mx p) (legal_moves g (mover mx p)) Hok (fun mv H => H))
      as [scored ->]; [|simpl; by eauto].
    intros row col value Hin.
    destruct (legal_moves_place g _ row col value Hok Hin) as (_ & _ & Hok' & _).
    destruct (IH (place g row col (mover mx p) value) (depth - 1) (negb mx) p Hok')
      as (z & mv & ->); [|simpl; by eauto].
    pose proof (measure_move g (mover mx p) (mover (negb mx) p) row col value
                  Hok Hin). lia.
Qed.

Lemma exhaustive_fuel_S (fuel : nat) :
  forall g depth mx p x,
    exhaustive fuel g depth mx p = Done x ->
    exhaustive (S fuel) g depth mx p = Done x.
Proof.
  induction fuel as [|fuel IH]; intros g depth mx p x; [done|].
  intros H. cbn [exhaustive] in H. cbn [exhaustive].
  destruct (if bool_decide (depth = 0) then Done true else lift (is_game_over g))
    as [[|]| |]; simpl in *; [done| |done|done].
  destruct (lift (get_valid_moves g _)) as [ms| |]; simpl in *; [|done|done].
  destruct (bool_decide (ms = [])); [by apply IH|].
  destruct (child_values _ g _ ms) as [scored| |] eqn:Hsc; simpl in H; try done.
  erewrite child_values_mono; [exact H| |exact Hsc].
  intros nb z Hz. simpl in Hz.
  destruct (exhaustive fuel nb (depth - 1) (negb mx) p) as [y| |] eqn:Hy;
    simpl in Hz; try done.
  by rewrite (IH _ _ _ _ _ Hy).
Qed.

Lemma exhaustive_fuel_le (fuel fuel' : nat) g depth mx p x :
  (fuel <= fuel')%nat ->
  exhaustive fuel g depth mx p = Done x ->
  exhaustive fuel' g depth mx p = Done x.
Proof.
  intros Hle H. induction Hle as [|fuel' _ IH]; [done|].
  by apply exhaustive_fuel_S.
Qed.

(** ** The pruned search against the exhaustive one *)

Lemma minimax_within (fuel : nat) :
  forall g depth alpha beta mx p n r mv n' z mvE,
    board_ok g -> slt alpha beta ->
    minimax fuel g depth alpha beta mx p n = Done (r, mv, n') ->
    exhaustive fuel g depth mx p = Done (z, mvE) ->
    within alpha beta r z /\ (slt alpha r -> slt r beta -> mv = mvE).
Proof.
  induction fuel as [|fuel IH];
    intros g depth alpha beta mx p n r mv n' z mvE Hok Hab HM HE; [done|].
  rewrite minimax_step in HM by done. rewrite exhaustive_step in HE by done.
  cbv zeta in HM, HE.
  destruct (bool_decide (depth = 0) || over g).
  { injection HM as <- <- _. injection HE as <- <-.
    split; [|done]. unfold within. simpl. lia. }
  destruct (bool_decide (legal_moves g _ = [])) eqn:Hnil.
  { by apply (IH g (depth - 1) alpha beta (negb mx) p (n + 1) r mv n' z mvE). }
  apply bool_decide_eq_false in Hnil.
  destruct (child_values _ g _ _) as [scored| |] eqn:Hsc; simpl in HE; try done.
  injection HE as <- <-.
  pose proof (child_values_fst _ _ _ _ _ Hsc) as Hfst.
  destruct scored as [|[m0 v0] rest]; [by rewrite <- Hfst in Hnil|].
  assert (Hrec : forall flag row col value,
            (row, col, value) ∈ legal_moves g (if mx then p else Player.other p) ->
            forall a b k r m k' z,
              slt a b ->
              minimax fuel (place g row col (if mx then p else Player.other p) value)
                      (depth - 1) a b flag p k = Done (r, m, k') ->
              (y ← exhaustive fuel
                     (place g row col (if mx then p else Player.other p) value)
                     (depth - 1) flag p; Done y.1) = Done z ->
              within a b r z).
  { intros flag row col value Hin a b k r1 m1 k1 z1 Hab1 Hm1 He1.
    destruct (legal_moves_place g _ row col value Hok Hin) as (_ & _ & Hok' & _).
    destruct (exhaustive fuel _ (depth - 1) flag p) as [[z2 mv2]| |] eqn:He2;
      simpl in He1; try done.
    injection He1 as <-.
    by apply (IH _ _ _ _ _ _ _ _ _ _ _ _ Hok' Hab1 Hm1 He2). }
  destruct mx.
  - destruct (max_loop_value _ _ g p beta _ Hok (fun mv H => H) (Hrec false)
                _ Hsc alpha NegInf None (n + 1) r mv n' Hab I HM)
      as (_ & Hlo & Hhi).
    destruct (max_loop_move _ _ g p beta _ Hok (fun mv H => H) (Hrec false)
                _ Hsc alpha NegInf None (n + 1) r mv n' Hab I HM)
      as (_ & Hmove).
    rewrite fmap_cons in *. cbn [snd] in *. rewrite smax_best_value in Hlo, Hhi.
    split; [done|]. intros Har Hrb. apply Hmove; [done|done|].
    specialize (Hlo Har). specialize (Hhi Hrb).
    clear Hmove Hrec Hsc HM IH. revert Hlo Hhi.
    generalize (best_value true (v0 :: rest.*2)). intros bv Hlo Hhi.
    destruct r; simpl in *; try done. f_equal. lia.
  - destruct (min_loop_value _ _ g (Player.other p) alpha _ Hok (fun mv H => H)
                (Hrec true) _ Hsc beta PosInf None (n + 1) r mv n' Hab
                ltac:(by destruct beta) HM)
      as (_ & Hlo & Hhi).
    destruct (min_loop_move _ _ g (Player.other p) alpha _ Hok (fun mv H => H)
                (Hrec true) _ Hsc beta PosInf None (n + 1) r mv n' Hab
                ltac:(by destruct beta) HM)
      as (_ & Hmove).
    rewrite fmap_cons in *. cbn [snd] in *. rewrite smin_best_value in Hlo, Hhi.
    split; [done|]. intros Har Hrb. apply Hmove; [done|done|].
    specialize (Hlo Har). specialize (Hhi Hrb).
    clear Hmove Hrec Hsc HM IH. revert Hlo Hhi.
    generalize (best_value false (v0 :: rest.*2)). intros bv Hlo Hhi.
    destruct r; simpl in *; try done. f_equal. lia.
Qed.

Lemma exhaustive_total_depth (fuel : nat) :
  forall g depth mx p,
    board_ok g -> 0 <= depth < Z.of_nat fuel ->
    exists z mv, exhaustive fuel g depth mx p = Done (z, mv).
Proof.
  induction fuel as [|fuel IH]; intros g depth mx p Hok Hfuel; [lia|].
  rewrite exhaustive_step by done. cbv zeta. fold (mover mx p).
  destruct (decide (depth = 0)) as [Hd|Hd].
  { rewrite (bool_decide_eq_true_2 _ Hd). simpl. by eauto. }
  rewrite (bool_decide_eq_false_2 _ Hd). simpl.
  destruct (over g) eqn:Hover; simpl; [by eauto|].
  case_bool_decide as Hnil.
  - apply IH; [done|lia].
  - destruct (child_values_total
                (fun nb => r ← exhaustive fuel nb (depth - 1) (negb mx) p; Done r.1)
                g (mover mx p) (legal_moves g (mover mx p)) Hok (fun mv H => H))
      as [scored ->]; [|simpl; by eauto].
    intros row col value Hin.
    destruct (legal_moves_place g _ row col value Hok Hin) as (_ & _ & Hok' & _).
    destruct (IH (place g row col (mover mx p) value) (depth - 1) (negb mx) p Hok')
      as (z & mv & ->); [lia|simpl; by eauto].
Qed.

Lemma exhaustive_room (limit : nat) (g : GameBoard) (depth : Z) (mx : bool)
    (p : Player.t) :
  board_ok g -> room_for limit g depth ->
  exists z mv, exhaustive limit g depth mx p = Done (z, mv).
Proof.
  intros Hok [Hd|He].
  - by apply exhaustive_total_depth.
  - apply exhaustive_total; [done|].
    pose proof (measure_bound g (mover mx p)). lia.
Qed.

(** Both searches return, with results that do not depend on the limit,
    as soon as the limit leaves room. *)
Lemma minimax_exhaustive_room (g : GameBoard) (depth : Z) (alpha beta : score)
    (mx : bool) (p : Player.t) (n : Z) :
  board_ok g ->
  exists r mv n' z mvE,
    forall limit, room_for limit g depth ->
      minimax limit g depth alpha beta mx p n = Done (r, mv, n') /\
      exhaustive limit g depth mx p = Done (z, mvE).
Proof.
  intros Hok.
  destruct (minimax_total (2 * empty_count g + 2) g depth alpha beta mx p n Hok
              (measure_bound g (mover mx p))) as (s & mv & n' & HM & _).
  destruct (exhaustive_total (2 * empty_count g + 2) g depth mx p Hok
              (measure_bound g (mover mx p))) as (z & mvE & HE).
  exists (Fin s), mv, n', z, mvE. intros limit Hroom.
  destruct (minimax_room limit g depth alpha beta mx p n Hok Hroom)
    as (s2 & mv2 & n2 & HM2 & _).
  destruct (exhaustive_room limit g depth mx p Hok Hroom) as (z2 & mvE2 & HE2).
  rewrite HM2, HE2.
  apply (minimax_fuel_le _ (Nat.max limit (2 * empty_count g + 2))) in HM2; [|lia].
  apply (minimax_fuel_le _ (Nat.max limit (2 * empty_count g + 2))) in HM; [|lia].
  apply (exhaustive_fuel_le _ (Nat.max limit (2 * empty_count g + 2))) in HE2; [|lia].
  apply (exhaustive_fuel_le _ (Nat.max limit (2 * empty_count g + 2))) in HE; [|lia].
  rewrite HM in HM2. rewrite HE in HE2.
  injection HM2 as <- <- <-. by injection HE2 as <- <-.
Qed.

Lemma room_for_bound (g : GameBoard) (depth : Z) :
  room_for (2 * empty_count g + 2) g depth.
Proof. right. lia. Qed.

Lemma minimax_full_window_eq (limit : nat) (g : GameBoard) (depth : Z)
    (mx : bool) (p : Player.t) (n : Z) r mv n' z mvE :
  board_ok g ->
  minimax limit g depth NegInf PosInf mx p n = Done (r, mv, n') ->
  exhaustive limit g depth mx p = Done (z, mvE) ->
  r = Fin z /\ mv = mvE.
Proof.
  intros Hok HM HE.
  destruct (minimax_within _ g depth NegInf PosInf mx p n r mv n' z mvE Hok I HM HE)
    as [[Hlo Hhi] Hmv].
  assert (r = Fin z) as ->.
  { clear HM HE Hmv. destruct r; cbn [slt sle] in *.
    - by destruct Hhi.
    - f_equal. specialize (Hlo I). specialize (Hhi I). lia.
    - by destruct Hlo. }
  split; [done|]. by apply Hmv.
Qed.

Lemma minimax_full_window (g : GameBoard) (depth : Z) (mx : bool)
    (p : Player.t) (n : Z) :
  board_ok g ->
  exists z mv n',
    forall limit, room_for limit g depth ->
      minimax limit g depth NegInf PosInf mx p n = Done (Fin z, mv, n') /\
      exhaustive limit g depth mx p = Done (z, mv).
Proof.
  intros Hok.
  destruct (minimax_exhaustive_room g depth NegInf PosInf mx p n Hok)
    as (r & mv & n' & z & mvE & Hrun).
  destruct (Hrun _ (room_for_bound g depth)) as [HM HE].
  destruct (minimax_full_window_eq _ _ _ _ _ _ _ _ _ _ _ Hok HM HE) as [-> ->].
  by exists z, mvE, n'.
Qed.

(** ** What the reference returns *)

Lemma best_value_max (v : Z) (rest : list Z) :
  best_value true (v :: rest) ∈ v :: rest /\
  forall x, x ∈ v :: rest -> x <= best_value true (v :: rest).
Proof.
  simpl. induction rest as [|y rest [IHin IHle]]; simpl.
  - split; [by left|]. intros x Hx. apply list_elem_of_singleton in Hx. lia.
  - split.
    + destruct (Z.max_spec y (foldr Z.max v rest)) as [[_ ->]|[_ ->]].
      * apply elem_of_cons in IHin as [->|Hin]; [by left|].
        by do 2 right.
      * right. by left.
    + intros x Hx. apply elem_of_cons in Hx as [->|Hx].
      * specialize (IHle v ltac:(by left)). lia.
      * apply elem_of_cons in Hx as [->|Hx]; [lia|].
        specialize (IHle x ltac:(by right)). lia.
Qed.

Lemma best_value_min (v : Z) (rest : list Z) :
  best_value false (v :: rest) ∈ v :: rest /\
  forall x, x ∈ v :: rest -> best_value false (v :: rest) <= x.
Proof.
  simpl. induction rest as [|y rest [IHin IHle]]; simpl.
  - split; [by left|]. intros x Hx. apply list_elem_of_singleton in Hx. lia.
  - split.
    + destruct (Z.min_spec y (foldr Z.min v rest)) as [[_ ->]|[_ ->]].
      * right. by left.
      * apply elem_of_cons in IHin as [->|Hin]; [by left|].
        by do 2 right.
    + intros x Hx. apply elem_of_cons in Hx as [->|Hx].
      * specialize (IHle v ltac:(by left)). lia.
      * apply elem_of_cons in Hx as [->|Hx]; [lia|].
        specialize (IHle x ltac:(by right)). lia.
Qed.

Lemma first_with_spec (v : Z) (scored : list (move * Z)) (m : move) :
  first_with v scored = Some m <->
  exists i, scored !! i = Some (m, v) /\
    forall j m' v', (j < i)%nat -> scored !! j = Some (m', v') -> v' <> v.
Proof.
  revert m. induction scored as [|[m0 v0] scored IH]; intros m.
  - split; [done|]. by intros (i & Hi & _).
  - rewrite first_with_cons. destruct (decide (v0 = v)) as [->|Hne].
    + split.
      * intros [= ->]. exists 0%nat. split; [done|]. intros j ? ? Hj. lia.
      * intros ([|i] & Hi & Hfirst).
        -- by injection Hi as ->.
        -- by destruct (Hfirst 0%nat m0 v ltac:(lia) eq_refl).
    + rewrite IH. split.
      * intros (i & Hi & Hfirst). exists (S i). split; [done|].
        intros [|j] m' v' Hj Hl.
        -- by injection Hl as <- <-.
        -- apply (Hfirst j m' v'); [lia|done].
      * intros ([|i] & Hi & Hfirst).
        -- injection Hi as -> ->. done.
        -- exists i. split; [done|]. intros j m' v' Hj Hl.
           apply (Hfirst (S j) m' v'); [lia|done].
Qed.

Lemma first_with_elem (v : Z) (scored : list (move * Z)) :
  v ∈ scored.*2 -> is_Some (first_with v scored).
Proof.
  induction scored as [|[m0 v0] scored IH]; intros Hin.
  - by apply elem_of_nil in Hin.
  - rewrite first_with_cons. destruct (decide (v0 = v)) as [->|Hne]; [by eauto|].
    apply IH. rewrite fmap_cons in Hin. apply elem_of_cons in Hin as [->|Hin]; done.
Qed.

Lemma child_values_lookup (rec : GameBoard -> outcome Z) (g : GameBoard)
    (cur : Player.t) (ms : list move) :
  board_ok g ->
  (forall mv, mv ∈ ms -> mv ∈ legal_moves g cur) ->
  forall scored, child_values rec g cur ms = Done scored ->
  forall i row col value v,
    scored !! i = Some (row, col, value, v) ->
    rec (place g row col cur value) = Done v.
Proof.
  intros Hok. induction ms as [|[[r c] w] ms IH]; intros Hlegal scored Hsc.
  - injection Hsc as <-. intros i ? ? ? ? Hi. done.
  - rewrite child_values_cons in Hsc by (done || apply Hlegal; by left).
    destruct (rec (place g r c cur w)) as [z| |] eqn:Hz; simpl in Hsc; try done.
    destruct (child_values rec g cur ms) as [sc| |] eqn:Hrest;
      simpl in Hsc; try done.
    injection Hsc as <-. intros [|i] row col value v Hi.
    + by injection Hi as <- <- <- <-.
    + by apply (IH (fun mv H => Hlegal mv (list_elem_of_further _ _ _ H))
                   sc eq_refl i).
Qed.

(** The reference at a position where the mover chooses: its value is the
    largest (for the minimizing side, the smallest) of the values of the
    children, and its move is the first one, in the order of the moves,
    whose child has that value. *)
Lemma exhaustive_root (fuel : nat) (g : GameBoard) (depth : Z) (mx : bool)
    (p : Player.t) (z : Z) (mv : option move) :
  board_ok g -> depth <> 0 -> legal_moves g (mover mx p) <> [] ->
  exhaustive (S fuel) g depth mx p = Done (z, mv) ->
  exists scored,
    scored.*1 = legal_moves g (mover mx p) /\
    (forall i row col value v,
       scored !! i = Some (row, col, value, v) ->
       exists m', exhaustive fuel (place g row col (mover mx p) value)
                    (depth - 1) (negb mx) p = Done (v, m')) /\
    (forall x, x ∈ scored.*2 -> if mx then x <= z else z <= x) /\
    exists i m,
      mv = Some m /\ scored !! i = Some (m, z) /\
      forall j m' v', (j < i)%nat -> scored !! j = Some (m', v') -> v' <> z.
Proof.
  intros Hok Hd Hne. rewrite exhaustive_step by done. cbv zeta.
  fold (mover mx p).
  rewrite (bool_decide_eq_false_2 _ Hd), (not_over_of_moves g _ Hne).
  rewrite (bool_decide_eq_false_2 _ Hne). simpl.
  destruct (child_values _ g _ _) as [scored| |] eqn:Hsc; simpl; try done.
  intros [= <- <-]. exists scored.
  pose proof (child_values_fst _ _ _ _ _ Hsc) as Hfst.
  split; [done|]. split; [|split].
  - intros i row col value v Hi.
    pose proof (child_values_lookup _ g _ _ Hok (fun mv H => H) scored Hsc
                  i row col value v Hi) as Hv. simpl in Hv.
    destruct (exhaustive fuel _ (depth - 1) (negb mx) p) as [[v' m']| |];
      simpl in Hv; try done.
    injection Hv as ->. by exists m'.
  - destruct scored as [|[m0 v0] rest]; [by rewrite <- Hfst in Hne|].
    rewrite fmap_cons. cbn [snd]. intros x Hx. destruct mx.
    + by apply best_value_max.
    + by apply best_value_min.
  - assert (best_value mx scored.*2 ∈ scored.*2) as Hin.
    { destruct scored as [|[m0 v0] rest]; [by rewrite <- Hfst in Hne|].
      rewrite fmap_cons. cbn [snd]. destruct mx.
      - apply best_value_max.
      - apply best_value_min. }
    destruct (first_with_elem _ _ Hin) as [m Hm]. rewrite Hm.
    apply first_with_spec in Hm as (i & Hi & Hfirst). by exists i, m.
Qed.

(** C2. Pruning does not change the result. On a board that satisfies the
    occupancy invariant, for every depth and either side:
    - called with the full window, [minimax] returns the value and the
      move of the exhaustive search of the same tree, the same for every
      recursion limit that leaves room for the nesting;
    - whenever the two searches return under one limit, their values and
      moves agree;
    - where the mover chooses, the value of the exhaustive search is the
      largest (smallest, for the minimizing side) of the values of the
      children, and the move is the first one, in the order of
      [get_valid_moves], whose child has that value: a later move with the
      same value does not replace it. *)
Theorem minimax_exact (g : GameBoard) (depth : Z) (mx : bool)
    (p : Player.t) (n : Z) :
  board_ok g ->
  (exists z mv n',
     forall limit, room_for limit g depth ->
       minimax limit g depth NegInf PosInf mx p n = Done (Fin z, mv, n') /\
       exhaustive limit g depth mx p = Done (z, mv)) /\
  (forall limit r mv n' z mvE,
     minimax limit g depth NegInf PosInf mx p n = Done (r, mv, n') ->
     exhaustive limit g depth mx p = Done (z, mvE) ->
     r = Fin z /\ mv = mvE) /\
  (forall fuel z mv,
     depth <> 0 -> legal_moves g (mover mx p) <> [] ->
     exhaustive (S fuel) g depth mx p = Done (z, mv) ->
     exists scored,
       scored.*1 = legal_moves g (mover mx p) /\
       (forall i row col value v,
          scored !! i = Some (row, col, value, v) ->
          exists m', exhaustive fuel (place g row col (mover mx p) value)
                       (depth - 1) (negb mx) p = Done (v, m')) /\
       (forall x, x ∈ scored.*2 -> if mx then x <= z else z <= x) /\
       exists i m,
         mv = Some m /\ scored !! i = Some (m, z) /\
         forall j m' v', (j < i)%nat -> scored !! j = Some (m', v') -> v' <> z).
Proof.
  intros Hok. split; [by apply minimax_full_window|]. split.
  - intros limit r mv n' z mvE. by apply minimax_full_window_eq.
  - intros fuel z mv Hd Hne. by apply exhaustive_root.
Qed.

Lemma minimax_exact_witness :
  (exists z mv n',
     forall limit, room_for limit (initial 3) 3 ->
       minimax limit (initial 3) 3 NegInf PosInf true Player.A 0
       = Done (Fin z, mv, n') /\
       exhaustive limit (initial 3) 3 true Player.A = Done (z, mv)) /\
  (forall limit r mv n' z mvE,
     minimax limit (initial 3) 3 NegInf PosInf true Player.A 0
     = Done (r, mv, n') ->
     exhaustive limit (initial 3) 3 true Player.A = Done (z, mvE) ->
     r = Fin z /\ mv = mvE) /\
  (forall fuel z mv,
     3 <> 0 -> legal_moves (initial 3) (mover true Player.A) <> [] ->
     exhaustive (S fuel) (initial 3) 3 true Player.A = Done (z, mv) ->
     exists scored,
       scored.*1 = legal_moves (initial 3) (mover true Player.A) /\
       (forall i row col value v,
          scored !! i = Some (row, col, value, v) ->
          exists m', exhaustive fuel
                       (place (initial 3) row col (mover true Player.A) value)
                       (3 - 1) (negb true) Player.A = Done (v, m')) /\
       (forall x, x ∈ scored.*2 -> if true then x <= z else z <= x) /\
       exists i m,
         mv = Some m /\ scored !! i = Some (m, z) /\
         forall j m' v', (j < i)%nat -> scored !! j = Some (m', v') -> v' <> z).
Proof.
  apply (minimax_exact (initial 3) 3 true Player.A 0).
  apply initial_board_ok. lia.
Defined.

(** X14. What a search with a window promises. For every window with
    [alpha < beta], every depth and either side, the pruned search and the
    exhaustive one both return under every recursion limit that leaves
    room for the nesting, and the result [r] of the pruned search is
    related to the exact value [z] as follows: above [alpha] it is at most
    [z], below [beta] it is at least [z], and strictly inside the window
    it is [z] and comes with the move of the exhaustive search. *)
Theorem minimax_window_bounds (g : GameBoard) (depth : Z) (alpha beta : score)
    (mx : bool) (p : Player.t) (n : Z) :
  board_ok g -> score_ltb alpha beta = true ->
  exists r mv n' z mvE,
    (forall limit, room_for limit g depth ->
       minimax limit g depth alpha beta mx p n = Done (r, mv, n') /\
       exhaustive limit g depth mx p = Done (z, mvE)) /\
    (score_ltb alpha r = true -> score_leb r (Fin z) = true) /\
    (score_ltb r beta = true -> score_leb (Fin z) r = true) /\
    (score_ltb alpha r = true -> score_ltb r beta = true ->
     r = Fin z /\ mv = mvE).
Proof.
  intros Hok Hab. apply score_ltb_true in Hab.
  destruct (minimax_exhaustive_room g depth alpha beta mx p n Hok)
    as (r & mv & n' & z & mvE & Hrun).
  destruct (Hrun _ (room_for_bound g depth)) as [HM HE].
  destruct (minimax_within _ _ _ _ _ _ _ _ _ _ _ _ _ Hok Hab HM HE)
    as [[Hlo Hhi] Hmv].
  exists r, mv, n', z, mvE. split; [done|].
  rewrite !score_ltb_true, !score_leb_true. split; [done|]. split; [done|].
  intros Har Hrb. split; [|by apply Hmv].
  specialize (Hlo Har). specialize (Hhi Hrb).
  destruct r; simpl in *; try done. f_equal. lia.
Qed.

Lemma minimax_window_bounds_witness :
  exists r mv n' z mvE,
    (forall limit, room_for limit (initial 3) 2 ->
       minimax limit (initial 3) 2 (Fin 0) (Fin 50) true Player.A 0
       = Done (r, mv, n') /\
       exhaustive limit (initial 3) 2 true Player.A = Done (z, mvE)) /\
    (score_ltb (Fin 0) r = true -> score_leb r (Fin z) = true) /\
    (score_ltb r (Fin 50) = true -> score_leb (Fin z) r = true) /\
    (score_ltb (Fin 0) r = true -> score_ltb r (Fin 50) = true ->
     r = Fin z /\ mv = mvE).
Proof.
  apply (minimax_window_bounds (initial 3) 2 (Fin 0) (Fin 50) true Player.A 0).
  - apply initial_board_ok. lia.
  - reflexivity.
Defined.

(** X15. The move [get_best_move] returns when the mover has a legal move
    is the move of the exhaustive search to depth [max_depth], under every
    recursion limit that leaves room for the nesting. *)
Theorem get_best_move_exhaustive (g : GameBoard) (p : Player.t) (max_depth : Z) :
  board_ok g -> get_valid_moves g p <> Ok [] ->
  exists z mv n,
    forall limit, room_for limit g max_depth ->
      get_best_move limit max_depth g p = Done (mv, n) /\
      exhaustive limit g max_depth true p = Done (z, mv).
Proof.
  intros Hok Hmoves. apply legal_moves_not_nil in Hmoves; [|done].
  destruct (minimax_full_window g max_depth true p 0 Hok) as (z & mv & n & Hrun).
  exists z, mv, n. intros limit Hroom. destruct (Hrun limit Hroom) as [HM HE].
  split; [|done]. rewrite get_best_move_ok by done.
  rewrite (bool_decide_eq_false_2 _ Hmoves). by rewrite HM.
Qed.

Lemma get_best_move_exhaustive_witness :
  exists z mv n,
    forall limit, room_for limit (initial 3) 2 ->
      get_best_move limit 2 (initial 3) Player.A = Done (mv, n) /\
      exhaustive limit (initial 3) 2 true Player.A = Done (z, mv).
Proof.
  apply (get_best_move_exhaustive (initial 3) Player.A 2).
  - apply initial_board_ok. lia.
  - vm_compute. discriminate.
Defined.

(** X16. How deep the search nests. As long as the depth does not stop
    it, every call of [minimax] on a board that is not full makes a
    nested call, for a pass or for its first move: with a depth that is
    negative or at least [limit], on a board with an occupied cell and at
    least [limit] empty ones, [limit] nested calls are not enough, for
    every window and either side, and the call ends in RecursionError.
    With a depth that is not negative, [depth + 1] nested calls are
    always enough. *)
Theorem minimax_nesting (limit : nat) (g : GameBoard) (depth : Z)
    (alpha beta : score) (mx : bool) (p : Player.t) (n : Z) :
  board_ok g ->
  (has_cell g -> depth < 0 \/ Z.of_nat limit <= depth ->
   (limit <= empty_count g)%nat ->
   under_limit (minimax limit g depth alpha beta mx p n) = Raise RecursionError) /\
  (0 <= depth < Z.of_nat limit ->
   exists s mv n', minimax limit g depth alpha beta mx p n = Done (Fin s, mv, n')).
Proof.
  intros Hok. split.
  - intros Hcell Hd Hlimit. by rewrite minimax_too_deep.
  - intros Hd.
    destruct (minimax_total_depth limit g depth alpha beta mx p n Hok Hd)
      as (s & mv & n' & Heq & _).
    by exists s, mv, n'.
Qed.

Lemma minimax_nesting_witness :
  (has_cell (initial 4) -> -1 < 0 \/ Z.of_nat 10 <= -1 ->
   (10 <= empty_count (initial 4))%nat ->
   under_limit (minimax 10 (initial 4) (-1) NegInf PosInf true Player.A 0)
   = Raise RecursionError) /\
  (0 <= -1 < Z.of_nat 10 ->
   exists s mv n',
     minimax 10 (initial 4) (-1) NegInf PosInf true Player.A 0
     = Done (Fin s, mv, n')).
Proof.
  apply (minimax_nesting 10 (initial 4) (-1) NegInf PosInf true Player.A 0).
  apply initial_board_ok. lia.
Defined.
